(** * localizar_duplicatas: duplicate files by name and content

    A shallow embedding of [src/main.cpp].  The program asks for a root
    folder, walks it recursively, indexes the regular files by base name,
    hashes (SHA-256, Crypto++) the files of every name that occurs more
    than once, prints the groups of equal name and equal digest and ends
    with an estimate of the bytes that could be freed.

    Layout of the development:
    - [Sha256]   the Crypto++ objects the program uses ([SHA256] with
                 [Update]/[Final], [HexEncoder]);
    - [Efeitos]  the effects of the program: a trace of events and C++
                 exceptions;
    - the file system the program observes;
    - the four functions of [main.cpp], in the order of the source;
    - the properties. *)

From Stdlib Require Import ZArith List String Ascii Lia Bool Arith Permutation.
From Stdlib.Strings Require Import Byte.
From Stdlib Require DecimalString DecimalN.
From Equations.Prop Require Import Equations Logic.
Import ListNotations.

Set Default Goal Selector "!".

(** [length] is the length of a list throughout; the length of a string
    is written [String.length]. *)
Abbreviation length := List.length (only parsing).

(* ===================================================================== *)
(** ** Crypto++: SHA256 and HexEncoder *)
(* ===================================================================== *)

Module Sha256.

Local Open Scope Z_scope.

(** 32-bit words: integers cut to their low 32 bits. *)
Definition w32 (z : Z) : Z := Z.land z 0xffffffff.

Definition rotr (n x : Z) : Z :=
  Z.lor (Z.shiftr x n) (w32 (Z.shiftl x (32 - n))).

Definition Ch (x y z : Z) : Z :=
  Z.lxor (Z.land x y) (Z.land (Z.lxor x 0xffffffff) z).

Definition Maj (x y z : Z) : Z :=
  Z.lxor (Z.lxor (Z.land x y) (Z.land x z)) (Z.land y z).

Definition Sigma0 (x : Z) : Z := Z.lxor (Z.lxor (rotr 2 x) (rotr 13 x)) (rotr 22 x).
Definition Sigma1 (x : Z) : Z := Z.lxor (Z.lxor (rotr 6 x) (rotr 11 x)) (rotr 25 x).
Definition sigma0 (x : Z) : Z := Z.lxor (Z.lxor (rotr 7 x) (rotr 18 x)) (Z.shiftr x 3).
Definition sigma1 (x : Z) : Z := Z.lxor (Z.lxor (rotr 17 x) (rotr 19 x)) (Z.shiftr x 10).

(** The constants are not tabulated but computed from their definition:
    the first 32 bits of the fractional parts of the square roots (for the
    initial chaining value) and of the cube roots (for the round
    constants) of the first primes. *)
Definition primo (n : nat) : bool :=
  forallb (fun d => negb (n mod d =? 0)%nat) (seq 2 (n - 2)).

Definition primos : list Z :=
  Eval vm_compute in map Z.of_nat (firstn 64 (filter primo (seq 2 400))).

(** The largest [x] below [2^bits] above [acc] with [x^3 <= n]. *)
Fixpoint raiz_cubica (bits : nat) (n acc : Z) : Z :=
  match bits with
  | O => acc
  | S b =>
      let c := acc + 2 ^ Z.of_nat b in
      if c * c * c <=? n then raiz_cubica b n c else raiz_cubica b n acc
  end.

Definition K : list Z :=
  Eval vm_compute in
    map (fun p => w32 (raiz_cubica 40 (p * 2 ^ 96) 0)) primos.

(** The initial chaining value. *)
Definition H0 : list Z :=
  Eval vm_compute in
    map (fun p => w32 (Z.sqrt (p * 2 ^ 64))) (firstn 8 primos).

Definition byteZ (b : byte) : Z := Z.of_N (Byte.to_N b).

Definition Zbyte (z : Z) : byte :=
  match Byte.of_N (Z.to_N (z mod 256)) with
  | Some b => b
  | None => x00
  end.

(** Big-endian words of a block. *)
Fixpoint palavras (bs : list byte) : list Z :=
  match bs with
  | a :: b :: c :: d :: r =>
      (byteZ a * 2 ^ 24 + byteZ b * 2 ^ 16 + byteZ c * 2 ^ 8 + byteZ d) :: palavras r
  | _ => []
  end.

Definition bytes_da_palavra (w : Z) : list byte :=
  [ Zbyte (Z.shiftr w 24); Zbyte (Z.shiftr w 16); Zbyte (Z.shiftr w 8); Zbyte w ].

(** Message schedule; [w] holds the words computed so far, newest first. *)
Fixpoint expandir (n : nat) (w : list Z) : list Z :=
  match n with
  | O => w
  | S n' =>
      let novo := w32 (sigma1 (nth 1 w 0) + nth 6 w 0 + sigma0 (nth 14 w 0) + nth 15 w 0) in
      expandir n' (novo :: w)
  end.

Definition agenda (bloco : list byte) : list Z :=
  rev (expandir 48 (rev (palavras bloco))).

Definition rodada (v : list Z) (kw : Z * Z) : list Z :=
  match v with
  | [a; b; c; d; e; f; g; h] =>
      let t1 := h + Sigma1 e + Ch e f g + fst kw + snd kw in
      let t2 := Sigma0 a + Maj a b c in
      [ w32 (t1 + t2); a; b; c; w32 (d + t1); e; f; g ]
  | _ => v
  end.

Fixpoint soma_palavras (x y : list Z) : list Z :=
  match x, y with
  | a :: x', b :: y' => w32 (a + b) :: soma_palavras x' y'
  | _, _ => []
  end.

(** The compression function on one 64-byte block. *)
Definition comprimir (h : list Z) (bloco : list byte) : list Z :=
  soma_palavras h (fold_left rodada (combine K (agenda bloco)) h).

(** The hash object: chaining value, bytes of the block being filled
    (always fewer than 64) and number of bytes absorbed so far. *)
Record SHA256 : Type := mkSHA256 {
  encadeado : list Z;
  pendente : list byte;
  contagem : Z
}.

(** [CryptoPP::SHA256 hash;] *)
Definition novo : SHA256 :=
  {| encadeado := H0; pendente := []; contagem := 0 |}.

Definition absorver (s : SHA256) (b : byte) : SHA256 :=
  let p := pendente s ++ [b] in
  if (length p =? 64)%nat
  then {| encadeado := comprimir (encadeado s) p; pendente := [];
          contagem := contagem s + 1 |}
  else {| encadeado := encadeado s; pendente := p; contagem := contagem s + 1 |}.

(** [hash.Update(input, length)], [dados] being the [length] bytes at
    [input]. *)
Definition Update (s : SHA256) (dados : list byte) : SHA256 :=
  fold_left absorver dados s.

(** Padding for a message of [n] bytes: [0x80], zeros up to 56 modulo 64,
    then the length in bits as a 64-bit big-endian number. *)
Definition enchimento (n : Z) : list byte :=
  let zeros := Z.to_nat ((55 - n) mod 64) in
  let bits := (8 * n) mod 2 ^ 64 in
  x80 :: repeat x00 zeros
    ++ bytes_da_palavra (Z.shiftr bits 32) ++ bytes_da_palavra (w32 bits).

(** [hash.Final(digest)]: the 32 bytes written to [digest]. *)
Definition Final (s : SHA256) : list byte :=
  flat_map bytes_da_palavra (encadeado (Update s (enchimento (contagem s)))).

(** [CryptoPP::SHA256::DIGESTSIZE] *)
Definition DIGESTSIZE : nat := 32.

(** *** The digest of a whole message

    SHA-256 as the standard states it, on a message that is at hand in
    full: pad it, cut it into blocks of 64 bytes, compress block after
    block from the initial value. *)
Equations? blocos (msg : list byte) : list (list byte) by wf (length msg) lt :=
  blocos [] := [];
  blocos (b :: r) := firstn 64 (b :: r) :: blocos (skipn 64 (b :: r)).
Proof.
  change (length (skipn 63 r) < S (length r))%nat.
  rewrite length_skipn. lia.
Qed.

Definition sha256 (msg : list byte) : list byte :=
  let enchida := msg ++ enchimento (Z.of_nat (length msg)) in
  flat_map bytes_da_palavra (fold_left comprimir (blocos enchida) H0).

(** *** HexEncoder

    [CryptoPP::HexEncoder encoder(new StringSink(hashHex))] with the
    default arguments: upper-case digits, no grouping, no separator. *)

Definition digito_hex (n : Z) : ascii :=
  if n <? 10 then ascii_of_nat (48 + Z.to_nat n)
  else ascii_of_nat (55 + Z.to_nat n).

Fixpoint HexEncoder (bs : list byte) : string :=
  match bs with
  | [] => EmptyString
  | b :: r =>
      String (digito_hex (byteZ b / 16))
        (String (digito_hex (byteZ b mod 16)) (HexEncoder r))
  end.

End Sha256.


(* ===================================================================== *)
(** ** Effects: events and exceptions *)
(* ===================================================================== *)

(** A [std::filesystem::path], as the sequence of its components, taken
    from the directory in which the program runs; the empty sequence is the
    empty path. *)
Definition caminho : Type := list string.

(** [path::filename()]: the last component. *)
Definition filename (p : caminho) : string := last p EmptyString.

(** [path::string()] *)
Fixpoint path_string (p : caminho) : string :=
  match p with
  | [] => EmptyString
  | [c] => c
  | c :: r => c ++ "/" ++ path_string r
  end.

Module Efeitos.

(** What a run does to the outside, in order. *)
Inductive evento : Type :=
| Cout (texto : string)          (* what one statement sends to [std::cout] *)
| Cerr (texto : string)          (* what one statement sends to [std::cerr] *)
| EvExists (p : caminho)         (* [std::filesystem::exists(p)] *)
| EvIterar (p : caminho)         (* a [recursive_directory_iterator] on [p] *)
| EvAbrir (p : caminho)          (* a [std::ifstream] constructed on [p] *)
| EvFileSize (p : caminho).      (* [std::filesystem::file_size(p)] *)

(** [std::filesystem::filesystem_error], the one exception the standard
    library raises in this program: the operation and the path. *)
Inductive excecao : Type :=
| filesystem_error (operacao : string) (p : caminho).

Inductive resultado (A : Type) : Type :=
| Ok (a : A)
| Excecao (e : excecao).
Arguments Ok {A} a.
Arguments Excecao {A} e.

(** A computation: its result or the exception that left it, and the
    events it produced up to there. *)
Definition M (A : Type) : Type := resultado A * list evento.

Definition ret {A} (a : A) : M A := (Ok a, []).

Definition bind {A B} (c : M A) (k : A -> M B) : M B :=
  match c with
  | (Ok a, t) => let '(r, t') := k a in (r, t ++ t')
  | (Excecao e, t) => (Excecao e, t)
  end.

Definition emitir (ev : evento) : M unit := (Ok tt, [ev]).

Definition throw {A} (e : excecao) : M A := (Excecao e, []).

(** [try { c } catch (const std::exception &e) { h }] *)
Definition try_catch {A} (c : M A) (h : excecao -> M A) : M A :=
  match c with
  | (Ok a, t) => (Ok a, t)
  | (Excecao e, t) => let '(r, t') := h e in (r, t ++ t')
  end.

Definition cout (texto : string) : M unit := emitir (Cout texto).
Definition cerr (texto : string) : M unit := emitir (Cerr texto).

(** A range-based [for] whose body updates the local state [s]. *)
Fixpoint para_cada {A S : Type} (l : list A) (s : S) (corpo : S -> A -> M S) : M S :=
  match l with
  | [] => ret s
  | x :: r => bind (corpo s x) (fun s' => para_cada r s' corpo)
  end.

Definition valor {A} (c : M A) : resultado A := fst c.
Definition rastro {A} (c : M A) : list evento := snd c.

End Efeitos.
Import Efeitos.

Declare Scope efeitos_scope.
Delimit Scope efeitos_scope with efeitos.
Notation "x <- c ;; k" := (bind c (fun x => k))
  (at level 100, c at next level, right associativity) : efeitos_scope.
Notation "' p <- c ;; k" := (bind c (fun x => let 'p := x in k))
  (at level 100, p pattern, c at next level, right associativity) : efeitos_scope.
Notation "c ;; k" := (bind c (fun _ => k))
  (at level 100, right associativity) : efeitos_scope.

(* ===================================================================== *)
(** ** The file system *)
(* ===================================================================== *)

(** A node of the file system when the run starts.  [Regular] stands for
    whatever [is_regular_file()] accepts, with its bytes and whether it can
    be opened for reading; [Diretorio] carries whether the process has its
    permissions: without them it can neither be listed ([opendir] answers
    [EACCES]) nor searched ([stat] of anything below answers [EACCES]);
    [Outro] is what exists and is neither (socket, device, pipe); [Laco] is
    a symbolic link that cannot be followed, as one that leads back to
    itself ([stat] answers [ELOOP]). *)
#[warnings="-register-all"]
Inductive no : Type :=
| Regular (legivel : bool) (conteudo : list byte)
| Diretorio (permitido : bool) (filhos : list (string * no))
| Outro
| Laco.

Fixpoint procurar (nome : string) (filhos : list (string * no)) : option no :=
  match filhos with
  | [] => None
  | (n, f) :: r => if String.eqb n nome then Some f else procurar nome r
  end.

(** The errors of [stat] that [std::filesystem::status] does not take for
    "no such file". *)
Inductive errno : Type := EACCES | ELOOP | ENAMETOOLONG.

(** What [stat] answers for a path: the node, that there is none ([ENOENT],
    [ENOTDIR]), or another error. *)
Inductive file_status : Type :=
| Achou (n : no)
| NaoAchou
| Erro (motivo : errno).

(** The longest name a directory can hold, [NAME_MAX] of [<limits.h>]. *)
Definition NAME_MAX : nat := 255.

(** The components of [p] looked up one after the other from the directory
    [t], whose ancestors are [acima], nearest first; the top of the tree is
    its own parent. *)
Fixpoint descer (acima : list no) (t : no) (p : caminho) : file_status :=
  match p with
  | [] =>
      match t with
      | Laco => Erro ELOOP
      | _ => Achou t
      end
  | c :: r =>
      match t with
      | Diretorio true filhos =>
          if String.eqb c "." then descer acima t r
          else if String.eqb c ".." then
            match acima with
            | [] => descer [] t r
            | pai :: avos => descer avos pai r
            end
          else if (NAME_MAX <? String.length c)%nat then Erro ENAMETOOLONG
          else
            match procurar c filhos with
            | Some f => descer (t :: acima) f r
            | None => NaoAchou
            end
      | Diretorio false _ => Erro EACCES
      | Laco => Erro ELOOP
      | Regular _ _ | Outro => NaoAchou
      end
  end.

(** [stat] of a path, from the directory in which the program runs, which
    is the top of the tree.  The empty path names nothing. *)
Definition status (t : no) (p : caminho) : file_status :=
  match p with
  | [] => NaoAchou
  | _ :: _ => descer [] t p
  end.

(** The node a path denotes, when [stat] finds one. *)
Definition resolver (t : no) (p : caminho) : option no :=
  match status t p with
  | Achou n => Some n
  | _ => None
  end.

(** *** std::unordered_map<std::string, std::vector<path>>

    Kept as an association list with one entry per key, in the order in
    which the keys were first inserted.  The order in which a [for] visits
    the entries is left to the implementation: the world gives it (see
    [ordem] below). *)
Definition unordered_map : Type := list (string * list caminho).

(** [m[k].push_back(p)] *)
Fixpoint push_back_em (k : string) (p : caminho) (m : unordered_map) : unordered_map :=
  match m with
  | [] => [(k, [p])]
  | (k', v) :: r =>
      if String.eqb k' k then (k', v ++ [p]) :: r
      else (k', v) :: push_back_em k p r
  end.

(** What the run observes of the outside.  [arvore] is the file system
    during the existence test and the walk, from the directory in which
    the program runs, which is taken as its top.  Things can change while
    the program runs.  So whether opening a directory to list it, when the
    walk comes to it, fails for a reason other than a denied permission
    (the directory is gone, no descriptor is left) is given per path
    ([falha_ao_listar]); and so are what opening a path for reading gives
    ([abrir]: [None] when [is_open()] is false, otherwise the bytes the
    stream delivers) and what [file_size] answers ([tamanho]: [None] for a
    [filesystem_error]).  [lixo] is the content of the uninitialised
    [char buffer[bufferSize]].  [ordem] is the order in which the standard
    library enumerates the entries of an [unordered_map]: some permutation
    of them. *)
Record Mundo : Type := mkMundo {
  arvore : no;
  falha_ao_listar : caminho -> bool;
  abrir : caminho -> option (list byte);
  tamanho : caminho -> option N;
  lixo : list byte;
  ordem : unordered_map -> unordered_map;
  ordem_permuta : forall entradas, Permutation (ordem entradas) entradas
}.

Definition ordem_de_insercao (entradas : unordered_map) : unordered_map := entradas.

Lemma ordem_de_insercao_permuta (entradas : unordered_map) :
  Permutation (ordem_de_insercao entradas) entradas.
Proof. apply Permutation_refl. Qed.

(** The world in which nothing changes while the program runs. *)
Definition estavel (t : no) : Mundo :=
  {| arvore := t;
     falha_ao_listar := fun _ => false;
     abrir := fun p => match resolver t p with
                       | Some (Regular true c) => Some c
                       | _ => None
                       end;
     tamanho := fun p => match resolver t p with
                         | Some (Regular _ c) => Some (N.of_nat (length c))
                         | _ => None
                         end;
     lixo := [];
     ordem := ordem_de_insercao;
     ordem_permuta := ordem_de_insercao_permuta |}.

(** [std::filesystem::file_type], as far as the program tells its values
    apart; [none] is what [status] leaves when it fails. *)
Inductive file_type : Type := regular | directory | other | none.

Definition tipo_de (n : no) : file_type :=
  match n with
  | Regular _ _ => regular
  | Diretorio _ _ => directory
  | Outro => other
  | Laco => none
  end.

(** A directory entry as the loop of [obter_arquivos_duplicados] sees it:
    [entrada.path()] and the type of what the path leads to. *)
Record directory_entry : Type := mkEntrada {
  path : caminho;
  tipo : file_type
}.

(** [entrada.is_regular_file()]: it asks the status of the entry, and
    throws when that cannot be had. *)
Definition is_regular_file (entrada : directory_entry) : M bool :=
  match tipo entrada with
  | regular => ret true
  | none => throw (filesystem_error "status" (path entrada))
  | directory | other => ret false
  end.

Definition arquivo_regular (entrada : directory_entry) : bool :=
  match tipo entrada with
  | regular => true
  | _ => false
  end.

(** The entries a recursive iterator finds below a directory when nothing
    stops it: each child, followed at once by what lies below it.  A
    directory that may not be listed is yielded but not entered
    ([directory_options::skip_permission_denied]), and neither is a
    symbolic link. *)
Fixpoint descendentes (base : caminho) (n : no) {struct n} : list directory_entry :=
  match n with
  | Diretorio true filhos =>
      (fix percorrer (fs : list (string * no)) : list directory_entry :=
         match fs with
         | [] => []
         | (nome, f) :: r =>
             mkEntrada (base ++ [nome]) (tipo_de f)
               :: descendentes (base ++ [nome]) f ++ percorrer r
         end) filhos
  | _ => []
  end.

(** An iteration: the entries it delivers to the loop, in order, and the
    exception with which an increment ends it before its time, if one
    does. *)
Record iteracao : Type := mkIteracao {
  entregues : list directory_entry;
  falha : option excecao
}.

(** The increment that follows a directory entry opens that directory. *)
Definition ao_incrementar (m : Mundo) (entrada : directory_entry) : option excecao :=
  match tipo entrada with
  | directory =>
      if falha_ao_listar m (path entrada)
      then Some (filesystem_error "cannot increment recursive directory iterator"
                                  (path entrada))
      else None
  | _ => None
  end.

(** The walk stops at the first directory that fails to open. *)
Fixpoint interromper (m : Mundo) (l : list directory_entry) : iteracao :=
  match l with
  | [] => mkIteracao [] None
  | entrada :: r =>
      match ao_incrementar m entrada with
      | Some e => mkIteracao [entrada] (Some e)
      | None =>
          let resto := interromper m r in
          mkIteracao (entrada :: entregues resto) (falha resto)
      end
  end.

(** [std::filesystem::exists(p)], the overload that throws: it is
    [status(p)], which throws unless [stat] found the file or found that
    there is none. *)
Definition fs_exists (m : Mundo) (p : caminho) : M bool :=
  (emitir (EvExists p) ;;
   match status (arvore m) p with
   | Achou _ => ret true
   | NaoAchou => ret false
   | Erro _ => throw (filesystem_error "status" p)
   end)%efeitos.

(** [recursive_directory_iterator(p, skip_permission_denied)].  The
    constructor throws when [p] cannot be opened as a directory, unless the
    reason is a denied permission, in which case the iteration is empty. *)
Definition recursive_directory_iterator (m : Mundo) (p : caminho) : M iteracao :=
  (emitir (EvIterar p) ;;
   match resolver (arvore m) p with
   | Some (Diretorio permitido filhos) =>
       if falha_ao_listar m p
       then throw (filesystem_error "recursive directory iterator cannot open directory" p)
       else ret (interromper m (descendentes p (Diretorio permitido filhos)))
   | _ => throw (filesystem_error "recursive directory iterator cannot open directory" p)
   end)%efeitos.

(** [std::filesystem::file_size(p)], the overload that throws. *)
Definition file_size (m : Mundo) (p : caminho) : M Z :=
  (emitir (EvFileSize p) ;;
   match tamanho m p with
   | Some n => ret (Z.of_N n)
   | None => throw (filesystem_error "cannot get file size" p)
   end)%efeitos.

(** *** std::ifstream *)

Record ifstream : Type := mkIfstream {
  restante : list byte;     (* bytes not yet read *)
  gcount : nat;             (* [arquivo.gcount()] *)
  good : bool               (* neither [eofbit] nor [failbit] *)
}.

(** [std::ifstream arquivo(caminho, std::ios::binary)]; [None] when
    [arquivo.is_open()] is false. *)
Definition ifstream_abrir (m : Mundo) (p : caminho) : M (option ifstream) :=
  (emitir (EvAbrir p) ;;
   ret (match abrir m p with
        | Some c => Some {| restante := c; gcount := 0; good := true |}
        | None => None
        end))%efeitos.

(** [arquivo.read(buffer, n)]: copies up to [n] bytes to the start of
    [buffer]; the stream stays good only if all [n] were there. *)
Definition read (arquivo : ifstream) (buffer : list byte) (n : nat)
  : ifstream * list byte :=
  let lidos := firstn n (restante arquivo) in
  ({| restante := skipn n (restante arquivo);
      gcount := length lidos;
      good := (length lidos =? n)%nat |},
   lidos ++ skipn (length lidos) buffer).

(* ===================================================================== *)
(** ** The program *)
(* ===================================================================== *)

(** *** calcularHash *)

(** [constexpr size_t bufferSize = 8192;] *)
Definition bufferSize : nat := N.to_nat 8192.

Lemma bufferSize_pos : 0 < bufferSize.
Proof. apply Nat.ltb_lt. vm_compute. reflexivity. Qed.

(** Proofs never look inside the constant. *)
Opaque bufferSize.

(** The loop
    [while (arquivo.read(buffer, bufferSize)) hash.Update(buffer, arquivo.gcount());]
    on the hash object, the stream and the buffer. *)
Equations? ler_blocos (hash : Sha256.SHA256) (arquivo : ifstream) (buffer : list byte)
  : Sha256.SHA256 * ifstream * list byte
  by wf (length (restante arquivo)) lt :=
  ler_blocos hash arquivo buffer
    with inspect (good (fst (read arquivo buffer bufferSize))) := {
    | exist _ true eq_good =>
        let lido := read arquivo buffer bufferSize in
        ler_blocos (Sha256.Update hash (firstn (gcount (fst lido)) (snd lido)))
                   (fst lido) (snd lido)
    | exist _ false _ =>
        let lido := read arquivo buffer bufferSize in
        (hash, fst lido, snd lido) }.
Proof.
  pose proof bufferSize_pos as Hpos.
  apply Nat.eqb_eq in eq_good. rewrite length_firstn in eq_good.
  rewrite length_skipn. lia.
Qed.

(** The loop, one turn at a time. *)
Lemma ler_blocos_eq (hash : Sha256.SHA256) (arquivo : ifstream) (buffer : list byte) :
  ler_blocos hash arquivo buffer =
  let lido := read arquivo buffer bufferSize in
  if good (fst lido)
  then ler_blocos (Sha256.Update hash (firstn (gcount (fst lido)) (snd lido)))
                  (fst lido) (snd lido)
  else (hash, fst lido, snd lido).
Proof.
  rewrite ler_blocos_equation_1.
  generalize (inspect (good (fst (read arquivo buffer bufferSize)))).
  intros [b e]. cbv zeta.
  destruct b; simp ler_blocos; cbv zeta; rewrite e; reflexivity.
Qed.

Definition ao_abrir (caminho : caminho) : string :=
  "Não foi possível abrir o arquivo " ++ path_string caminho ++ " para leitura.".

Definition ao_falhar (caminho : caminho) (e : excecao) : string :=
  match e with
  | filesystem_error what _ =>
      "Erro ao calcular o hash do arquivo " ++ path_string caminho ++ ": " ++ what
  end.

Definition calcularHash (m : Mundo) (caminho : caminho) : M string :=
  try_catch
    (let hash := Sha256.novo in
     arquivo <- ifstream_abrir m caminho ;;
     match arquivo with
     | None =>
         cerr (ao_abrir caminho) ;;
         ret EmptyString
     | Some arquivo =>
         let buffer := lixo m in
         let '(hash, arquivo, buffer) := ler_blocos hash arquivo buffer in
         (* Processa os bytes restantes *)
         let hash := if (0 <? gcount arquivo)%nat
                     then Sha256.Update hash (firstn (gcount arquivo) buffer)
                     else hash in
         (* Finaliza o cálculo do hash *)
         let digest := firstn Sha256.DIGESTSIZE (Sha256.Final hash) in
         (* Converte o hash para uma string hexadecimal *)
         let hashHex := Sha256.HexEncoder digest in
         ret hashHex
     end)%efeitos
    (fun e =>
       cerr (ao_falhar caminho e) ;;
       ret EmptyString)%efeitos.

(** *** obter_arquivos_duplicados *)

Definition obter_arquivos_duplicados (m : Mundo) (pastaRaiz : caminho)
  : M unordered_map :=
  (let arquivos : unordered_map := [] in
   (* Percorre recursivamente o diretório raiz *)
   iterador <- recursive_directory_iterator m pastaRaiz ;;
   arquivos <- para_cada (entregues iterador) arquivos (fun arquivos entrada =>
     e_arquivo <- is_regular_file entrada ;;
     if e_arquivo then
       let nomeArquivo := filename (path entrada) in
       ret (push_back_em nomeArquivo (path entrada) arquivos)
     else ret arquivos) ;;
   match falha iterador with
   | Some e => throw e
   | None => ret arquivos
   end)%efeitos.

(** *** exibir_duplicados *)

Local Open Scope Z_scope.

(** [size_t]: 64 bits, unsigned. *)
Definition size_t (z : Z) : Z := z mod 2 ^ 64.

(** [int]: 32 bits, two's complement; an overflow, which C++ leaves
    undefined, wraps around as the machine does. *)
Definition int (z : Z) : Z := (z + 2 ^ 31) mod 2 ^ 32 - 2 ^ 31.

(** The three local variables the loops update. *)
Record locais : Type := mkLocais {
  encontrouDuplicados : bool;
  tamanhoTotalEmBytes : Z;      (* size_t *)
  totalDuplicatas : Z           (* int *)
}.

(** Lines 73-78: the map from digest to paths for one name. *)
Definition agrupar_por_hash (m : Mundo) (caminhos : list caminho) : M unordered_map :=
  para_cada caminhos [] (fun hashes caminho =>
    hash <- calcularHash m caminho ;;
    if negb (String.eqb hash EmptyString)
    then ret (push_back_em hash caminho hashes)
    else ret hashes)%efeitos.

Definition cabecalho (nomeArquivo : string) : string :=
  "Arquivos duplicados encontrados para o nome: " ++ nomeArquivo.

Definition item (caminho : caminho) : string := " - " ++ path_string caminho.

(** Lines 83-87: one path of a group. *)
Definition exibir_caminho (m : Mundo) (v : locais) (caminho : caminho) : M locais :=
  (cout (item caminho) ;;
   t <- file_size m caminho ;;
   ret {| encontrouDuplicados := encontrouDuplicados v;
          tamanhoTotalEmBytes := size_t (tamanhoTotalEmBytes v + t);
          totalDuplicatas := int (totalDuplicatas v + 1) |})%efeitos.

(** Lines 81-89: one group of paths with the same digest. *)
Definition exibir_grupo (m : Mundo) (nomeArquivo : string) (v : locais)
  (caminhosHash : list caminho) : M locais :=
  (if (1 <? length caminhosHash)%nat then
     cout (cabecalho nomeArquivo) ;;
     v <- para_cada caminhosHash v (exibir_caminho m) ;;
     ret {| encontrouDuplicados := true;
            tamanhoTotalEmBytes := tamanhoTotalEmBytes v;
            totalDuplicatas := totalDuplicatas v |}
   else ret v)%efeitos.

(** Lines 70-92: one entry of [arquivos]. *)
Definition exibir_nome (m : Mundo) (v : locais) (entrada : string * list caminho)
  : M locais :=
  (let '(nomeArquivo, caminhos) := entrada in
   if (1 <? length caminhos)%nat then
     (* Verifica se o conteúdo dos arquivos é o mesmo usando hash *)
     hashes <- agrupar_por_hash m caminhos ;;
     (* Imprime os arquivos duplicados *)
     para_cada (map snd (ordem m hashes)) v (exibir_grupo m nomeArquivo)
   else ret v)%efeitos.

Definition exibir_duplicados (m : Mundo) (arquivos : unordered_map) : M (Z * Z) :=
  (let v := {| encontrouDuplicados := false;
               tamanhoTotalEmBytes := 0;
               totalDuplicatas := 0 |} in
   v <- para_cada (ordem m arquivos) v (exibir_nome m) ;;
   (if negb (encontrouDuplicados v)
    then cout "Nenhum arquivo duplicado encontrado."
    else ret tt) ;;
   ret (tamanhoTotalEmBytes v, size_t (totalDuplicatas v)))%efeitos.

(** *** main *)

(** [std::cout << n] for an unsigned number. *)
Definition decimal (z : Z) : string :=
  DecimalString.NilZero.string_of_uint (N.to_uint (Z.to_N z)).

Definition estimativa (bytes : Z) : string :=
  "Tamanho em bytes que pode ser liberado: " ++ decimal bytes ++ " bytes".

(** [main], given the line [std::getline] reads into [pastaRaiz], already
    as a path; the value is what [main] returns. *)
Definition main (m : Mundo) (pastaRaiz : caminho) : M Z :=
  (cout "Localizar duplicatas!" ;;
   cout "Informe pasta raiz: " ;;
   existe <- fs_exists m pastaRaiz ;;
   if negb existe then
     cout "Pasta raiz não existe." ;;
     ret (-1)
   else
     (* Cria um mapa para armazenar os arquivos e seus caminhos *)
     arquivos <- obter_arquivos_duplicados m pastaRaiz ;;
     (* Verifica os arquivos duplicados *)
     '(tamanhoBytes, total) <- exibir_duplicados m arquivos ;;
     (if negb (total =? 0) then
        let tamanhoArquivo := tamanhoBytes / total in
        (* Considerando que cada arquivo duplicado tem um original e um duplicado *)
        cout (estimativa (size_t (tamanhoBytes - tamanhoArquivo)))
      else ret tt) ;;
     ret 0)%efeitos.

(** How the process ends: [main] returns and the value becomes the exit
    status (of which a POSIX system keeps the low eight bits), or an
    exception leaves [main] and [std::terminate] aborts the process. *)
Inductive desfecho : Type :=
| Saida (status : Z)
| Abortado (e : excecao).

Definition executar (m : Mundo) (pastaRaiz : caminho) : desfecho * list evento :=
  match main m pastaRaiz with
  | (Ok r, t) => (Saida r, t)
  | (Excecao e, t) => (Abortado e, t)
  end.

Local Close Scope Z_scope.

(* ===================================================================== *)
(** ** Properties of the hash object and of the encoder *)
(* ===================================================================== *)

Module Sha256Fatos.
Import Sha256.

Lemma Update_app (s : SHA256) (a b : list byte) :
  Update s (a ++ b) = Update (Update s a) b.
Proof. unfold Update. apply fold_left_app. Qed.

Lemma Update_nil (s : SHA256) : Update s [] = s.
Proof. reflexivity. Qed.

(** Eight words of chaining value, at every moment. *)
Definition oito (s : SHA256) : Prop := length (encadeado s) = 8.

Lemma rodada_length (v : list Z) (kw : Z * Z) :
  length v = 8 -> length (rodada v kw) = 8.
Proof.
  intros H.
  do 9 (destruct v as [|? v]; try discriminate H).
  reflexivity.
Qed.

Lemma rodadas_length (l : list (Z * Z)) (v : list Z) :
  length v = 8 -> length (fold_left rodada l v) = 8.
Proof.
  revert v. induction l as [|kw l IH]; intros v H; cbn [fold_left].
  - exact H.
  - apply IH, rodada_length, H.
Qed.

Lemma soma_palavras_length (x y : list Z) :
  length (soma_palavras x y) = Nat.min (length x) (length y).
Proof.
  revert y. induction x as [|a x IH]; intros [|b y]; cbn; auto.
Qed.

Lemma comprimir_length (h : list Z) (bloco : list byte) :
  length h = 8 -> length (comprimir h bloco) = 8.
Proof.
  intros H. unfold comprimir.
  rewrite soma_palavras_length, rodadas_length, H by exact H. reflexivity.
Qed.

Lemma novo_oito : oito novo.
Proof. reflexivity. Qed.

Lemma absorver_oito (s : SHA256) (b : byte) : oito s -> oito (absorver s b).
Proof.
  unfold oito, absorver. intros H.
  destruct (length (pendente s ++ [b]) =? 64); cbn [encadeado].
  - apply comprimir_length, H.
  - exact H.
Qed.

Lemma Update_oito (dados : list byte) (s : SHA256) : oito s -> oito (Update s dados).
Proof.
  unfold Update. revert s.
  induction dados as [|b dados IH]; intros s H; cbn [fold_left].
  - exact H.
  - apply IH, absorver_oito, H.
Qed.

Lemma Final_length (s : SHA256) : oito s -> length (Final s) = DIGESTSIZE.
Proof.
  intros H. unfold Final.
  pose proof (Update_oito (enchimento (contagem s)) s H) as H8.
  unfold oito in H8.
  destruct (encadeado (Update s (enchimento (contagem s)))) as [|a v]; try discriminate H8.
  do 8 (destruct v as [|? v]; try discriminate H8).
  reflexivity.
Qed.

Lemma HexEncoder_length (bs : list byte) :
  String.length (HexEncoder bs) = 2 * length bs.
Proof.
  induction bs as [|b bs IH]; cbn [HexEncoder String.length List.length].
  - reflexivity.
  - rewrite IH. lia.
Qed.

(** The digits [HexEncoder] writes. *)
Definition e_hex (c : ascii) : bool :=
  existsb (Ascii.eqb c) (list_ascii_of_string "0123456789ABCDEF").

Lemma digitos_do_byte (b : byte) :
  e_hex (digito_hex (byteZ b / 16)) = true /\
  e_hex (digito_hex (byteZ b mod 16)) = true.
Proof. destruct b; split; vm_compute; reflexivity. Qed.

Lemma HexEncoder_hex (bs : list byte) :
  forallb e_hex (list_ascii_of_string (HexEncoder bs)) = true.
Proof.
  induction bs as [|b bs IH]; cbn [HexEncoder list_ascii_of_string forallb].
  - reflexivity.
  - destruct (digitos_do_byte b) as [Ha Hb]. rewrite Ha, Hb, IH. reflexivity.
Qed.

(** *** The hash object computes SHA-256 *)

Lemma Update_contagem (dados : list byte) (s : SHA256) :
  contagem (Update s dados) = (contagem s + Z.of_nat (length dados))%Z.
Proof.
  unfold Update. revert s.
  induction dados as [|b dados IH]; intros s; cbn [fold_left List.length].
  - lia.
  - rewrite IH. unfold absorver.
    destruct (length (pendente s ++ [b]) =? 64); cbn [contagem]; lia.
Qed.

(** Bytes that do not fill the block are kept for later. *)
Lemma Update_parcial (dados : list byte) (s : SHA256) :
  length (pendente s) + length dados < 64 ->
  encadeado (Update s dados) = encadeado s /\
  pendente (Update s dados) = pendente s ++ dados.
Proof.
  unfold Update. revert s.
  induction dados as [|b dados IH]; intros s Hl; cbn [fold_left List.length] in *.
  - rewrite app_nil_r. auto.
  - assert (Hb : length (pendente s ++ [b]) = S (length (pendente s))).
    { rewrite length_app. cbn [List.length]. lia. }
    assert (Ha : absorver s b =
                 {| encadeado := encadeado s; pendente := pendente s ++ [b];
                    contagem := (contagem s + 1)%Z |}).
    { unfold absorver. rewrite Hb.
      destruct (S (length (pendente s)) =? 64) eqn:E; [|reflexivity].
      apply Nat.eqb_eq in E. lia. }
    rewrite Ha.
    destruct (IH (mkSHA256 (encadeado s) (pendente s ++ [b]) (contagem s + 1)%Z)
                 ltac:(cbn [pendente]; rewrite Hb; lia)) as [He Hp].
    rewrite He, Hp. cbn [encadeado pendente]. rewrite <- app_assoc. auto.
Qed.

(** The byte that fills the block has it compressed. *)
Lemma Update_bloco (bloco : list byte) (s : SHA256) :
  pendente s = [] -> length bloco = 64 ->
  encadeado (Update s bloco) = comprimir (encadeado s) bloco /\
  pendente (Update s bloco) = [].
Proof.
  intros Hp Hl.
  assert (Hne : bloco <> []) by (intros ->; discriminate Hl).
  rewrite (app_removelast_last x00 Hne) in Hl |- *.
  rewrite length_app in Hl. cbn [List.length] in Hl.
  rewrite Update_app.
  destruct (Update_parcial (removelast bloco) s ltac:(rewrite Hp; cbn; lia))
    as [He Hq].
  rewrite Hp in Hq. cbn [app] in Hq.
  unfold Update at 1 3. cbn [fold_left]. unfold absorver.
  rewrite Hq, He.
  replace (length (removelast bloco ++ [last bloco x00]) =? 64) with true
    by (symmetry; apply Nat.eqb_eq; rewrite length_app; cbn [List.length]; lia).
  cbn [encadeado pendente]. auto.
Qed.

(** A whole number of blocks, from an empty block: the blocks are
    compressed in turn. *)
Lemma Update_blocos (n : nat) (dados : list byte) (s : SHA256) :
  pendente s = [] -> length dados = 64 * n ->
  encadeado (Update s dados) = fold_left comprimir (blocos dados) (encadeado s) /\
  pendente (Update s dados) = [].
Proof.
  revert dados s. induction n as [|n IH]; intros dados s Hp Hl.
  - destruct dados; [|discriminate Hl]. simp blocos. auto.
  - destruct dados as [|b r]; [discriminate Hl|].
    rewrite blocos_equation_2. cbn [fold_left].
    remember (b :: r) as dados eqn:Hd. clear Hd b r.
    assert (Hsplit : Update s dados
                     = Update (Update s (firstn 64 dados)) (skipn 64 dados)).
    { rewrite <- Update_app, firstn_skipn. reflexivity. }
    destruct (Update_bloco (firstn 64 dados) s Hp
                ltac:(rewrite length_firstn; lia)) as [He Hq].
    destruct (IH (skipn 64 dados) (Update s (firstn 64 dados)) Hq
                ltac:(rewrite length_skipn; lia)) as [He' Hq'].
    rewrite Hsplit, He', Hq', He. auto.
Qed.

Lemma enchimento_length (n : Z) :
  length (enchimento n) = S (Z.to_nat ((55 - n) mod 64)) + 8.
Proof.
  unfold enchimento. cbn [List.length]. rewrite !length_app, repeat_length.
  reflexivity.
Qed.

Lemma enchida_blocos (msg : list byte) :
  exists n, length (msg ++ enchimento (Z.of_nat (length msg))) = 64 * n.
Proof.
  rewrite length_app, enchimento_length.
  pose proof (Z.mod_pos_bound (55 - Z.of_nat (length msg)) 64 eq_refl) as Hb.
  pose proof (Z.div_mod (55 - Z.of_nat (length msg)) 64 ltac:(discriminate)) as Hd.
  exists (Z.to_nat (1 - (55 - Z.of_nat (length msg)) / 64)).
  lia.
Qed.

(** Absorbing a message in one piece and closing the hash object gives
    its SHA-256 digest. *)
Theorem Final_Update_sha256 (msg : list byte) :
  Final (Update novo msg) = sha256 msg.
Proof.
  unfold Final, sha256. rewrite Update_contagem, <- Update_app.
  cbn [contagem novo Z.add].
  destruct (enchida_blocos msg) as [n Hn].
  destruct (Update_blocos n _ novo eq_refl Hn) as [He _].
  rewrite He. reflexivity.
Qed.

End Sha256Fatos.

(* ===================================================================== *)
(** ** calcularHash: what it returns and what it does *)
(* ===================================================================== *)

Section CalcularHash.
Import Sha256 Sha256Fatos.

(** A [read] that succeeds shortens the stream. *)
Lemma read_consome (arquivo : ifstream) (buffer : list byte) (n : nat) :
  0 < n ->
  good (fst (read arquivo buffer n)) = true ->
  length (restante (fst (read arquivo buffer n))) < length (restante arquivo).
Proof.
  unfold read. cbn [fst good restante]. intros Hn Hg.
  apply Nat.eqb_eq in Hg. rewrite length_firstn in Hg.
  rewrite length_skipn. lia.
Qed.

(** [read] delivers a prefix of what is left in the stream, and the first
    [gcount] bytes of the buffer are exactly that prefix, whatever the
    buffer held before. *)
Lemma read_buffer (arquivo : ifstream) (buffer : list byte) (n : nat) :
  let '(arquivo', buffer') := read arquivo buffer n in
  firstn (gcount arquivo') buffer' = firstn n (restante arquivo) /\
  restante arquivo' = skipn n (restante arquivo).
Proof.
  unfold read. cbn [gcount restante]. split; [|reflexivity].
  rewrite firstn_app, Nat.sub_diag, firstn_all. cbn [firstn].
  apply app_nil_r.
Qed.

(** When [read] fails the stream held fewer than [n] bytes and all of them
    were delivered. *)
Lemma read_final (arquivo : ifstream) (buffer : list byte) (n : nat) :
  good (fst (read arquivo buffer n)) = false ->
  firstn n (restante arquivo) = restante arquivo.
Proof.
  unfold read. cbn [fst good]. intros H.
  apply Nat.eqb_neq in H. rewrite length_firstn in H.
  apply firstn_all2. lia.
Qed.

(** The loop leaves the hash object one [Update] short of having absorbed
    all the bytes of the stream: the bytes of the last, partial [read] are
    still in the buffer. *)
Lemma ler_blocos_Update (hash : SHA256) (arquivo : ifstream) (buffer : list byte) :
  let '(hash', arquivo', buffer') := ler_blocos hash arquivo buffer in
  Update hash' (firstn (gcount arquivo') buffer') = Update hash (restante arquivo).
Proof.
  remember (length (restante arquivo)) as n eqn:Hn.
  revert hash arquivo buffer Hn.
  induction n as [n IH] using lt_wf_ind. intros hash arquivo buffer Hn.
  rewrite ler_blocos_eq. cbv zeta.
  pose proof (read_buffer arquivo buffer bufferSize) as Hr.
  pose proof (read_final arquivo buffer bufferSize) as Hf.
  pose proof (read_consome arquivo buffer bufferSize bufferSize_pos) as Hc.
  destruct (read arquivo buffer bufferSize) as [a b]. cbn [fst snd] in *.
  destruct Hr as [Hb Hs].
  destruct (good a).
  - (* the read filled the buffer: one more turn *)
    specialize (IH (length (restante a)) ltac:(subst n; auto)
                   (Update hash (firstn (gcount a) b)) a b eq_refl).
    destruct (ler_blocos _ a b) as [[h' a'] b'].
    rewrite IH, Hb, Hs, <- Update_app, firstn_skipn. reflexivity.
  - (* the read came short: the loop ends *)
    rewrite Hb, Hf by reflexivity. reflexivity.
Qed.

Lemma ler_blocos_oito (hash : SHA256) (arquivo : ifstream) (buffer : list byte) :
  oito hash -> oito (fst (fst (ler_blocos hash arquivo buffer))).
Proof.
  remember (length (restante arquivo)) as n eqn:Hn.
  revert hash arquivo buffer Hn.
  induction n as [n IH] using lt_wf_ind. intros hash arquivo buffer Hn H8.
  rewrite ler_blocos_eq. cbv zeta.
  pose proof (read_consome arquivo buffer bufferSize bufferSize_pos) as Hc.
  destruct (read arquivo buffer bufferSize) as [a b]. cbn [fst snd] in *.
  destruct (good a).
  - apply (IH (length (restante a))); [subst n; auto | reflexivity |].
    apply Update_oito, H8.
  - exact H8.
Qed.

(** The digest of a sequence of bytes handed to the hash object in one
    piece, in the encoding of [calcularHash]. *)
Definition digest_de (conteudo : list byte) : string :=
  HexEncoder (Final (Update novo conteudo)).

(** A file that opens: no message, and the digest of all its bytes. *)
Lemma calcularHash_aberto (m : Mundo) (p : caminho) (conteudo : list byte) :
  abrir m p = Some conteudo ->
  calcularHash m p = (Ok (digest_de conteudo), [EvAbrir p]).
Proof.
  intros Ha. unfold calcularHash, ifstream_abrir, try_catch, bind, emitir, ret.
  rewrite Ha. cbn -[ler_blocos firstn Nat.ltb Final Update HexEncoder].
  pose proof (ler_blocos_Update novo (mkIfstream conteudo 0 true) (lixo m)) as HU.
  pose proof (ler_blocos_oito novo (mkIfstream conteudo 0 true) (lixo m) novo_oito) as H8.
  destruct (ler_blocos _ _ _) as [[h a] b]. cbn [fst restante] in *.
  assert (Hh : (if (0 <? gcount a)%nat then Update h (firstn (gcount a) b) else h)
               = Update novo conteudo).
  { destruct (0 <? gcount a)%nat eqn:Hg; [exact HU|].
    apply Nat.ltb_ge in Hg. assert (gcount a = 0) as Hz by lia.
    rewrite Hz in HU. exact HU. }
  rewrite Hh.
  assert (Hl : length (Final (Update novo conteudo)) = DIGESTSIZE).
  { apply Final_length, Update_oito, novo_oito. }
  rewrite <- Hl at 1. rewrite firstn_all. reflexivity.
Qed.

(** A file that does not open: a message on [std::cerr] and the empty
    string. *)
Lemma calcularHash_fechado (m : Mundo) (p : caminho) :
  abrir m p = None ->
  calcularHash m p = (Ok EmptyString, [EvAbrir p; Cerr (ao_abrir p)]).
Proof.
  intros Ha. unfold calcularHash, ifstream_abrir, try_catch, bind, emitir, ret.
  rewrite Ha. reflexivity.
Qed.

Lemma digest_de_length (conteudo : list byte) :
  String.length (digest_de conteudo) = 64.
Proof.
  unfold digest_de. rewrite HexEncoder_length, Final_length.
  - reflexivity.
  - apply Update_oito, novo_oito.
Qed.

Lemma digest_de_nao_vazio (conteudo : list byte) :
  digest_de conteudo <> EmptyString.
Proof.
  intros H. pose proof (digest_de_length conteudo) as Hl.
  rewrite H in Hl. discriminate Hl.
Qed.

(** [calcularHash] always returns; its value is written [hash_de]. *)
Definition hash_de (m : Mundo) (p : caminho) : string :=
  match abrir m p with
  | Some conteudo => digest_de conteudo
  | None => EmptyString
  end.

Lemma calcularHash_valor (m : Mundo) (p : caminho) :
  valor (calcularHash m p) = Ok (hash_de m p).
Proof.
  unfold hash_de. destruct (abrir m p) as [c|] eqn:Ha.
  - rewrite (calcularHash_aberto m p c Ha). reflexivity.
  - rewrite (calcularHash_fechado m p Ha). reflexivity.
Qed.

End CalcularHash.

(* ===================================================================== *)
(** ** Loops and maps *)
(* ===================================================================== *)

Section Lacos.
Context {A S : Type}.

(** A relation between the state before, the events and the state after
    that holds for no events and composes holds for a whole loop as soon as
    it holds for each turn. *)
Lemma para_cada_rel (R : S -> list evento -> S -> Prop)
    (l : list A) (corpo : S -> A -> M S) :
  (forall s, R s [] s) ->
  (forall s1 t1 s2 t2 s3, R s1 t1 s2 -> R s2 t2 s3 -> R s1 (t1 ++ t2) s3) ->
  (forall s x s' t, In x l -> corpo s x = (Ok s', t) -> R s t s') ->
  forall s s' t, para_cada l s corpo = (Ok s', t) -> R s t s'.
Proof.
  intros Hnil Happ. induction l as [|x l IH]; intros Hcorpo s s' t Hrun.
  - cbn in Hrun. injection Hrun as <- <-. apply Hnil.
  - cbn [para_cada] in Hrun. unfold bind in Hrun.
    destruct (corpo s x) as [[s1|e] t1] eqn:Hx; [|discriminate Hrun].
    destruct (para_cada l s1 corpo) as [r t2] eqn:Hl.
    injection Hrun as -> <-.
    apply (Happ s t1 s1 t2 s').
    + apply (Hcorpo s x s1 t1); [left; reflexivity | exact Hx].
    + apply IH; [|exact Hl].
      intros ? ? ? ? Hin. apply Hcorpo. right. exact Hin.
Qed.

(** The same for a property of the events alone, which then also holds of
    what a loop did before an exception left it. *)
Lemma para_cada_rastro (T : list evento -> Prop)
    (l : list A) (corpo : S -> A -> M S) :
  T [] ->
  (forall t1 t2, T t1 -> T t2 -> T (t1 ++ t2)) ->
  (forall s x, In x l -> T (rastro (corpo s x))) ->
  forall s, T (rastro (para_cada l s corpo)).
Proof.
  intros Hnil Happ. induction l as [|x l IH]; intros Hcorpo s.
  - exact Hnil.
  - cbn [para_cada]. unfold bind.
    pose proof (Hcorpo s x (or_introl eq_refl)) as Hx.
    destruct (corpo s x) as [[s1|e] t1]; cbn [rastro snd] in *; [|exact Hx].
    assert (Hl : T (rastro (para_cada l s1 corpo))).
    { apply IH. intros ? ? Hin. apply Hcorpo. right. exact Hin. }
    destruct (para_cada l s1 corpo) as [r t2]. cbn [rastro snd] in *.
    apply Happ; assumption.
Qed.

(** A loop whose turns all return does return. *)
Lemma para_cada_retorna (l : list A) (corpo : S -> A -> M S) :
  (forall s x, In x l -> exists s', valor (corpo s x) = Ok s') ->
  forall s, exists s', valor (para_cada l s corpo) = Ok s'.
Proof.
  induction l as [|x l IH]; intros Hcorpo s.
  - exists s. reflexivity.
  - cbn [para_cada]. unfold bind.
    destruct (Hcorpo s x (or_introl eq_refl)) as [s1 Hx].
    destruct (corpo s x) as [r t1]. cbn [valor fst] in Hx. subst r.
    destruct (IH (fun s0 x0 Hin => Hcorpo s0 x0 (or_intror Hin)) s1) as [s' Hl].
    destruct (para_cada l s1 corpo) as [r t2]. cbn [valor fst] in *. subst r.
    exists s'. reflexivity.
Qed.

End Lacos.

(** Facts about [m[k].push_back(p)]. *)
Section Mapa.

Definition chaves (m : unordered_map) : list string := map fst m.

Lemma push_back_em_In (k : string) (p : caminho) (m : unordered_map)
    (k' : string) (v' : list caminho) :
  In (k', v') (push_back_em k p m) ->
  In (k', v') m \/
  (k' = k /\ (v' = [p] \/ exists v, In (k, v) m /\ v' = v ++ [p])).
Proof.
  induction m as [|[k0 v0] m IH]; cbn [push_back_em]; intros H.
  - destruct H as [H|[]]. injection H as <- <-. right. auto.
  - destruct (String.eqb k0 k) eqn:E.
    + apply String.eqb_eq in E. subst k0.
      destruct H as [H|H].
      * injection H as <- <-. right. split; [reflexivity|].
        right. exists v0. split; [left|]; reflexivity.
      * left. right. exact H.
    + destruct H as [H|H].
      * left. left. exact H.
      * destruct (IH H) as [Hin|[-> [->|[v [Hin ->]]]]].
        -- left. right. exact Hin.
        -- right. auto.
        -- right. split; [reflexivity|]. right. exists v. split; [right|]; auto.
Qed.

Lemma push_back_em_chaves (k : string) (p : caminho) (m : unordered_map) (k' : string) :
  In k' (chaves (push_back_em k p m)) <-> k' = k \/ In k' (chaves m).
Proof.
  unfold chaves.
  induction m as [|[k0 v0] m IH]; cbn [push_back_em map fst In].
  - intuition.
  - destruct (String.eqb k0 k) eqn:E; cbn [map fst In].
    + apply String.eqb_eq in E. subst k0. intuition.
    + rewrite IH. intuition.
Qed.

Lemma push_back_em_NoDup (k : string) (p : caminho) (m : unordered_map) :
  NoDup (chaves m) -> NoDup (chaves (push_back_em k p m)).
Proof.
  unfold chaves.
  induction m as [|[k0 v0] m IH]; cbn [push_back_em map fst]; intros H.
  - constructor; [intros []|constructor].
  - inversion H as [|? ? Hnot Hrest]; subst.
    destruct (String.eqb k0 k) eqn:E; cbn [map fst].
    + constructor; assumption.
    + constructor; [|apply IH, Hrest].
      intros Hin. apply push_back_em_chaves in Hin.
      destruct Hin as [->|Hin]; [|exact (Hnot Hin)].
      rewrite String.eqb_refl in E. discriminate E.
Qed.

(** A property of the entries that survives a [push_back] survives the
    insertion. *)
Lemma push_back_em_Forall (P : string -> list caminho -> Prop)
    (k : string) (p : caminho) (m : unordered_map) :
  P k [p] ->
  (forall v, P k v -> P k (v ++ [p])) ->
  (forall k' v', In (k', v') m -> P k' v') ->
  forall k' v', In (k', v') (push_back_em k p m) -> P k' v'.
Proof.
  intros H1 Hs Hm k' v' Hin.
  destruct (push_back_em_In _ _ _ _ _ Hin) as [H|[-> [->|[v [H ->]]]]]; auto.
Qed.

End Mapa.

(* ===================================================================== *)
(** ** Reading the events of a run *)
(* ===================================================================== *)

Section Rastros.

Lemma rastro_bind {A B} (c : M A) (k : A -> M B) :
  rastro (bind c k) =
  rastro c ++ match valor c with Ok a => rastro (k a) | Excecao _ => [] end.
Proof.
  destruct c as [[a|e] t]; cbn [bind rastro valor fst snd].
  - destruct (k a) as [r t']. reflexivity.
  - symmetry. apply app_nil_r.
Qed.

Lemma valor_bind {A B} (c : M A) (k : A -> M B) :
  valor (bind c k) =
  match valor c with Ok a => valor (k a) | Excecao e => Excecao e end.
Proof.
  destruct c as [[a|e] t]; cbn [bind rastro valor fst snd].
  - destruct (k a) as [r t']. reflexivity.
  - reflexivity.
Qed.

(** Properties of sequences of events that hold of the empty sequence and
    of the concatenation of two sequences that have them. *)
Record fechado (T : list evento -> Prop) : Prop := mkFechado {
  fechado_nil : T [];
  fechado_app : forall t1 t2, T t1 -> T t2 -> T (t1 ++ t2)
}.

Lemma fechado_Forall (P : evento -> Prop) : fechado (Forall P).
Proof.
  split; [constructor|]. intros t1 t2 H1 H2. apply Forall_app. auto.
Qed.

Lemma fechado_bind {A B} (T : list evento -> Prop) (c : M A) (k : A -> M B) :
  fechado T ->
  T (rastro c) ->
  (forall a, valor c = Ok a -> T (rastro (k a))) ->
  T (rastro (bind c k)).
Proof.
  intros [Hnil Happ] Hc Hk. rewrite rastro_bind.
  destruct (valor c) as [a|e] eqn:Hv.
  - apply Happ; auto.
  - rewrite app_nil_r. exact Hc.
Qed.

Lemma fechado_para_cada {A S} (T : list evento -> Prop)
    (l : list A) (corpo : S -> A -> M S) (s : S) :
  fechado T ->
  (forall s x, In x l -> T (rastro (corpo s x))) ->
  T (rastro (para_cada l s corpo)).
Proof.
  intros [Hnil Happ] Hcorpo. apply para_cada_rastro; assumption.
Qed.

(** The three kinds of line of the report. *)
Definition e_cabecalho (ev : evento) : bool :=
  match ev with
  | Cout s => String.prefix "Arquivos duplicados encontrados para o nome: " s
  | _ => false
  end.

(** A path of a group: its line and the query of its size. *)
Definition e_item (ev : evento) : bool :=
  match ev with
  | Cout s => String.prefix " - " s
  | EvFileSize _ => true
  | _ => false
  end.

Definition e_estimativa (ev : evento) : bool :=
  match ev with
  | Cout s => String.prefix "Tamanho em bytes que pode ser liberado: " s
  | _ => false
  end.

(** The paths the report lists, in order: those whose size is asked. *)
Fixpoint relatados (t : list evento) : list caminho :=
  match t with
  | [] => []
  | EvFileSize p :: r => p :: relatados r
  | _ :: r => relatados r
  end.

Lemma relatados_app (t1 t2 : list evento) :
  relatados (t1 ++ t2) = relatados t1 ++ relatados t2.
Proof.
  induction t1 as [|ev t1 IH]; cbn [app relatados]; [reflexivity|].
  destruct ev; rewrite IH; reflexivity.
Qed.

Lemma relatados_In (t : list evento) (p : caminho) :
  In p (relatados t) <-> In (EvFileSize p) t.
Proof.
  induction t as [|ev t IH]; cbn [relatados In]; [tauto|].
  destruct ev; cbn [In]; rewrite IH; intuition (try discriminate; try congruence).
Qed.

(** The paths the run tried to open, in order. *)
Fixpoint abertos (t : list evento) : list caminho :=
  match t with
  | [] => []
  | EvAbrir p :: r => p :: abertos r
  | _ :: r => abertos r
  end.

(** [p1] and [p2] are listed in the same group of the report: under one
    header, with nothing but paths of the group in between. *)
Definition listados_juntos (t : list evento) (p1 p2 : caminho) : Prop :=
  exists nome antes bloco depois,
    t = antes ++ Cout (cabecalho nome) :: bloco ++ depois /\
    forallb e_item bloco = true /\
    In (EvFileSize p1) bloco /\ In (EvFileSize p2) bloco.

Lemma prefix_app (s r : string) : String.prefix s (s ++ r) = true.
Proof.
  induction s as [|a s IH]; cbn [String.append String.prefix].
  - destruct r; reflexivity.
  - destruct (ascii_dec a a) as [_|H]; [exact IH | contradiction].
Qed.

Lemma cabecalho_nao_item (nome : string) : e_item (Cout (cabecalho nome)) = false.
Proof. reflexivity. Qed.

Lemma cabecalho_e_cabecalho (nome : string) : e_cabecalho (Cout (cabecalho nome)) = true.
Proof. apply prefix_app. Qed.

Lemma item_e_item (p : caminho) : e_item (Cout (item p)) = true.
Proof. apply prefix_app. Qed.

(** Events that belong to no group. *)
Definition ruido (ev : evento) : Prop :=
  e_item ev = false /\ e_cabecalho ev = false.

(** Every block of paths that follows a header lies within one list of
    paths that has [G], and the events do not begin in the middle of a
    block. *)
Definition em_grupos (G : list caminho -> Prop) (t : list evento) : Prop :=
  (forall nome antes bloco depois,
     t = antes ++ Cout (cabecalho nome) :: bloco ++ depois ->
     forallb e_item bloco = true ->
     exists ps, G ps /\ forall p, In (EvFileSize p) bloco -> In p ps) /\
  match t with
  | [] => True
  | ev :: _ => e_item ev = false
  end.

Lemma em_grupos_fechado (G : list caminho -> Prop) : fechado (em_grupos G).
Proof.
  split.
  - split; [|exact I].
    intros nome antes bloco depois H. destruct antes; discriminate H.
  - intros t1 t2 [H1 Hh1] [H2 Hh2]. split.
    + intros nome antes bloco depois Heq Hb.
      apply app_eq_app in Heq.
      destruct Heq as [l [[-> Heq]|[-> ->]]].
      * destruct l as [|ev l].
        -- (* the header opens [t2] *)
           cbn [app] in Heq.
           apply (H2 nome [] bloco depois); [symmetry; exact Heq | exact Hb].
        -- (* the header lies in [t1] *)
           cbn [app] in Heq. injection Heq as <- Heq.
           apply app_eq_app in Heq.
           destruct Heq as [l' [[-> ->]|[-> ->]]].
           ++ (* and the block ends in [t2]: it cannot enter it *)
              rewrite forallb_app in Hb. apply andb_prop in Hb as [Hl Hl'].
              destruct l' as [|ev' l'].
              ** rewrite app_nil_r in *.
                 apply (H1 nome antes l []); [|exact Hl].
                 rewrite app_nil_r. reflexivity.
              ** cbn [app] in Hh2. cbn [forallb] in Hl'.
                 apply andb_prop in Hl' as [Hev' _]. congruence.
           ++ (* and the block ends within [t1] *)
              apply (H1 nome antes bloco l'); [|exact Hb].
              reflexivity.
      * (* the header lies in [t2] *)
        apply (H2 nome l bloco depois); [reflexivity | exact Hb].
    + destruct t1 as [|ev t1]; [exact Hh2 | exact Hh1].
Qed.

Lemma em_grupos_ruido (G : list caminho -> Prop) (t : list evento) :
  Forall ruido t -> em_grupos G t.
Proof.
  intros H. split.
  - intros nome antes bloco depois -> _.
    apply Forall_app in H as [_ H]. inversion H as [|? ? [_ Hc] _]; subst.
    rewrite cabecalho_e_cabecalho in Hc. discriminate Hc.
  - destruct H as [|ev t [Hi _] _]; [exact I | exact Hi].
Qed.

Lemma em_grupos_grupo (G : list caminho -> Prop) (nome : string)
    (ps : list caminho) (itens : list evento) :
  G ps ->
  Forall (fun ev => e_item ev = true /\ forall p, ev = EvFileSize p -> In p ps) itens ->
  em_grupos G (Cout (cabecalho nome) :: itens).
Proof.
  intros HG Hit. split; [|reflexivity].
  intros nome' antes bloco depois Heq Hb.
  destruct antes as [|ev antes].
  - cbn [app] in Heq. injection Heq as _ ->.
    exists ps. split; [exact HG|]. intros p Hin.
    rewrite Forall_forall in Hit.
    apply (Hit (EvFileSize p)); [|reflexivity].
    apply in_or_app. left. exact Hin.
  - cbn [app] in Heq. injection Heq as _ ->.
    apply Forall_app in Hit as [_ Hit].
    inversion Hit as [|? ? [Hi _] _]; subst.
    rewrite cabecalho_nao_item in Hi. discriminate Hi.
Qed.

End Rastros.

(* ===================================================================== *)
(** ** The index by name *)
(* ===================================================================== *)

Section Indice.
Variable m : Mundo.

(** One entry per name, no entry without paths, and every path filed under
    its own base name. *)
Definition bem_indexado (arquivos : unordered_map) : Prop :=
  NoDup (chaves arquivos) /\
  forall nome caminhos, In (nome, caminhos) arquivos ->
    caminhos <> [] /\ forall p, In p caminhos -> filename p = nome.

Lemma bem_indexado_push_back (p : caminho) (arquivos : unordered_map) :
  bem_indexado arquivos ->
  bem_indexado (push_back_em (filename p) p arquivos).
Proof.
  intros [Hnd Hin]. split; [apply push_back_em_NoDup, Hnd|].
  apply (push_back_em_Forall
           (fun nome caminhos => caminhos <> [] /\
                                 forall q, In q caminhos -> filename q = nome)).
  - split; [discriminate|]. intros q [<-|[]]. reflexivity.
  - intros v [_ Hv]. split.
    + intros H. apply app_eq_nil in H as [_ H]. discriminate H.
    + intros q Hq. apply in_app_or in Hq as [Hq|[<-|[]]]; auto.
  - exact Hin.
Qed.

(** What the loop of [obter_arquivos_duplicados] does with one entry. *)
Definition registrar (arquivos : unordered_map) (entrada : directory_entry)
  : M unordered_map :=
  (e_arquivo <- is_regular_file entrada ;;
   if e_arquivo
   then ret (push_back_em (filename (path entrada)) (path entrada) arquivos)
   else ret arquivos)%efeitos.

(** How the loop is left after the entries it received. *)
Definition encerrar (iterador : iteracao) (arquivos : unordered_map)
  : M unordered_map :=
  match falha iterador with
  | Some e => throw e
  | None => ret arquivos
  end.

Lemma obter_arquivos_duplicados_eq (pastaRaiz : caminho) :
  obter_arquivos_duplicados m pastaRaiz =
  bind (recursive_directory_iterator m pastaRaiz)
       (fun iterador =>
          bind (para_cada (entregues iterador) [] registrar) (encerrar iterador)).
Proof. reflexivity. Qed.

Lemma registrar_eq (arquivos : unordered_map) (entrada : directory_entry) :
  registrar arquivos entrada =
  match tipo entrada with
  | regular =>
      (Ok (push_back_em (filename (path entrada)) (path entrada) arquivos), [])
  | none => (Excecao (filesystem_error "status" (path entrada)), [])
  | directory | other => (Ok arquivos, [])
  end.
Proof. unfold registrar, is_regular_file. destruct (tipo entrada); reflexivity. Qed.

Lemma registrar_silencioso (entradas : list directory_entry) (arquivos : unordered_map) :
  rastro (para_cada entradas arquivos registrar) = [].
Proof.
  apply (fechado_para_cada (fun t => t = [])).
  - split; [reflexivity|]. intros t1 t2 -> ->. reflexivity.
  - intros s x _. rewrite registrar_eq. destruct (tipo x); reflexivity.
Qed.

(** Entries of which the status can be had. *)
Definition com_status (entradas : list directory_entry) : Prop :=
  Forall (fun entrada => tipo entrada <> none) entradas.

Lemma registrar_retorna (entradas : list directory_entry) (arquivos : unordered_map) :
  com_status entradas ->
  exists arquivos', valor (para_cada entradas arquivos registrar) = Ok arquivos'.
Proof.
  intros Hs. apply para_cada_retorna. intros s x Hin. rewrite registrar_eq.
  unfold com_status in Hs. rewrite Forall_forall in Hs. specialize (Hs x Hin).
  destruct (tipo x); try (eexists; reflexivity). contradiction.
Qed.

Lemma registrar_com_status (entradas : list directory_entry) :
  forall arquivos arquivos',
    valor (para_cada entradas arquivos registrar) = Ok arquivos' ->
    com_status entradas.
Proof.
  induction entradas as [|x l IH]; intros arquivos arquivos'; [constructor|].
  cbn [para_cada]. rewrite valor_bind, registrar_eq.
  destruct (tipo x) eqn:Hx; cbn [valor fst]; intros H;
    try (constructor; [rewrite Hx; discriminate | exact (IH _ _ H)]).
  discriminate H.
Qed.

Lemma registrar_bem_indexado (entradas : list directory_entry)
    (arquivos arquivos' : unordered_map) :
  valor (para_cada entradas arquivos registrar) = Ok arquivos' ->
  bem_indexado arquivos -> bem_indexado arquivos'.
Proof.
  destruct (para_cada entradas arquivos registrar) as [r t] eqn:Hrun.
  cbn [valor fst]. intros ->.
  revert arquivos arquivos' t Hrun.
  apply (para_cada_rel (fun s _ s' => bem_indexado s -> bem_indexado s')).
  - auto.
  - auto.
  - intros s x s' t' _. rewrite registrar_eq.
    destruct (tipo x); intros Heq; try discriminate Heq;
      injection Heq as <- _; auto.
    apply bem_indexado_push_back.
Qed.

(** The walk asks for one iterator and does nothing else. *)
Lemma obter_arquivos_duplicados_rastro (pastaRaiz : caminho) :
  rastro (obter_arquivos_duplicados m pastaRaiz) = [EvIterar pastaRaiz].
Proof.
  rewrite obter_arquivos_duplicados_eq, rastro_bind.
  assert (Hlaco : forall iterador,
            rastro (bind (para_cada (entregues iterador) [] registrar)
                         (encerrar iterador)) = []).
  { intros iterador. rewrite rastro_bind, registrar_silencioso.
    destruct (valor (para_cada (entregues iterador) [] registrar)); [|reflexivity].
    unfold encerrar. destruct (falha iterador); reflexivity. }
  unfold recursive_directory_iterator.
  destruct (resolver (arvore m) pastaRaiz) as [[| permitido filhos | |]|];
    try reflexivity.
  destruct (falha_ao_listar m pastaRaiz); cbn [emitir bind ret throw rastro valor fst snd app];
    [reflexivity|].
  rewrite Hlaco. reflexivity.
Qed.

(** The walk ran to its end: no increment failed and every status could be
    had. *)
Definition completa (iterador : iteracao) : Prop :=
  falha iterador = None /\ com_status (entregues iterador).

Lemma obter_arquivos_duplicados_completa (pastaRaiz : caminho)
    (iterador : iteracao) :
  valor (recursive_directory_iterator m pastaRaiz) = Ok iterador ->
  forall arquivos,
    valor (obter_arquivos_duplicados m pastaRaiz) = Ok arquivos <->
    (completa iterador /\
     valor (para_cada (entregues iterador) [] registrar) = Ok arquivos).
Proof.
  intros Hit arquivos.
  rewrite obter_arquivos_duplicados_eq, valor_bind, Hit, valor_bind.
  unfold completa, encerrar. split.
  - destruct (valor (para_cada (entregues iterador) [] registrar))
      as [arquivos'|e] eqn:Hl; [|discriminate].
    destruct (falha iterador); cbn [valor fst throw ret]; [discriminate|].
    intros H. injection H as ->. split; [split|]; try reflexivity.
    exact (registrar_com_status _ _ _ Hl).
  - intros [[Hf _] ->]. rewrite Hf. reflexivity.
Qed.

Lemma obter_arquivos_duplicados_bem_indexado (pastaRaiz : caminho)
    (arquivos : unordered_map) :
  valor (obter_arquivos_duplicados m pastaRaiz) = Ok arquivos ->
  bem_indexado arquivos.
Proof.
  intros Hv.
  destruct (valor (recursive_directory_iterator m pastaRaiz)) as [iterador|e] eqn:Hit.
  - apply (obter_arquivos_duplicados_completa pastaRaiz iterador Hit) in Hv.
    destruct Hv as [_ H].
    apply (registrar_bem_indexado (entregues iterador) [] arquivos H).
    split; [constructor | intros ? ? []].
  - rewrite obter_arquivos_duplicados_eq, valor_bind, Hit in Hv. discriminate Hv.
Qed.

(** An iteration that nothing ends before its time delivers all there
    is. *)
Lemma interromper_inteira (l : list directory_entry) :
  falha (interromper m l) = None -> entregues (interromper m l) = l.
Proof.
  induction l as [|x l IH]; cbn [interromper]; [reflexivity|].
  destruct (ao_incrementar m x); cbn [falha entregues]; [discriminate|].
  intros H. rewrite (IH H). reflexivity.
Qed.

Lemma interromper_sem_falha (l : list directory_entry) :
  (forall p, falha_ao_listar m p = false) ->
  interromper m l = mkIteracao l None.
Proof.
  intros Hf. induction l as [|x l IH]; cbn [interromper]; [reflexivity|].
  unfold ao_incrementar. rewrite Hf, IH.
  destruct (tipo x); reflexivity.
Qed.

(** The iterator is had exactly when the root is a directory that
    opens. *)
Lemma recursive_directory_iterator_diretorio (pastaRaiz : caminho)
    (permitido : bool) (filhos : list (string * no)) :
  resolver (arvore m) pastaRaiz = Some (Diretorio permitido filhos) ->
  falha_ao_listar m pastaRaiz = false ->
  valor (recursive_directory_iterator m pastaRaiz) =
  Ok (interromper m (descendentes pastaRaiz (Diretorio permitido filhos))).
Proof.
  intros Hr Hf. unfold recursive_directory_iterator. rewrite Hr, Hf. reflexivity.
Qed.

Lemma recursive_directory_iterator_retorna (pastaRaiz : caminho)
    (iterador : iteracao) :
  valor (recursive_directory_iterator m pastaRaiz) = Ok iterador ->
  exists permitido filhos,
    resolver (arvore m) pastaRaiz = Some (Diretorio permitido filhos) /\
    falha_ao_listar m pastaRaiz = false /\
    iterador = interromper m (descendentes pastaRaiz (Diretorio permitido filhos)).
Proof.
  unfold recursive_directory_iterator.
  destruct (resolver (arvore m) pastaRaiz) as [[| permitido filhos | |]|];
    try discriminate.
  destruct (falha_ao_listar m pastaRaiz); [discriminate|].
  cbn [emitir bind ret valor fst]. intros H. injection H as <-.
  exists permitido, filhos. auto.
Qed.

(** The walk returns when the root is a directory and nothing fails on
    the way. *)
Lemma obter_arquivos_duplicados_diretorio (pastaRaiz : caminho)
    (permitido : bool) (filhos : list (string * no)) :
  resolver (arvore m) pastaRaiz = Some (Diretorio permitido filhos) ->
  (forall p, falha_ao_listar m p = false) ->
  com_status (descendentes pastaRaiz (Diretorio permitido filhos)) ->
  exists arquivos, valor (obter_arquivos_duplicados m pastaRaiz) = Ok arquivos.
Proof.
  intros Hr Hf Hs.
  pose proof (recursive_directory_iterator_diretorio pastaRaiz permitido filhos
                Hr (Hf pastaRaiz)) as Hit.
  rewrite (interromper_sem_falha _ Hf) in Hit.
  destruct (registrar_retorna _ [] Hs) as [arquivos Hl].
  exists arquivos.
  apply (obter_arquivos_duplicados_completa pastaRaiz _ Hit).
  split; [split; [reflexivity | exact Hs] | exact Hl].
Qed.

Lemma obter_arquivos_duplicados_nao_diretorio (pastaRaiz : caminho) :
  (forall permitido filhos,
     resolver (arvore m) pastaRaiz <> Some (Diretorio permitido filhos)) ->
  valor (obter_arquivos_duplicados m pastaRaiz) =
  Excecao (filesystem_error "recursive directory iterator cannot open directory"
                            pastaRaiz).
Proof.
  intros Hr. rewrite obter_arquivos_duplicados_eq, valor_bind.
  unfold recursive_directory_iterator.
  destruct (resolver (arvore m) pastaRaiz) as [[| | |]|]; try reflexivity.
  exfalso. eapply Hr. reflexivity.
Qed.

End Indice.

(* ===================================================================== *)
(** ** The groups by digest *)
(* ===================================================================== *)

Section Grupos.
Variable m : Mundo.

(** One turn of the loop of [agrupar_por_hash]. *)
Definition incluir (hashes : unordered_map) (p : caminho) : unordered_map :=
  if negb (String.eqb (hash_de m p) EmptyString)
  then push_back_em (hash_de m p) p hashes
  else hashes.

Lemma agrupar_turno (hashes : unordered_map) (p : caminho) :
  bind (calcularHash m p)
       (fun hash => if negb (String.eqb hash EmptyString)
                    then ret (push_back_em hash p hashes)
                    else ret hashes)
  = (Ok (incluir hashes p), rastro (calcularHash m p)).
Proof.
  pose proof (calcularHash_valor m p) as Hv. unfold incluir.
  destruct (calcularHash m p) as [r t]. cbn [valor fst rastro snd] in *. subst r.
  cbn [bind]. destruct (negb _); cbn [ret]; rewrite app_nil_r; reflexivity.
Qed.

(** Events of hashing: files opened, among [caminhos], and messages on
    [std::cerr]. *)
Definition so_abre (caminhos : list caminho) (ev : evento) : Prop :=
  match ev with
  | EvAbrir p => In p caminhos
  | Cerr _ => True
  | _ => False
  end.

Lemma calcularHash_rastro (p : caminho) :
  Forall (so_abre [p]) (rastro (calcularHash m p)).
Proof.
  destruct (abrir m p) as [c|] eqn:Ha.
  - rewrite (calcularHash_aberto m p c Ha).
    repeat constructor.
  - rewrite (calcularHash_fechado m p Ha).
    repeat constructor.
Qed.

Lemma agrupar_por_hash_rastro (caminhos : list caminho) :
  Forall (so_abre caminhos) (rastro (agrupar_por_hash m caminhos)).
Proof.
  unfold agrupar_por_hash.
  apply fechado_para_cada; [apply fechado_Forall|].
  intros hashes p Hin. rewrite agrupar_turno. cbn [rastro snd].
  eapply Forall_impl; [|apply calcularHash_rastro].
  intros [] H; cbn in *; try exact H.
  destruct H as [<-|[]]. exact Hin.
Qed.

Lemma agrupar_por_hash_retorna (caminhos : list caminho) :
  exists hashes, valor (agrupar_por_hash m caminhos) = Ok hashes.
Proof.
  unfold agrupar_por_hash. apply para_cada_retorna.
  intros hashes p _. rewrite agrupar_turno. eexists. reflexivity.
Qed.

(** A group holds paths of [caminhos] whose digest was computed and is the
    key of the group. *)
Definition grupo_de (caminhos : list caminho) (h : string) (ps : list caminho) : Prop :=
  h <> EmptyString /\
  forall p, In p ps -> In p caminhos /\ hash_de m p = h.

Lemma agrupar_por_hash_grupos (caminhos : list caminho) (hashes : unordered_map) :
  valor (agrupar_por_hash m caminhos) = Ok hashes ->
  forall h ps, In (h, ps) hashes -> grupo_de caminhos h ps.
Proof.
  unfold agrupar_por_hash.
  destruct (para_cada caminhos [] _) as [r t] eqn:Hrun.
  cbn [valor fst]. intros ->.
  assert (Hvazio : forall h ps, In (h, ps) (@nil (string * list caminho)) ->
                                grupo_de caminhos h ps) by (intros ? ? []).
  revert Hvazio. revert Hrun. generalize (@nil (string * list caminho)) at 1 2.
  intros inicio Hrun. revert inicio hashes t Hrun.
  apply (para_cada_rel
           (fun s _ s' => (forall h ps, In (h, ps) s -> grupo_de caminhos h ps) ->
                          forall h ps, In (h, ps) s' -> grupo_de caminhos h ps)).
  - auto.
  - auto.
  - intros s p s' t' Hin. rewrite agrupar_turno.
    intros Heq. injection Heq as <- _. intros Hs. unfold incluir.
    destruct (String.eqb (hash_de m p) EmptyString) eqn:E; cbn [negb]; [exact Hs|].
    apply String.eqb_neq in E.
    apply (push_back_em_Forall (grupo_de caminhos)).
    + split; [exact E|]. intros q [<-|[]]. auto.
    + intros v [_ Hv]. split; [exact E|].
      intros q Hq. apply in_app_or in Hq as [Hq|[<-|[]]]; auto.
    + exact Hs.
Qed.

End Grupos.

(* ===================================================================== *)
(** ** The report *)
(* ===================================================================== *)

Section Relatorio.
Variable m : Mundo.

Local Open Scope Z_scope.

(** Events of listing the group [ps]: a line, or the size of one of its
    paths being asked. *)
Definition item_de (ps : list caminho) (ev : evento) : Prop :=
  match ev with
  | Cout s => exists p, s = item p
  | EvFileSize p => In p ps
  | _ => False
  end.

Lemma exibir_caminho_eq (v : locais) (p : caminho) :
  exibir_caminho m v p =
  (match tamanho m p with
   | Some n => Ok {| encontrouDuplicados := encontrouDuplicados v;
                     tamanhoTotalEmBytes := size_t (tamanhoTotalEmBytes v + Z.of_N n);
                     totalDuplicatas := int (totalDuplicatas v + 1) |}
   | None => Excecao (filesystem_error "cannot get file size" p)
   end,
   [Cout (item p); EvFileSize p]).
Proof.
  unfold exibir_caminho, file_size, cout, emitir, bind, ret, throw.
  destruct (tamanho m p); reflexivity.
Qed.

Lemma exibir_caminho_rastro (ps : list caminho) (v : locais) (p : caminho) :
  In p ps -> Forall (item_de ps) (rastro (exibir_caminho m v p)).
Proof.
  intros Hin. rewrite exibir_caminho_eq. cbn [rastro snd].
  repeat constructor; [eexists; reflexivity | exact Hin].
Qed.

(** A group is silent or it is a header followed by its paths. *)
Lemma exibir_grupo_rastro (nome : string) (v : locais) (ps : list caminho) :
  rastro (exibir_grupo m nome v ps) = [] \/
  exists itens,
    rastro (exibir_grupo m nome v ps) = Cout (cabecalho nome) :: itens /\
    Forall (item_de ps) itens.
Proof.
  unfold exibir_grupo. destruct (1 <? length ps)%nat; [right | left; reflexivity].
  rewrite rastro_bind. cbn [cout emitir rastro valor fst snd app].
  eexists. split; [reflexivity|].
  apply fechado_bind; [apply fechado_Forall | | intros; constructor].
  apply fechado_para_cada; [apply fechado_Forall|].
  intros s p Hin. apply exibir_caminho_rastro, Hin.
Qed.

(** The shape of everything [exibir_duplicados] does: for the names with
    two paths or more, hashing and then groups; and perhaps the line that
    says that nothing was found. *)
Lemma exibir_duplicados_forma (T : list evento -> Prop) (arquivos : unordered_map) :
  fechado T ->
  (forall nome caminhos t,
     In (nome, caminhos) arquivos -> (2 <= length caminhos)%nat ->
     Forall (so_abre caminhos) t -> T t) ->
  (forall nome caminhos h ps itens,
     In (nome, caminhos) arquivos -> (2 <= length caminhos)%nat ->
     grupo_de m caminhos h ps -> Forall (item_de ps) itens ->
     T (Cout (cabecalho nome) :: itens)) ->
  T [Cout "Nenhum arquivo duplicado encontrado."] ->
  T (rastro (exibir_duplicados m arquivos)).
Proof.
  intros HT Hhash Hgrupo Hnenhum. unfold exibir_duplicados.
  apply fechado_bind; [exact HT | |].
  - apply fechado_para_cada; [exact HT|].
    intros v [nome caminhos] Hin. unfold exibir_nome.
    apply (Permutation_in _ (ordem_permuta m arquivos)) in Hin.
    destruct (1 <? length caminhos)%nat eqn:Hl; [|apply HT].
    apply Nat.ltb_lt in Hl.
    apply fechado_bind; [exact HT | |].
    + apply (Hhash nome caminhos); [exact Hin | lia |].
      apply agrupar_por_hash_rastro.
    + intros hashes Hv.
      apply fechado_para_cada; [exact HT|].
      intros v' ps Hps. apply in_map_iff in Hps as [[h ps'] [Heq Hps]].
      cbn [snd] in Heq. subst ps'.
      apply (Permutation_in _ (ordem_permuta m hashes)) in Hps.
      destruct (exibir_grupo_rastro nome v' ps) as [->|[itens [-> Hit]]];
        [apply HT|].
      apply (Hgrupo nome caminhos h ps); [exact Hin | lia | | exact Hit].
      apply (agrupar_por_hash_grupos m caminhos hashes Hv h ps Hps).
  - intros v _. apply fechado_bind; [exact HT | | intros; apply HT].
    destruct (negb (encontrouDuplicados v)); [exact Hnenhum | apply HT].
Qed.

End Relatorio.

(* ===================================================================== *)
(** ** The two totals *)
(* ===================================================================== *)

Section Totais.
Variable m : Mundo.

Local Open Scope Z_scope.

(** The size [file_size] gave for a path. *)
Definition bytes_de (p : caminho) : Z :=
  match tamanho m p with
  | Some n => Z.of_N n
  | None => 0
  end.

(** The sum, over the integers, of the sizes of a list of paths. *)
Definition soma_bytes (ps : list caminho) : Z :=
  fold_right Z.add 0 (map bytes_de ps).

Lemma soma_bytes_app (ps qs : list caminho) :
  soma_bytes (ps ++ qs) = soma_bytes ps + soma_bytes qs.
Proof.
  unfold soma_bytes. induction ps as [|p ps IH]; cbn [app map fold_right]; lia.
Qed.


Lemma size_t_idem (a b : Z) : size_t (size_t a + b) = size_t (a + b).
Proof. unfold size_t. apply Zplus_mod_idemp_l. Qed.

Lemma size_t_size_t (a : Z) : size_t (size_t a) = size_t a.
Proof. unfold size_t. apply Zmod_mod. Qed.

Lemma int_idem (a b : Z) : int (int a + b) = int (a + b).
Proof.
  unfold int. f_equal.
  replace ((a + 2 ^ 31) mod 2 ^ 32 - 2 ^ 31 + b + 2 ^ 31)
    with ((a + 2 ^ 31) mod 2 ^ 32 + b) by ring.
  rewrite Zplus_mod_idemp_l. f_equal. ring.
Qed.

Lemma int_int (a : Z) : int (int a) = int a.
Proof.
  transitivity (int (int a + 0)); [f_equal; ring|].
  rewrite int_idem. f_equal. ring.
Qed.

Lemma size_t_pequeno (a : Z) : 0 <= a < 2 ^ 64 -> size_t a = a.
Proof. intros H. unfold size_t. apply Z.mod_small. exact H. Qed.

Lemma int_pequeno (a : Z) : - 2 ^ 31 <= a < 2 ^ 31 -> int a = a.
Proof.
  intros H. unfold int. rewrite Z.mod_small; [ring|].
  change (2 ^ 32) with (2 ^ 31 + 2 ^ 31). lia.
Qed.

(** The locals hold values of their C++ types. *)
Definition em_faixa (v : locais) : Prop :=
  size_t (tamanhoTotalEmBytes v) = tamanhoTotalEmBytes v /\
  int (totalDuplicatas v) = totalDuplicatas v.

(** What a stretch of the run that returned did to the two counters: it
    added, in the arithmetic of their types, the sizes and the number of
    the paths it listed; and [file_size] answered for each of them. *)
Definition acumulado (v : locais) (t : list evento) (v' : locais) : Prop :=
  size_t (tamanhoTotalEmBytes v')
    = size_t (tamanhoTotalEmBytes v + soma_bytes (relatados t)) /\
  int (totalDuplicatas v')
    = int (totalDuplicatas v + Z.of_nat (length (relatados t))) /\
  (em_faixa v -> em_faixa v') /\
  Forall (fun p => tamanho m p <> None) (relatados t).

Lemma acumulado_nada (v : locais) : acumulado v [] v.
Proof.
  unfold acumulado. cbn [relatados soma_bytes map fold_right List.length].
  rewrite !Z.add_0_r. auto.
Qed.

Lemma acumulado_seguido (v1 : locais) (t1 : list evento) (v2 : locais)
    (t2 : list evento) (v3 : locais) :
  acumulado v1 t1 v2 -> acumulado v2 t2 v3 -> acumulado v1 (t1 ++ t2) v3.
Proof.
  intros (Hb1 & Hc1 & Hf1 & Ht1) (Hb2 & Hc2 & Hf2 & Ht2).
  unfold acumulado. rewrite relatados_app, soma_bytes_app, length_app, Nat2Z.inj_add.
  split; [|split; [|split]].
  - rewrite Hb2, <- size_t_idem, Hb1, size_t_idem. f_equal. lia.
  - rewrite Hc2, <- int_idem, Hc1, int_idem. f_equal. lia.
  - auto.
  - apply Forall_app. auto.
Qed.

Lemma exibir_caminho_acumulado (v : locais) (p : caminho) (v' : locais)
    (t : list evento) :
  exibir_caminho m v p = (Ok v', t) -> acumulado v t v'.
Proof.
  rewrite exibir_caminho_eq. intros H.
  destruct (tamanho m p) as [n|] eqn:Hn; [|discriminate H].
  injection H as <- <-.
  unfold acumulado, em_faixa.
  cbn [relatados soma_bytes map fold_right List.length
       tamanhoTotalEmBytes totalDuplicatas].
  unfold bytes_de. rewrite Hn, !size_t_size_t, !int_int, Z.add_0_r.
  split; [reflexivity|]. split; [reflexivity|]. split; [split; reflexivity|].
  constructor; [congruence | constructor].
Qed.

Lemma exibir_grupo_acumulado (nome : string) (v : locais) (ps : list caminho)
    (v' : locais) (t : list evento) :
  exibir_grupo m nome v ps = (Ok v', t) -> acumulado v t v'.
Proof.
  unfold exibir_grupo. destruct (1 <? length ps)%nat.
  - cbn [cout emitir bind].
    destruct (para_cada ps v (exibir_caminho m)) as [[v1|e] t1] eqn:Hl;
      cbn [bind ret]; intros H; [|discriminate H].
    injection H as <- <-. rewrite app_nil_r.
    assert (H1 : acumulado v t1 v1).
    { revert Hl. apply para_cada_rel.
      - apply acumulado_nada.
      - apply acumulado_seguido.
      - intros s x s' t' _. apply exibir_caminho_acumulado. }
    destruct H1 as (Hb & Hc & Hf & Ht). unfold acumulado, em_faixa in *.
    cbn [app relatados tamanhoTotalEmBytes totalDuplicatas]. auto.
  - intros H. injection H as <- <-. apply acumulado_nada.
Qed.

Lemma exibir_nome_acumulado (v : locais) (entrada : string * list caminho)
    (v' : locais) (t : list evento) :
  exibir_nome m v entrada = (Ok v', t) -> acumulado v t v'.
Proof.
  destruct entrada as [nome caminhos]. unfold exibir_nome.
  destruct (1 <? length caminhos)%nat.
  - pose proof (agrupar_por_hash_rastro m caminhos) as Hr.
    destruct (agrupar_por_hash m caminhos) as [[hashes|e] t1]; cbn [bind];
      [|discriminate].
    destruct (para_cada (map snd (ordem m hashes)) v (exibir_grupo m nome))
      as [r t2] eqn:Hl.
    intros H. injection H as -> <-.
    apply (acumulado_seguido v t1 v t2 v').
    + cbn [rastro snd] in Hr.
      assert (Hn : relatados t1 = []).
      { clear -Hr. induction Hr as [|ev t1 Hev _ IH]; [reflexivity|].
        destruct ev; cbn in Hev; try contradiction; exact IH. }
      unfold acumulado. rewrite Hn.
      cbn [soma_bytes map fold_right List.length]. rewrite !Z.add_0_r. auto.
    + revert Hl. apply para_cada_rel.
      * apply acumulado_nada.
      * apply acumulado_seguido.
      * intros s x s' t' _. apply exibir_grupo_acumulado.
  - intros H. injection H as <- <-. apply acumulado_nada.
Qed.

(** The pair [exibir_duplicados] returns: the sum of the sizes of the
    paths it listed, reduced to a [size_t], and their number, counted in
    an [int] and converted to [size_t]. *)
Lemma exibir_duplicados_totais (arquivos : unordered_map) (bytes total : Z)
    (t : list evento) :
  exibir_duplicados m arquivos = (Ok (bytes, total), t) ->
  bytes = size_t (soma_bytes (relatados t)) /\
  total = size_t (int (Z.of_nat (length (relatados t)))) /\
  Forall (fun p => tamanho m p <> None) (relatados t).
Proof.
  unfold exibir_duplicados.
  destruct (para_cada (ordem m arquivos) _ (exibir_nome m)) as [[v|e] t1] eqn:Hl;
    cbn [bind]; [|discriminate].
  assert (H1 : acumulado (mkLocais false 0 0) t1 v).
  { revert Hl. apply para_cada_rel.
    - apply acumulado_nada.
    - apply acumulado_seguido.
    - intros s x s' t' _. apply exibir_nome_acumulado. }
  destruct H1 as (Hb & Hc & Hf & Ht).
  cbn [tamanhoTotalEmBytes totalDuplicatas] in Hb, Hc.
  destruct Hf as [Hfb Hfc]; [split; reflexivity|].
  assert (Hrel : forall t2, relatados t2 = [] -> relatados (t1 ++ t2) = relatados t1).
  { intros t2 H2. rewrite relatados_app, H2. apply app_nil_r. }
  destruct (negb (encontrouDuplicados v)); cbn; intros H; injection H as <- <- <-;
    rewrite Hrel by reflexivity; rewrite <- Hfb, <- Hfc, Hb, Hc; cbn [Z.add]; auto.
Qed.

(** With every size at hand the report runs to its end. *)
Lemma exibir_duplicados_retorna (arquivos : unordered_map) :
  (forall nome caminhos p,
     In (nome, caminhos) arquivos -> In p caminhos -> tamanho m p <> None) ->
  exists r, valor (exibir_duplicados m arquivos) = Ok r.
Proof.
  intros Ht. unfold exibir_duplicados. rewrite valor_bind.
  assert (Hl : forall v, exists v',
             valor (para_cada (ordem m arquivos) v (exibir_nome m)) = Ok v').
  { apply para_cada_retorna. intros v [nome caminhos] Hin. unfold exibir_nome.
    apply (Permutation_in _ (ordem_permuta m arquivos)) in Hin.
    destruct (1 <? length caminhos)%nat; [|eexists; reflexivity].
    rewrite valor_bind.
    destruct (agrupar_por_hash_retorna m caminhos) as [hashes Hh]. rewrite Hh.
    apply para_cada_retorna. intros v1 ps Hps. unfold exibir_grupo.
    apply in_map_iff in Hps as [[h ps'] [Heq Hps]]. cbn [snd] in Heq. subst ps'.
    apply (Permutation_in _ (ordem_permuta m hashes)) in Hps.
    destruct (agrupar_por_hash_grupos m caminhos hashes Hh h ps Hps) as [_ Hg].
    destruct (1 <? length ps)%nat; [|eexists; reflexivity].
    rewrite valor_bind. cbn [cout emitir valor fst]. rewrite valor_bind.
    assert (Hc : forall v2, exists v3,
               valor (para_cada ps v2 (exibir_caminho m)) = Ok v3).
    { apply para_cada_retorna. intros v2 p Hp. rewrite exibir_caminho_eq.
      destruct (tamanho m p) eqn:Hsz; [eexists; reflexivity|].
      exfalso. exact (Ht nome caminhos p Hin (proj1 (Hg p Hp)) Hsz). }
    destruct (Hc v1) as [v3 ->]. eexists. reflexivity. }
  destruct (Hl (mkLocais false 0 0)) as [v' ->].
  rewrite valor_bind. destruct (negb (encontrouDuplicados v')); eexists; reflexivity.
Qed.

End Totais.

(* ===================================================================== *)
(** ** A whole run *)
(* ===================================================================== *)

Section Execucao.
Variable m : Mundo.

Local Open Scope Z_scope.

(** Up to the test of the root folder. *)
Definition preambulo (pastaRaiz : caminho) : list evento :=
  [Cout "Localizar duplicatas!"; Cout "Informe pasta raiz: "; EvExists pastaRaiz].

(** The last line, if any. *)
Definition linha_final (bytes total : Z) : list evento :=
  if total =? 0 then []
  else [Cout (estimativa (size_t (bytes - bytes / total)))].

(** The paths of [main], one by one. *)
Lemma main_eq (pastaRaiz : caminho) :
  main m pastaRaiz =
  match status (arvore m) pastaRaiz with
  | Erro _ => (Excecao (filesystem_error "status" pastaRaiz), preambulo pastaRaiz)
  | NaoAchou => (Ok (-1), preambulo pastaRaiz ++ [Cout "Pasta raiz não existe."])
  | Achou _ =>
      match obter_arquivos_duplicados m pastaRaiz with
      | (Excecao e, t1) => (Excecao e, preambulo pastaRaiz ++ t1)
      | (Ok arquivos, t1) =>
          match exibir_duplicados m arquivos with
          | (Excecao e, t2) => (Excecao e, preambulo pastaRaiz ++ t1 ++ t2)
          | (Ok (bytes, total), t2) =>
              (Ok 0, preambulo pastaRaiz ++ t1 ++ t2 ++ linha_final bytes total)
          end
      end
  end.
Proof.
  unfold main, fs_exists, cout, emitir. cbn [bind ret app].
  destruct (status (arvore m) pastaRaiz) as [n| |motivo];
    cbn [negb bind ret throw app]; try reflexivity.
  destruct (obter_arquivos_duplicados m pastaRaiz) as [[arquivos|e] t1];
    cbn [bind]; [|reflexivity].
  destruct (exibir_duplicados m arquivos) as [[[bytes total]|e] t2];
    cbn [bind]; [|reflexivity].
  unfold linha_final.
  destruct (total =? 0); cbn [negb bind ret app];
    rewrite ?app_nil_r; reflexivity.
Qed.

(** A property of sequences of events that holds of each part of a run
    holds of the run. *)
Lemma main_forma (T : list evento -> Prop) (pastaRaiz : caminho) :
  fechado T ->
  T (preambulo pastaRaiz) ->
  T [Cout "Pasta raiz não existe."] ->
  T [EvIterar pastaRaiz] ->
  (forall arquivos,
     valor (obter_arquivos_duplicados m pastaRaiz) = Ok arquivos ->
     T (rastro (exibir_duplicados m arquivos))) ->
  (forall bytes, T [Cout (estimativa bytes)]) ->
  T (rastro (main m pastaRaiz)).
Proof.
  intros [Hnil Happ] Hpre Hnao Hit Hex Hest. rewrite main_eq.
  destruct (status (arvore m) pastaRaiz) as [n| |motivo];
    [|apply Happ; assumption | exact Hpre].
  pose proof (obter_arquivos_duplicados_rastro m pastaRaiz) as Ht1.
  destruct (obter_arquivos_duplicados m pastaRaiz) as [[arquivos|e] t1];
    cbn [rastro snd] in Ht1; subst t1; [|apply Happ; assumption].
  specialize (Hex arquivos eq_refl).
  destruct (exibir_duplicados m arquivos) as [[[bytes total]|e] t2];
    cbn [rastro snd] in *.
  - apply Happ; [assumption|]. apply Happ; [assumption|].
    apply Happ; [assumption|]. unfold linha_final.
    destruct (total =? 0); [apply Hnil | apply Hest].
  - apply Happ; [assumption|]. apply Happ; assumption.
Qed.

(** What can be said of each event of a report over [arquivos]: a file is
    opened only if its name has two paths or more, and a size is asked only
    of such a file whose digest was computed. *)
Definition evento_do_relatorio (arquivos : unordered_map) (ev : evento) : Prop :=
  match ev with
  | EvAbrir p =>
      exists nome caminhos,
        In (nome, caminhos) arquivos /\ In p caminhos /\ (2 <= length caminhos)%nat
  | EvFileSize p =>
      hash_de m p <> EmptyString /\
      exists nome caminhos,
        In (nome, caminhos) arquivos /\ In p caminhos /\ (2 <= length caminhos)%nat
  | Cout s => e_estimativa (Cout s) = false
  | Cerr _ => True
  | EvExists _ | EvIterar _ => False
  end.

Lemma exibir_duplicados_eventos (arquivos : unordered_map) :
  Forall (evento_do_relatorio arquivos) (rastro (exibir_duplicados m arquivos)).
Proof.
  apply exibir_duplicados_forma.
  - apply fechado_Forall.
  - intros nome caminhos t Hin Hl Ht.
    eapply Forall_impl; [|exact Ht].
    intros [] H; cbn in *; try contradiction; auto.
    exists nome, caminhos. auto.
  - intros nome caminhos h ps itens Hin Hl [Hh Hps] Hit.
    constructor; [reflexivity|].
    eapply Forall_impl; [|exact Hit].
    intros [] H; cbn in *; try contradiction.
    + destruct H as [p ->]. reflexivity.
    + destruct (Hps p H) as [Hp Hhash]. split; [congruence|].
      exists nome, caminhos. auto.
  - repeat constructor.
Qed.

(** The lists of paths that may make a group of the report: paths of one
    base name, all with one digest, which was computed. *)
Definition iguais (ps : list caminho) : Prop :=
  exists nome h,
    h <> EmptyString /\
    forall p, In p ps -> filename p = nome /\ hash_de m p = h.

Lemma exibir_duplicados_em_grupos (arquivos : unordered_map) :
  bem_indexado arquivos ->
  em_grupos iguais (rastro (exibir_duplicados m arquivos)).
Proof.
  intros [_ Hnomes]. apply exibir_duplicados_forma.
  - apply em_grupos_fechado.
  - intros nome caminhos t _ _ Ht. apply em_grupos_ruido.
    eapply Forall_impl; [|exact Ht].
    intros [] H; cbn in *; try contradiction; split; reflexivity.
  - intros nome caminhos h ps itens Hin _ [Hh Hps] Hit.
    apply (em_grupos_grupo iguais nome ps).
    + exists nome, h. split; [exact Hh|]. intros p Hp.
      destruct (Hps p Hp) as [Hc Hhash]. split; [|exact Hhash].
      apply (proj2 (Hnomes nome caminhos Hin)), Hc.
    + eapply Forall_impl; [|exact Hit].
      intros [] H; cbn in H; try contradiction.
      * destruct H as [p ->]. split; [apply item_e_item | discriminate].
      * split; [reflexivity|]. intros q Hq. injection Hq as <-. exact H.
  - apply em_grupos_ruido. repeat constructor.
Qed.

Lemma main_em_grupos (pastaRaiz : caminho) :
  em_grupos iguais (rastro (main m pastaRaiz)).
Proof.
  apply main_forma.
  - apply em_grupos_fechado.
  - apply em_grupos_ruido. repeat constructor.
  - apply em_grupos_ruido. repeat constructor.
  - apply em_grupos_ruido. repeat constructor.
  - intros arquivos Hv. apply exibir_duplicados_em_grupos.
    apply (obter_arquivos_duplicados_bem_indexado m pastaRaiz), Hv.
  - intros bytes. apply em_grupos_ruido. repeat constructor.
Qed.

(** Paths listed together were found equal. *)
Lemma listados_juntos_iguais (pastaRaiz : caminho) (p1 p2 : caminho) :
  listados_juntos (rastro (main m pastaRaiz)) p1 p2 ->
  exists ps, iguais ps /\ In p1 ps /\ In p2 ps.
Proof.
  intros (nome & antes & bloco & depois & Heq & Hb & H1 & H2).
  destruct (main_em_grupos pastaRaiz) as [Hg _].
  destruct (Hg nome antes bloco depois Heq Hb) as [ps [Hps Hin]].
  exists ps. auto.
Qed.

End Execucao.

(* ===================================================================== *)
(** ** Small trees to run the program on *)
(* ===================================================================== *)

Definition hello : list byte := list_byte_of_string "hello".
Definition world : list byte := list_byte_of_string "world".

Definition pasta (filhos : list (string * no)) : no := Diretorio true filhos.
Definition arquivo_com (conteudo : list byte) : no := Regular true conteudo.

(** [a/x.txt] and [b/x.txt], both "hello". *)
Definition cenarioA : no :=
  pasta [("a", pasta [("x.txt", arquivo_com hello)]);
         ("b", pasta [("x.txt", arquivo_com hello)])]%string.

(** [a/x.txt] is "hello", [b/x.txt] is "world". *)
Definition cenarioB : no :=
  pasta [("a", pasta [("x.txt", arquivo_com hello)]);
         ("b", pasta [("x.txt", arquivo_com world)])]%string.

(** [a/x.txt] and [b/y.txt], both "hello". *)
Definition cenarioC : no :=
  pasta [("a", pasta [("x.txt", arquivo_com hello)]);
         ("b", pasta [("y.txt", arquivo_com hello)])]%string.

(** An empty root. *)
Definition cenarioE : no := pasta [].

(** [a/x.txt] and [b/x.txt] that cannot be opened, and [c/x.txt]. *)
Definition cenarioF : no :=
  pasta [("a", pasta [("x.txt", Regular false hello)]);
         ("b", pasta [("x.txt", Regular false world)]);
         ("c", pasta [("x.txt", arquivo_com hello)])]%string.

(** A directory without permissions, with a file in it. *)
Definition fechada : no :=
  pasta [("fechada", Diretorio false [("x.txt", arquivo_com hello)])]%string.

(** Scenario A, and a symbolic link that leads to itself. *)
Definition com_laco : no :=
  pasta [("a", pasta [("x.txt", arquivo_com hello)]);
         ("b", pasta [("x.txt", arquivo_com hello)]);
         ("laco", Laco)]%string.

(** The root the scenarios are run on: the directory in which the program
    runs, as the user names it. *)
Definition raiz : caminho := ["."]%string.

Definition a_x : caminho := ["."; "a"; "x.txt"]%string.
Definition b_x : caminho := ["."; "b"; "x.txt"]%string.
Definition a_y : caminho := ["."; "a"; "y.txt"]%string.
Definition b_y : caminho := ["."; "b"; "y.txt"]%string.

(** Scenario A, but [b/x.txt] is removed after it was hashed and before its
    size is asked. *)
Definition some_depois : Mundo :=
  {| arvore := cenarioA;
     falha_ao_listar := fun _ => false;
     abrir := abrir (estavel cenarioA);
     tamanho := fun p => if list_eq_dec string_dec p b_x then None
                         else tamanho (estavel cenarioA) p;
     lixo := [];
     ordem := ordem_de_insercao;
     ordem_permuta := ordem_de_insercao_permuta |}.

(** [a/x.txt], [b/x.txt] with "hello" and [a/y.txt], [b/y.txt] with
    "world", in a world that enumerates its maps last entry first. *)
Definition cenarioG : no :=
  pasta [("a", pasta [("x.txt", arquivo_com hello); ("y.txt", arquivo_com world)]);
         ("b", pasta [("x.txt", arquivo_com hello); ("y.txt", arquivo_com world)])]%string.

Definition ao_contrario (entradas : unordered_map) : unordered_map := rev entradas.

Lemma ao_contrario_permuta (entradas : unordered_map) :
  Permutation (ao_contrario entradas) entradas.
Proof. apply Permutation_sym, Permutation_rev. Qed.

Definition mundo_ao_contrario : Mundo :=
  {| arvore := cenarioG;
     falha_ao_listar := fun _ => false;
     abrir := abrir (estavel cenarioG);
     tamanho := tamanho (estavel cenarioG);
     lixo := [];
     ordem := ao_contrario;
     ordem_permuta := ao_contrario_permuta |}.

(** A file of two full buffers and five bytes more, read into a buffer
    that held something else. *)
Definition grande : list byte := repeat "a"%byte (2 * bufferSize + 5).

Definition mundo_grande (sujeira : list byte) : Mundo :=
  {| arvore := pasta [("g", arquivo_com grande)]%string;
     falha_ao_listar := fun _ => false;
     abrir := fun _ => Some grande;
     tamanho := fun _ => Some (N.of_nat (length grande));
     lixo := sujeira;
     ordem := ordem_de_insercao;
     ordem_permuta := ordem_de_insercao_permuta |}.

(* ===================================================================== *)
(** ** The scenarios of the specification *)
(* ===================================================================== *)

Example cenario_A :
  executar (estavel cenarioA) raiz =
  (Saida 0,
   [Cout "Localizar duplicatas!"; Cout "Informe pasta raiz: ";
    EvExists raiz; EvIterar raiz; EvAbrir a_x; EvAbrir b_x;
    Cout "Arquivos duplicados encontrados para o nome: x.txt";
    Cout " - ./a/x.txt"; EvFileSize a_x;
    Cout " - ./b/x.txt"; EvFileSize b_x;
    Cout "Tamanho em bytes que pode ser liberado: 5 bytes"]).
Proof. vm_compute. reflexivity. Qed.

Example cenario_B :
  executar (estavel cenarioB) raiz =
  (Saida 0,
   [Cout "Localizar duplicatas!"; Cout "Informe pasta raiz: ";
    EvExists raiz; EvIterar raiz; EvAbrir a_x; EvAbrir b_x;
    Cout "Nenhum arquivo duplicado encontrado."]).
Proof. vm_compute. reflexivity. Qed.

Example cenario_C :
  executar (estavel cenarioC) raiz =
  (Saida 0,
   [Cout "Localizar duplicatas!"; Cout "Informe pasta raiz: ";
    EvExists raiz; EvIterar raiz;
    Cout "Nenhum arquivo duplicado encontrado."]).
Proof. vm_compute. reflexivity. Qed.

Example cenario_D :
  executar (estavel cenarioA) ["nada"%string] =
  (Saida (-1),
   [Cout "Localizar duplicatas!"; Cout "Informe pasta raiz: ";
    EvExists ["nada"%string]; Cout "Pasta raiz não existe."]).
Proof. vm_compute. reflexivity. Qed.

Example cenario_E :
  executar (estavel cenarioE) raiz =
  (Saida 0,
   [Cout "Localizar duplicatas!"; Cout "Informe pasta raiz: ";
    EvExists raiz; EvIterar raiz;
    Cout "Nenhum arquivo duplicado encontrado."]).
Proof. vm_compute. reflexivity. Qed.

(** Two groups, the second name first; 20 bytes in 4 files. *)
Example cenario_G :
  executar mundo_ao_contrario raiz =
  (Saida 0,
   [Cout "Localizar duplicatas!"; Cout "Informe pasta raiz: ";
    EvExists raiz; EvIterar raiz;
    EvAbrir a_y; EvAbrir b_y;
    Cout "Arquivos duplicados encontrados para o nome: y.txt";
    Cout " - ./a/y.txt"; EvFileSize a_y;
    Cout " - ./b/y.txt"; EvFileSize b_y;
    EvAbrir a_x; EvAbrir b_x;
    Cout "Arquivos duplicados encontrados para o nome: x.txt";
    Cout " - ./a/x.txt"; EvFileSize a_x;
    Cout " - ./b/x.txt"; EvFileSize b_x;
    Cout "Tamanho em bytes que pode ser liberado: 15 bytes"]).
Proof. vm_compute. reflexivity. Qed.

(** Two files of one name that cannot be opened are not a group. *)
Example cenario_F :
  executar (estavel cenarioF) raiz =
  (Saida 0,
   [Cout "Localizar duplicatas!"; Cout "Informe pasta raiz: ";
    EvExists raiz; EvIterar raiz;
    EvAbrir a_x; Cerr "Não foi possível abrir o arquivo ./a/x.txt para leitura.";
    EvAbrir b_x; Cerr "Não foi possível abrir o arquivo ./b/x.txt para leitura.";
    EvAbrir ["."; "c"; "x.txt"]%string;
    Cout "Nenhum arquivo duplicado encontrado."]).
Proof. vm_compute. reflexivity. Qed.

(** The empty line names no root. *)
Example raiz_vazia :
  executar (estavel cenarioA) [] =
  (Saida (-1),
   [Cout "Localizar duplicatas!"; Cout "Informe pasta raiz: ";
    EvExists []; Cout "Pasta raiz não existe."]).
Proof. vm_compute. reflexivity. Qed.

(** A root that is a directory without permissions is scanned and found
    empty; of a root below it nothing can be known. *)
Example raiz_fechada :
  executar (estavel fechada) ["fechada"%string] =
  (Saida 0,
   [Cout "Localizar duplicatas!"; Cout "Informe pasta raiz: ";
    EvExists ["fechada"%string]; EvIterar ["fechada"%string];
    Cout "Nenhum arquivo duplicado encontrado."]) /\
  executar (estavel fechada) ["fechada"; "x.txt"]%string =
  (Abortado (filesystem_error "status" ["fechada"; "x.txt"]%string),
   [Cout "Localizar duplicatas!"; Cout "Informe pasta raiz: ";
    EvExists ["fechada"; "x.txt"]%string]).
Proof. split; vm_compute; reflexivity. Qed.

(** A link that leads to itself, met by the walk after the two files. *)
Example raiz_com_laco :
  executar (estavel com_laco) raiz =
  (Abortado (filesystem_error "status" ["."; "laco"]%string),
   [Cout "Localizar duplicatas!"; Cout "Informe pasta raiz: ";
    EvExists raiz; EvIterar raiz]).
Proof. vm_compute. reflexivity. Qed.

(** The parent of a directory, named from inside it. *)
Example raiz_pelo_pai :
  resolver cenarioA ["a"; ".."; "b"; "x.txt"]%string = Some (arquivo_com hello) /\
  resolver cenarioA ["a"; "x.txt"; ".."]%string = None.
Proof. split; reflexivity. Qed.

(* ===================================================================== *)
(** ** The digest engine *)
(* ===================================================================== *)

(** The digests of the standard's examples. *)
Example sha256_abc :
  Sha256.HexEncoder (Sha256.sha256 (list_byte_of_string "abc")) =
  "BA7816BF8F01CFEA414140DE5DAE2223B00361A396177A9CB410FF61F20015AD"%string.
Proof. vm_compute. reflexivity. Qed.

Example sha256_dois_blocos :
  Sha256.HexEncoder
    (Sha256.sha256
       (list_byte_of_string
          "abcdbcdecdefdefgefghfghighijhijkijkljklmklmnlmnomnopnopq")) =
  "248D6A61D20638B8E5C026930C3E6039A33CE45964FF2167F6ECEDD419DB06C1"%string.
Proof. vm_compute. reflexivity. Qed.

(** The loop over buffers, on a file longer than two of them. *)
Example calcularHash_grande :
  calcularHash (mundo_grande hello) ["g"%string] =
  (Ok "C05962DA8E9A7066063E198B3B54D43E93637ABD408EF5D0A2F097C1BAD1BB35"%string,
   [EvAbrir ["g"%string]]).
Proof. vm_compute. reflexivity. Qed.

(** C3. The digest is a function of the bytes of the file and of nothing
    else: two files with the same bytes get the same digest, whatever
    their paths, whatever the buffer held before, and so do two calls on
    an unchanged file; and reading the file buffer by buffer, with a last
    partial buffer, gives the digest of all the bytes handed to the hash
    object in one piece, which is the SHA-256 digest of the whole
    content. *)
Theorem calcularHash_funcao_do_conteudo
    (m1 m2 : Mundo) (f1 f2 : caminho) (conteudo : list byte) :
  abrir m1 f1 = Some conteudo ->
  abrir m2 f2 = Some conteudo ->
  valor (calcularHash m1 f1) = valor (calcularHash m2 f2) /\
  valor (calcularHash m1 f1) =
    Ok (Sha256.HexEncoder (Sha256.Final (Sha256.Update Sha256.novo conteudo))) /\
  valor (calcularHash m1 f1) = Ok (Sha256.HexEncoder (Sha256.sha256 conteudo)).
Proof.
  intros H1 H2.
  rewrite (calcularHash_aberto m1 f1 conteudo H1).
  rewrite (calcularHash_aberto m2 f2 conteudo H2).
  unfold digest_de. rewrite Sha256Fatos.Final_Update_sha256.
  split; [|split]; reflexivity.
Qed.

Lemma calcularHash_funcao_do_conteudo_witness :
  valor (calcularHash (mundo_grande []) ["g"%string])
    = valor (calcularHash (mundo_grande hello) ["outro"%string]) /\
  valor (calcularHash (mundo_grande []) ["g"%string])
    = Ok (Sha256.HexEncoder (Sha256.Final (Sha256.Update Sha256.novo grande))) /\
  valor (calcularHash (mundo_grande []) ["g"%string])
    = Ok (Sha256.HexEncoder (Sha256.sha256 grande)).
Proof.
  apply (calcularHash_funcao_do_conteudo
           (mundo_grande []) (mundo_grande hello)
           ["g"%string] ["outro"%string] grande); reflexivity.
Defined.

(** C9. A file with no bytes that opens is hashed like any other: the
    result is the SHA-256 digest of the empty sequence, and it differs from
    what a file that does not open gives. *)
Theorem calcularHash_arquivo_vazio (m : Mundo) (p : caminho) :
  abrir m p = Some [] ->
  calcularHash m p =
    (Ok "E3B0C44298FC1C149AFBF4C8996FB92427AE41E4649B934CA495991B7852B855"%string,
     [EvAbrir p]) /\
  forall m' p', abrir m' p' = None ->
    valor (calcularHash m' p') = Ok EmptyString /\
    valor (calcularHash m' p') <> valor (calcularHash m p).
Proof.
  intros Ha. rewrite (calcularHash_aberto m p [] Ha).
  split; [vm_compute; reflexivity|].
  intros m' p' Hn. rewrite (calcularHash_fechado m' p' Hn).
  split; [reflexivity|]. cbn [valor fst]. intros H.
  apply (digest_de_nao_vazio []). symmetry.
  exact (f_equal (fun r => match r with Ok s => s | Excecao _ => EmptyString end) H).
Qed.

Lemma calcularHash_arquivo_vazio_witness :
  calcularHash (estavel (pasta [("v", arquivo_com [])]%string)) ["v"%string] =
    (Ok "E3B0C44298FC1C149AFBF4C8996FB92427AE41E4649B934CA495991B7852B855"%string,
     [EvAbrir ["v"%string]]).
Proof.
  apply (proj1 (calcularHash_arquivo_vazio
                  (estavel (pasta [("v", arquivo_com [])]%string)) ["v"%string]
                  eq_refl)).
Defined.

(** C10. Whatever [calcularHash] returns is either the empty string, and
    then the file did not open, or a string of exactly 64 hexadecimal
    digits, and then it did: the two kinds of result never coincide. *)
Theorem calcularHash_sucesso_ou_falha (m : Mundo) (p : caminho) (h : string) :
  valor (calcularHash m p) = Ok h ->
  (abrir m p = None /\ h = EmptyString) \/
  (abrir m p <> None /\
   String.length h = 64 /\
   forallb Sha256Fatos.e_hex (list_ascii_of_string h) = true /\
   h <> EmptyString).
Proof.
  destruct (abrir m p) as [c|] eqn:Ha.
  - rewrite (calcularHash_aberto m p c Ha). cbn [valor fst].
    intros H. injection H as <-. right.
    split; [discriminate|]. split; [apply digest_de_length|].
    split; [apply Sha256Fatos.HexEncoder_hex | apply digest_de_nao_vazio].
  - rewrite (calcularHash_fechado m p Ha). cbn [valor fst].
    intros H. injection H as <-. left. split; reflexivity.
Qed.

Lemma calcularHash_sucesso_ou_falha_witness :
  (abrir (estavel cenarioA) a_x = None /\
   "2CF24DBA5FB0A30E26E83B2AC5B9E29E1B161E5C1FA7425E73043362938B9824"%string
     = EmptyString) \/
  (abrir (estavel cenarioA) a_x <> None /\
   String.length "2CF24DBA5FB0A30E26E83B2AC5B9E29E1B161E5C1FA7425E73043362938B9824" = 64 /\
   forallb Sha256Fatos.e_hex
     (list_ascii_of_string
        "2CF24DBA5FB0A30E26E83B2AC5B9E29E1B161E5C1FA7425E73043362938B9824") = true /\
   "2CF24DBA5FB0A30E26E83B2AC5B9E29E1B161E5C1FA7425E73043362938B9824"%string
     <> EmptyString).
Proof.
  apply (calcularHash_sucesso_ou_falha (estavel cenarioA) a_x).
  vm_compute. reflexivity.
Defined.

(* ===================================================================== *)
(** ** The scanner *)
(* ===================================================================== *)

Lemma chave_unica (arquivos : unordered_map) (k : string) (v1 v2 : list caminho) :
  NoDup (chaves arquivos) ->
  In (k, v1) arquivos -> In (k, v2) arquivos -> v1 = v2.
Proof.
  unfold chaves. induction arquivos as [|[k0 v0] l IH]; cbn [map fst In];
    intros Hnd H1 H2; [contradiction|].
  inversion Hnd as [|? ? Hnot Hrest]; subst.
  assert (Hfora : forall v, In (k0, v) l -> False).
  { intros v Hin. apply Hnot. apply in_map_iff. exists (k0, v). auto. }
  destruct H1 as [H1|H1], H2 as [H2|H2].
  - congruence.
  - injection H1 as -> ->. destruct (Hfora _ H2).
  - injection H2 as -> ->. destruct (Hfora _ H1).
  - apply IH; assumption.
Qed.

(** C1. Paths put in one group by digest, and so listed together in the
    report, have the same base name and the same digest, which was
    computed; hence two files with the same bytes and different base names
    are never listed together. *)
Theorem grupo_mesmo_nome_e_digest (m : Mundo) (pastaRaiz : caminho) :
  (forall arquivos nome caminhos hashes h ps p1 p2,
     valor (obter_arquivos_duplicados m pastaRaiz) = Ok arquivos ->
     In (nome, caminhos) arquivos ->
     valor (agrupar_por_hash m caminhos) = Ok hashes ->
     In (h, ps) hashes -> In p1 ps -> In p2 ps ->
     (filename p1 = nome /\ filename p2 = nome) /\
     (valor (calcularHash m p1) = Ok h /\ valor (calcularHash m p2) = Ok h) /\
     h <> EmptyString) /\
  (forall p1 p2,
     listados_juntos (rastro (main m pastaRaiz)) p1 p2 ->
     filename p1 = filename p2 /\
     valor (calcularHash m p1) = valor (calcularHash m p2)) /\
  (forall p1 p2 conteudo,
     abrir m p1 = Some conteudo -> abrir m p2 = Some conteudo ->
     filename p1 <> filename p2 ->
     ~ listados_juntos (rastro (main m pastaRaiz)) p1 p2).
Proof.
  assert (Hjuntos : forall p1 p2,
            listados_juntos (rastro (main m pastaRaiz)) p1 p2 ->
            filename p1 = filename p2 /\
            valor (calcularHash m p1) = valor (calcularHash m p2)).
  { intros p1 p2 H.
    destruct (listados_juntos_iguais m pastaRaiz p1 p2 H)
      as (ps & (nome & h & _ & Hps) & H1 & H2).
    destruct (Hps p1 H1) as [Hn1 Hh1]. destruct (Hps p2 H2) as [Hn2 Hh2].
    rewrite !calcularHash_valor. split; congruence. }
  split; [|split; [exact Hjuntos|]].
  - intros arquivos nome caminhos hashes h ps p1 p2 Hv Hin Hh Hg H1 H2.
    destruct (obter_arquivos_duplicados_bem_indexado m pastaRaiz arquivos Hv)
      as [_ Hnomes].
    destruct (Hnomes nome caminhos Hin) as [_ Hnome].
    destruct (agrupar_por_hash_grupos m caminhos hashes Hh h ps Hg) as [Hne Hps].
    destruct (Hps p1 H1) as [Hc1 Hh1]. destruct (Hps p2 H2) as [Hc2 Hh2].
    rewrite !calcularHash_valor, Hh1, Hh2. auto.
  - intros p1 p2 conteudo _ _ Hdif H.
    apply Hdif. apply (Hjuntos p1 p2 H).
Qed.

Lemma grupo_mesmo_nome_e_digest_witness :
  (filename a_x = filename b_x /\
   valor (calcularHash (estavel cenarioA) a_x)
     = valor (calcularHash (estavel cenarioA) b_x)) /\
  ~ listados_juntos (rastro (main (estavel cenarioC) raiz)) a_x b_y.
Proof.
  split.
  - apply (proj1 (proj2 (grupo_mesmo_nome_e_digest (estavel cenarioA) raiz))).
    exists "x.txt"%string.
    exists [Cout "Localizar duplicatas!"; Cout "Informe pasta raiz: ";
            EvExists raiz; EvIterar raiz; EvAbrir a_x; EvAbrir b_x].
    exists [Cout " - ./a/x.txt"; EvFileSize a_x; Cout " - ./b/x.txt"; EvFileSize b_x].
    exists [Cout "Tamanho em bytes que pode ser liberado: 5 bytes"].
    split; [vm_compute; reflexivity|].
    split; [reflexivity|].
    split; [right; left; reflexivity | right; right; right; left; reflexivity].
  - apply (proj2 (proj2 (grupo_mesmo_nome_e_digest (estavel cenarioC) raiz))
             a_x b_y hello).
    + reflexivity.
    + reflexivity.
    + discriminate.
Defined.

(** C4. A file whose base name no other file has is never opened for
    hashing: every file the run opens belongs to a name with two paths or
    more. *)
Theorem nome_unico_sem_hash (m : Mundo) (pastaRaiz : caminho)
    (arquivos : unordered_map) :
  valor (obter_arquivos_duplicados m pastaRaiz) = Ok arquivos ->
  (forall nome p, In (nome, [p]) arquivos ->
     ~ In (EvAbrir p) (rastro (main m pastaRaiz)) /\
     ~ In (EvAbrir p) (rastro (exibir_duplicados m arquivos))) /\
  (forall p, In (EvAbrir p) (rastro (main m pastaRaiz)) ->
     exists nome caminhos,
       In (nome, caminhos) arquivos /\ In p caminhos /\ 2 <= length caminhos).
Proof.
  intros Hv.
  pose proof (obter_arquivos_duplicados_bem_indexado m pastaRaiz arquivos Hv)
    as [Hnd Hnomes].
  assert (Hex : forall p, In (EvAbrir p) (rastro (exibir_duplicados m arquivos)) ->
            exists nome caminhos,
              In (nome, caminhos) arquivos /\ In p caminhos /\ 2 <= length caminhos).
  { intros p Hin.
    pose proof (exibir_duplicados_eventos m arquivos) as Hev.
    rewrite Forall_forall in Hev. exact (Hev _ Hin). }
  assert (Hmain : forall p, In (EvAbrir p) (rastro (main m pastaRaiz)) ->
            In (EvAbrir p) (rastro (exibir_duplicados m arquivos))).
  { intros p.
    assert (HT : Forall (fun ev => forall q, ev = EvAbrir q ->
                   In (EvAbrir q) (rastro (exibir_duplicados m arquivos)))
                   (rastro (main m pastaRaiz))).
    { apply main_forma.
      - apply fechado_Forall.
      - repeat constructor; discriminate.
      - repeat constructor; discriminate.
      - repeat constructor; discriminate.
      - intros arquivos' Hv'. rewrite Hv in Hv'. injection Hv' as <-.
        apply Forall_forall. intros ev Hin q ->. exact Hin.
      - intros bytes. repeat constructor; discriminate. }
    intros Hin. rewrite Forall_forall in HT. exact (HT _ Hin p eq_refl). }
  assert (Hunico : forall nome p, In (nome, [p]) arquivos ->
            ~ In (EvAbrir p) (rastro (exibir_duplicados m arquivos))).
  { intros nome p Hin Hab.
    destruct (Hex p Hab) as (nome' & caminhos & Hin' & Hp & Hl).
    destruct (Hnomes nome [p] Hin) as [_ Hn].
    destruct (Hnomes nome' caminhos Hin') as [_ Hn'].
    assert (nome' = nome) as ->.
    { rewrite <- (Hn p (or_introl eq_refl)). symmetry. apply Hn', Hp. }
    rewrite (chave_unica arquivos nome caminhos [p] Hnd Hin' Hin) in Hl.
    cbn in Hl. lia. }
  split.
  - intros nome p Hin. split; [|exact (Hunico nome p Hin)].
    intros Hab. exact (Hunico nome p Hin (Hmain p Hab)).
  - intros p Hab. exact (Hex p (Hmain p Hab)).
Qed.

Lemma nome_unico_sem_hash_witness :
  ~ In (EvAbrir a_x) (rastro (main (estavel cenarioC) raiz)) /\
  ~ In (EvAbrir a_x)
       (rastro (exibir_duplicados (estavel cenarioC)
                  [("x.txt"%string, [a_x]); ("y.txt"%string, [b_y])])).
Proof.
  apply (proj1 (nome_unico_sem_hash (estavel cenarioC) raiz
                  [("x.txt"%string, [a_x]); ("y.txt"%string, [b_y])]
                  eq_refl) "x.txt"%string a_x).
  left. reflexivity.
Defined.



(* ===================================================================== *)
(** ** The end of a run *)
(* ===================================================================== *)

Section Fim.
Local Open Scope Z_scope.

Lemma resolver_status (t : no) (p : caminho) (n : no) :
  resolver t p = Some n <-> status t p = Achou n.
Proof.
  unfold resolver. destruct (status t p); split; intros H;
    try discriminate H; injection H as ->; reflexivity.
Qed.



(** C2. A run in which the files of a group of duplicates are listed and
    no estimate is printed: [./b/x.txt] is gone when line 85 asks its size,
    the exception leaves [main], and the run ends after the header and the
    two paths of the group, with no line of estimate.  On the same tree,
    when nothing changes, the run ends with the estimate 10 - 10 / 2. *)
Theorem listados_sem_estimativa :
  (exists e t,
     executar some_depois raiz = (Abortado e, t) /\
     In (Cout "Arquivos duplicados encontrados para o nome: x.txt") t /\
     In (Cout " - ./a/x.txt") t /\
     In (Cout " - ./b/x.txt") t /\
     forall s, In (Cout s) t ->
       String.prefix "Tamanho em bytes que pode ser liberado: " s = false) /\
  (exists t,
     executar (estavel cenarioA) raiz
       = (Saida 0, t ++ [Cout "Tamanho em bytes que pode ser liberado: 5 bytes"])).
Proof.
  split.
  - eexists. eexists. split; [vm_compute; reflexivity|].
    split; [cbn; tauto|]. split; [cbn; tauto|]. split; [cbn; tauto|].
    intros s Hin. cbn [In] in Hin.
    repeat (destruct Hin as [Hin|Hin];
            [try discriminate Hin; injection Hin as <-; reflexivity|]).
    destruct Hin.
  - exists [Cout "Localizar duplicatas!"; Cout "Informe pasta raiz: ";
            EvExists raiz; EvIterar raiz; EvAbrir a_x; EvAbrir b_x;
            Cout "Arquivos duplicados encontrados para o nome: x.txt";
            Cout " - ./a/x.txt"; EvFileSize a_x;
            Cout " - ./b/x.txt"; EvFileSize b_x].
    vm_compute. reflexivity.
Qed.

(** A root of which [stat] cannot tell whether it exists: [exists] throws,
    nothing catches the exception and the run is aborted before anything
    is said about the root. *)
Lemma status_indeterminado_aborta (m : Mundo) (pastaRaiz : caminho) (motivo : errno) :
  status (arvore m) pastaRaiz = Erro motivo ->
  executar m pastaRaiz =
  (Abortado (filesystem_error "status" pastaRaiz), preambulo pastaRaiz).
Proof. intros Hs. unfold executar. rewrite main_eq, Hs. reflexivity. Qed.

(** A name of 300 letters. *)
Definition nome_longo : string := String.concat "" (repeat "a"%string 300).

(** C8. A root that does not exist and is not reported: a name longer
    than a directory can hold denotes no file, but [stat] answers
    [ENAMETOOLONG] and not [ENOENT]; [exists], the overload that throws,
    throws; nothing catches the exception and the run is aborted after the
    prompt, without the line that says that the root does not exist. *)
Theorem raiz_de_nome_longo (m : Mundo) (filhos : list (string * no)) (nome : string) :
  arvore m = Diretorio true filhos ->
  (NAME_MAX < String.length nome)%nat ->
  resolver (arvore m) [nome] = None /\
  executar m [nome] =
  (Abortado (filesystem_error "status" [nome]),
   [Cout "Localizar duplicatas!"; Cout "Informe pasta raiz: "; EvExists [nome]]).
Proof.
  intros Ha Hlen.
  assert (Hs : status (arvore m) [nome] = Erro ENAMETOOLONG).
  { rewrite Ha. cbn [status descer].
    destruct (String.eqb nome ".") eqn:E1.
    { apply String.eqb_eq in E1. subst nome. cbn in Hlen. unfold NAME_MAX in Hlen.
      apply Nat.ltb_lt in Hlen. discriminate Hlen. }
    destruct (String.eqb nome "..") eqn:E2.
    { apply String.eqb_eq in E2. subst nome. cbn in Hlen. unfold NAME_MAX in Hlen.
      apply Nat.ltb_lt in Hlen. discriminate Hlen. }
    apply Nat.ltb_lt in Hlen. rewrite Hlen. reflexivity. }
  split.
  - unfold resolver. rewrite Hs. reflexivity.
  - exact (status_indeterminado_aborta m [nome] ENAMETOOLONG Hs).
Qed.

Lemma raiz_de_nome_longo_witness :
  resolver (arvore (estavel cenarioA)) [nome_longo] = None /\
  executar (estavel cenarioA) [nome_longo] =
  (Abortado (filesystem_error "status" [nome_longo]),
   [Cout "Localizar duplicatas!"; Cout "Informe pasta raiz: ";
    EvExists [nome_longo]]).
Proof.
  refine (raiz_de_nome_longo (estavel cenarioA) _ nome_longo eq_refl _).
  apply Nat.ltb_lt. vm_compute. reflexivity.
Defined.

(** C6. A file that is gone when its size is asked: [file_size] throws,
    nothing catches the exception, and the run is aborted in the middle of
    the report. *)
Theorem arquivo_some_antes_do_tamanho :
  executar some_depois raiz =
  (Abortado (filesystem_error "cannot get file size" b_x),
   [Cout "Localizar duplicatas!"; Cout "Informe pasta raiz: ";
    EvExists raiz; EvIterar raiz; EvAbrir a_x; EvAbrir b_x;
    Cout "Arquivos duplicados encontrados para o nome: x.txt";
    Cout " - ./a/x.txt"; EvFileSize a_x;
    Cout " - ./b/x.txt"; EvFileSize b_x]).
Proof. vm_compute. reflexivity. Qed.

(** In general: a run that asks for a size that [file_size] cannot give
    is aborted. *)
Lemma tamanho_ausente_aborta (m : Mundo) (pastaRaiz : caminho) (p : caminho) :
  In (EvFileSize p) (rastro (main m pastaRaiz)) ->
  tamanho m p = None ->
  exists e, fst (executar m pastaRaiz) = Abortado e.
Proof.
  intros Hin Hp. unfold executar. revert Hin. rewrite main_eq.
  destruct (status (arvore m) pastaRaiz) as [n| |motivo].
  2: { cbn. intuition discriminate. }
  2: { intros _. eexists. reflexivity. }
  pose proof (obter_arquivos_duplicados_rastro m pastaRaiz) as Ht1.
  destruct (obter_arquivos_duplicados m pastaRaiz) as [[arquivos|e] t1];
    [|eexists; reflexivity].
  cbn [rastro snd] in Ht1. subst t1.
  destruct (exibir_duplicados m arquivos) as [[[bytes total]|e] t2] eqn:Hex;
    [|eexists; reflexivity].
  destruct (exibir_duplicados_totais m arquivos bytes total t2 Hex)
    as (_ & _ & Hs).
  cbn [rastro snd]. intros Hin. exfalso.
  apply relatados_In in Hin. rewrite !relatados_app in Hin.
  assert (Hfim : relatados (linha_final bytes total) = []).
  { unfold linha_final. destruct (total =? 0); reflexivity. }
  rewrite Hfim, app_nil_r in Hin. cbn [preambulo relatados app] in Hin.
  rewrite Forall_forall in Hs. exact (Hs p Hin Hp).
Qed.

(** C7. A root that is a regular file: it exists, so [main] goes on; the
    iterator cannot open it as a directory and throws; nothing catches the
    exception and the run is aborted. *)
Theorem raiz_arquivo_regular (m : Mundo) (pastaRaiz : caminho)
    (legivel : bool) (conteudo : list byte) :
  resolver (arvore m) pastaRaiz = Some (Regular legivel conteudo) ->
  executar m pastaRaiz =
  (Abortado (filesystem_error "recursive directory iterator cannot open directory"
                              pastaRaiz),
   preambulo pastaRaiz ++ [EvIterar pastaRaiz]).
Proof.
  intros Hr. unfold executar. rewrite main_eq.
  rewrite (proj1 (resolver_status _ _ _) Hr).
  pose proof (obter_arquivos_duplicados_rastro m pastaRaiz) as Ht.
  pose proof (obter_arquivos_duplicados_nao_diretorio m pastaRaiz) as Hv.
  rewrite Hr in Hv. specialize (Hv ltac:(discriminate)).
  destruct (obter_arquivos_duplicados m pastaRaiz) as [r t1].
  cbn [valor fst rastro snd] in *. subst r t1. reflexivity.
Qed.

Lemma raiz_arquivo_regular_witness :
  executar (estavel cenarioA) a_x =
  (Abortado (filesystem_error "recursive directory iterator cannot open directory"
                              a_x),
   preambulo a_x ++ [EvIterar a_x]).
Proof.
  apply (raiz_arquivo_regular (estavel cenarioA) a_x true hello).
  reflexivity.
Defined.

End Fim.

(* ===================================================================== *)
(** ** Beyond soundness: what the two indexes contain *)
(* ===================================================================== *)

(** [m.find(k)]: the paths filed under [k], if any. *)
Fixpoint consulta (k : string) (m : unordered_map) : option (list caminho) :=
  match m with
  | [] => None
  | (k', v) :: r => if String.eqb k' k then Some v else consulta k r
  end.

(** A list of paths as the value of an entry: there is no entry for no
    path. *)
Definition nao_vazia (l : list caminho) : option (list caminho) :=
  match l with
  | [] => None
  | _ => Some l
  end.

Section Consulta.

(** Look-up after [m[k0].push_back(p)]. *)
Lemma consulta_push_back_em (k0 : string) (p : caminho) (m : unordered_map)
    (k : string) :
  consulta k (push_back_em k0 p m) =
  if String.eqb k0 k
  then Some (match consulta k m with Some v => v ++ [p] | None => [p] end)
  else consulta k m.
Proof.
  induction m as [|[k' v] m IH]; cbn [push_back_em consulta].
  - destruct (String.eqb k0 k); reflexivity.
  - destruct (String.eqb k' k0) eqn:E0; cbn [consulta].
    + apply String.eqb_eq in E0. subst k'.
      destruct (String.eqb k0 k); reflexivity.
    + rewrite IH. destruct (String.eqb k' k) eqn:E; [|reflexivity].
      apply String.eqb_eq in E. subst k'.
      rewrite String.eqb_sym, E0. reflexivity.
Qed.

Lemma consulta_In (m : unordered_map) (k : string) (v : list caminho) :
  NoDup (chaves m) -> (In (k, v) m <-> consulta k m = Some v).
Proof.
  unfold chaves. induction m as [|[k' v'] m IH]; cbn [map fst consulta In];
    intros Hnd.
  - split; [contradiction | discriminate].
  - inversion Hnd as [|? ? Hnot Hrest]; subst.
    destruct (String.eqb k' k) eqn:E.
    + apply String.eqb_eq in E. subst k'. split.
      * intros [H|H]; [congruence|].
        exfalso. apply Hnot. apply in_map_iff. exists (k, v). auto.
      * intros H. left. congruence.
    + apply String.eqb_neq in E. rewrite <- (IH Hrest). split.
      * intros [H|H]; [congruence | exact H].
      * auto.
Qed.

(** Filing the paths of a list one after the other, each under the key
    [chave] gives it, those without key being left out. *)
Variable chave : caminho -> option string.

Definition arquivar (m : unordered_map) (p : caminho) : unordered_map :=
  match chave p with
  | Some k => push_back_em k p m
  | None => m
  end.

Definition com_chave (k : string) (p : caminho) : bool :=
  match chave p with
  | Some k' => String.eqb k' k
  | None => false
  end.

Lemma arquivar_NoDup (l : list caminho) (m : unordered_map) :
  NoDup (chaves m) -> NoDup (chaves (fold_left arquivar l m)).
Proof.
  revert m. induction l as [|p l IH]; intros m H; cbn [fold_left]; [exact H|].
  apply IH. unfold arquivar. destruct (chave p); [|exact H].
  apply push_back_em_NoDup, H.
Qed.

(** Under each key: the paths with that key, in the order of the list. *)
Lemma arquivar_consulta (l : list caminho) (k : string) :
  consulta k (fold_left arquivar l []) = nao_vazia (filter (com_chave k) l).
Proof.
  induction l as [|p l IH] using rev_ind; [reflexivity|].
  rewrite fold_left_app, filter_app. cbn [fold_left filter].
  unfold arquivar at 1, com_chave at 2.
  destruct (chave p) as [k0|].
  - rewrite consulta_push_back_em, IH.
    destruct (String.eqb k0 k).
    + destruct (filter (com_chave k) l) as [|q r]; reflexivity.
    + rewrite app_nil_r. reflexivity.
  - rewrite app_nil_r. exact IH.
Qed.

End Consulta.

(** The value of a loop whose turns all return. *)
Lemma para_cada_valor {A S : Type} (f : S -> A -> S) (l : list A)
    (corpo : S -> A -> M S) :
  (forall s x, valor (corpo s x) = Ok (f s x)) ->
  forall s, valor (para_cada l s corpo) = Ok (fold_left f l s).
Proof.
  intros Hc. induction l as [|x l IH]; intros s; cbn [para_cada fold_left].
  - reflexivity.
  - rewrite valor_bind, Hc. apply IH.
Qed.

(** The paths of the regular files among the entries of a walk. *)
Definition regulares (entradas : list directory_entry) : list caminho :=
  map path (filter arquivo_regular entradas).

Lemma registrar_arquivar (entradas : list directory_entry) (arquivos : unordered_map) :
  com_status entradas ->
  valor (para_cada entradas arquivos registrar) =
  Ok (fold_left (arquivar (fun p => Some (filename p))) (regulares entradas) arquivos).
Proof.
  intros Hs. revert arquivos. unfold regulares.
  induction Hs as [|e l He _ IH]; intros arquivos; cbn [para_cada filter];
    [reflexivity|].
  rewrite valor_bind, registrar_eq. unfold arquivo_regular at 1.
  destruct (tipo e); cbn [valor ret fst map fold_left]; try apply IH.
  contradiction.
Qed.

(** The index a walk that returns has built. *)
Lemma obter_arquivos_duplicados_arquivar (m : Mundo) (pastaRaiz : caminho)
    (iterador : iteracao) (arquivos : unordered_map) :
  valor (recursive_directory_iterator m pastaRaiz) = Ok iterador ->
  valor (obter_arquivos_duplicados m pastaRaiz) = Ok arquivos ->
  arquivos = fold_left (arquivar (fun p => Some (filename p)))
                       (regulares (entregues iterador)) [].
Proof.
  intros Hit Hv.
  apply (obter_arquivos_duplicados_completa m pastaRaiz iterador Hit) in Hv.
  destruct Hv as [[_ Hs] Hl]. rewrite (registrar_arquivar _ _ Hs) in Hl.
  injection Hl as <-. reflexivity.
Qed.

(** X1. The iteration being what the iterator delivers,
    [obter_arquivos_duplicados] returns exactly when it runs to its end:
    no increment fails and the status of every entry can be had.  The
    index it then returns holds one entry per base name, and under each
    name exactly the paths of the regular files the walk met that have this
    base name, in the order in which it met them; entries that are not
    regular files are nowhere. *)
Theorem indice_por_nome (m : Mundo) (pastaRaiz : caminho) (iterador : iteracao) :
  valor (recursive_directory_iterator m pastaRaiz) = Ok iterador ->
  (completa iterador <->
   exists arquivos, valor (obter_arquivos_duplicados m pastaRaiz) = Ok arquivos) /\
  (forall arquivos,
     valor (obter_arquivos_duplicados m pastaRaiz) = Ok arquivos ->
     NoDup (chaves arquivos) /\
     forall nome,
       consulta nome arquivos =
       nao_vazia (filter (fun p => String.eqb (filename p) nome)
                         (regulares (entregues iterador)))).
Proof.
  intros Hit. split; [split|].
  - intros Hc. destruct (registrar_retorna (entregues iterador) [] (proj2 Hc))
      as [arquivos Hl].
    exists arquivos.
    apply (obter_arquivos_duplicados_completa m pastaRaiz iterador Hit). auto.
  - intros [arquivos Hv].
    apply (obter_arquivos_duplicados_completa m pastaRaiz iterador Hit) in Hv.
    exact (proj1 Hv).
  - intros arquivos Hv.
    rewrite (obter_arquivos_duplicados_arquivar m pastaRaiz iterador arquivos Hit Hv).
    split.
    + apply arquivar_NoDup. constructor.
    + intros nome. apply (arquivar_consulta (fun p => Some (filename p))).
Qed.

Lemma indice_por_nome_witness :
  (completa (mkIteracao [mkEntrada ["."; "a"]%string directory;
                         mkEntrada a_x regular; mkEntrada a_y regular;
                         mkEntrada ["."; "b"]%string directory;
                         mkEntrada b_x regular; mkEntrada b_y regular] None) <->
   exists arquivos,
     valor (obter_arquivos_duplicados (estavel cenarioG) raiz) = Ok arquivos) /\
  (forall arquivos,
     valor (obter_arquivos_duplicados (estavel cenarioG) raiz) = Ok arquivos ->
     NoDup (chaves arquivos) /\
     forall nome,
       consulta nome arquivos =
       nao_vazia (filter (fun p => String.eqb (filename p) nome)
                         [a_x; a_y; b_x; b_y])).
Proof.
  apply (indice_por_nome (estavel cenarioG) raiz
           (mkIteracao [mkEntrada ["."; "a"]%string directory;
                        mkEntrada a_x regular; mkEntrada a_y regular;
                        mkEntrada ["."; "b"]%string directory;
                        mkEntrada b_x regular; mkEntrada b_y regular] None)).
  reflexivity.
Defined.

(** The map [agrupar_por_hash] returns. *)
Definition hashes_de (m : Mundo) (caminhos : list caminho) : unordered_map :=
  fold_left (incluir m) caminhos [].

(** The key under which a path goes in that map, if it goes. *)
Definition chave_hash (m : Mundo) (p : caminho) : option string :=
  if String.eqb (hash_de m p) EmptyString then None else Some (hash_de m p).

Lemma agrupar_por_hash_valor (m : Mundo) (caminhos : list caminho) :
  valor (agrupar_por_hash m caminhos) = Ok (hashes_de m caminhos).
Proof.
  unfold agrupar_por_hash, hashes_de. apply para_cada_valor.
  intros s p. rewrite agrupar_turno. reflexivity.
Qed.

Lemma hashes_de_arquivar (m : Mundo) (caminhos : list caminho) :
  hashes_de m caminhos = fold_left (arquivar (chave_hash m)) caminhos [].
Proof.
  unfold hashes_de. generalize (@nil (string * list caminho)).
  induction caminhos as [|p l IH]; intros s; cbn [fold_left]; [reflexivity|].
  rewrite IH. f_equal. unfold incluir, arquivar, chave_hash.
  destruct (String.eqb (hash_de m p) EmptyString); reflexivity.
Qed.

Lemma hashes_de_consulta (m : Mundo) (caminhos : list caminho) (h : string) :
  consulta h (hashes_de m caminhos) =
  if String.eqb h EmptyString then None
  else nao_vazia (filter (fun p => String.eqb (hash_de m p) h) caminhos).
Proof.
  rewrite hashes_de_arquivar, arquivar_consulta.
  assert (Hf : filter (com_chave (chave_hash m) h) caminhos =
               if String.eqb h EmptyString then []
               else filter (fun p => String.eqb (hash_de m p) h) caminhos).
  { induction caminhos as [|p l IH]; cbn [filter].
    - destruct (String.eqb h EmptyString); reflexivity.
    - rewrite IH. unfold com_chave, chave_hash.
      destruct (String.eqb (hash_de m p) EmptyString) eqn:Ep.
      + apply String.eqb_eq in Ep. rewrite Ep.
        destruct (String.eqb h EmptyString) eqn:Eh; [reflexivity|].
        rewrite String.eqb_sym, Eh. reflexivity.
      + destruct (String.eqb (hash_de m p) h) eqn:E; [|reflexivity].
        apply String.eqb_eq in E. subst h. rewrite Ep. reflexivity. }
  rewrite Hf. destruct (String.eqb h EmptyString); reflexivity.
Qed.

Lemma hashes_de_NoDup (m : Mundo) (caminhos : list caminho) :
  NoDup (chaves (hashes_de m caminhos)).
Proof. rewrite hashes_de_arquivar. apply arquivar_NoDup. constructor. Qed.

(** X2. [agrupar_por_hash] always returns, and its map holds one entry
    per digest: under a digest exactly the paths of the name whose hash
    is that digest, in their order; nothing under the empty string. *)
Theorem grupos_por_digest (m : Mundo) (caminhos : list caminho) :
  exists hashes,
    valor (agrupar_por_hash m caminhos) = Ok hashes /\
    NoDup (chaves hashes) /\
    forall h,
      consulta h hashes =
      if String.eqb h EmptyString then None
      else nao_vazia (filter (fun p => String.eqb (hash_de m p) h) caminhos).
Proof.
  exists (hashes_de m caminhos). split; [apply agrupar_por_hash_valor|].
  split; [apply hashes_de_NoDup | apply hashes_de_consulta].
Qed.

(* ===================================================================== *)
(** ** Beyond soundness: what a report that ends contains *)
(* ===================================================================== *)

Section Conteudo.
Variable m : Mundo.

(** The events of listing the paths of a group. *)
Definition itens (ps : list caminho) : list evento :=
  flat_map (fun p => [Cout (item p); EvFileSize p]) ps.

(** A reading of the events that goes through concatenation is known for
    a loop that returned as soon as it is known for each turn. *)
Lemma para_cada_flat_map {A S B : Type} (f : list evento -> list B)
    (g : A -> list B) (l : list A) (corpo : S -> A -> M S) :
  f [] = [] ->
  (forall a b, f (a ++ b) = f a ++ f b) ->
  (forall s x s' t, In x l -> corpo s x = (Ok s', t) -> f t = g x) ->
  forall s s' t, para_cada l s corpo = (Ok s', t) -> f t = flat_map g l.
Proof.
  intros Hnil Happ. induction l as [|x l IH]; intros Hc s s' t Hrun.
  - cbn in Hrun. injection Hrun as _ <-. exact Hnil.
  - cbn [para_cada] in Hrun. unfold bind in Hrun.
    destruct (corpo s x) as [[s1|e] t1] eqn:Hx; [|discriminate Hrun].
    destruct (para_cada l s1 corpo) as [r t2] eqn:Hl.
    injection Hrun as -> <-. cbn [flat_map].
    rewrite Happ, (Hc s x s1 t1 (or_introl eq_refl) Hx).
    f_equal. apply (IH (fun s0 x0 s0' t0 Hin => Hc s0 x0 s0' t0 (or_intror Hin)) s1 s').
    exact Hl.
Qed.

(** In a loop that returned, what each turn did is there in one piece. *)
Lemma para_cada_segmento {A S : Type} (l : list A) (corpo : S -> A -> M S) (x : A) :
  In x l ->
  forall s s' t, para_cada l s corpo = (Ok s', t) ->
  exists s1 s2 tx antes depois,
    corpo s1 x = (Ok s2, tx) /\ t = antes ++ tx ++ depois.
Proof.
  induction l as [|y l IH]; intros Hin s s' t Hrun; [contradiction|].
  cbn [para_cada] in Hrun. unfold bind in Hrun.
  destruct (corpo s y) as [[s1|e] t1] eqn:Hy; [|discriminate Hrun].
  destruct (para_cada l s1 corpo) as [r t2] eqn:Hl.
  injection Hrun as -> <-.
  destruct Hin as [->|Hin].
  - exists s, s1, t1, [], t2. auto.
  - destruct (IH Hin s1 s' t2 Hl) as (sa & sb & tx & antes & depois & Hx & ->).
    exists sa, sb, tx, (t1 ++ antes), depois. split; [exact Hx|].
    rewrite <- app_assoc. reflexivity.
Qed.

Lemma abertos_app (t1 t2 : list evento) :
  abertos (t1 ++ t2) = abertos t1 ++ abertos t2.
Proof.
  induction t1 as [|ev t1 IH]; cbn [app abertos]; [reflexivity|].
  destruct ev; rewrite IH; reflexivity.
Qed.

Lemma abertos_In (t : list evento) (p : caminho) :
  In p (abertos t) <-> In (EvAbrir p) t.
Proof.
  induction t as [|ev t IH]; cbn [abertos In]; [tauto|].
  destruct ev; cbn [In]; rewrite IH; intuition (try discriminate; try congruence).
Qed.

Lemma itens_relatados (ps : list caminho) : relatados (itens ps) = ps.
Proof.
  unfold itens. induction ps as [|p ps IH]; cbn [flat_map app relatados];
    [|rewrite IH]; reflexivity.
Qed.

Lemma itens_abertos (ps : list caminho) : abertos (itens ps) = [].
Proof.
  unfold itens. induction ps as [|p ps IH]; cbn [flat_map app abertos];
    [reflexivity | exact IH].
Qed.

Lemma itens_e_item (ps : list caminho) : forallb e_item (itens ps) = true.
Proof.
  induction ps as [|p ps IH]; [reflexivity|].
  cbn [itens flat_map app forallb]. rewrite item_e_item. exact IH.
Qed.

(** A group that was listed to its end. *)
Lemma exibir_grupo_listado (nome : string) (v v' : locais) (ps : list caminho)
    (t : list evento) :
  exibir_grupo m nome v ps = (Ok v', t) ->
  t = if (1 <? length ps) then Cout (cabecalho nome) :: itens ps else [].
Proof.
  unfold exibir_grupo. destruct (1 <? length ps).
  - cbn [cout emitir bind].
    destruct (para_cada ps v (exibir_caminho m)) as [[v1|e] t1] eqn:Hl;
      cbn [bind ret]; intros H; [|discriminate H].
    injection H as _ <-. rewrite app_nil_r. cbn [app]. f_equal.
    revert Hl. apply (para_cada_flat_map (fun t => t)); [reflexivity | reflexivity|].
    intros s p s' t' _. rewrite exibir_caminho_eq.
    intros H. injection H as _ <-. reflexivity.
  - intros H. injection H as _ <-. reflexivity.
Qed.

(** Hashing the paths of a name opens each of them once, in order, and
    lists nothing. *)
Lemma agrupar_por_hash_abertos (caminhos : list caminho) :
  abertos (rastro (agrupar_por_hash m caminhos)) = caminhos /\
  relatados (rastro (agrupar_por_hash m caminhos)) = [].
Proof.
  pose proof (agrupar_por_hash_valor m caminhos) as Hv.
  destruct (agrupar_por_hash m caminhos) as [r t] eqn:Hrun.
  cbn [valor fst rastro snd] in *. subst r. unfold agrupar_por_hash in Hrun.
  assert (Hturno : forall s p s' t', In p caminhos ->
            bind (calcularHash m p)
                 (fun hash => if negb (String.eqb hash EmptyString)
                              then ret (push_back_em hash p s) else ret s)
            = (Ok s', t') ->
            abertos t' = [p] /\ relatados t' = []).
  { intros s p s' t' _. rewrite agrupar_turno. intros H. injection H as _ <-.
    destruct (abrir m p) as [c|] eqn:Ha.
    - rewrite (calcularHash_aberto m p c Ha). split; reflexivity.
    - rewrite (calcularHash_fechado m p Ha). split; reflexivity. }
  split.
  - rewrite (para_cada_flat_map abertos (fun p => [p]) _ _ eq_refl abertos_app
               (fun s p s' t' Hin H => proj1 (Hturno s p s' t' Hin H)) _ _ _ Hrun).
    clear. induction caminhos as [|p l IH]; cbn; [|rewrite IH]; reflexivity.
  - rewrite (para_cada_flat_map relatados (fun p => []) _ _ eq_refl relatados_app
               (fun s p s' t' Hin H => proj2 (Hturno s p s' t' Hin H)) _ _ _ Hrun).
    clear. induction caminhos as [|p l IH]; cbn; [|rewrite IH]; reflexivity.
Qed.

(** The paths of the groups of a name that have two paths or more, in the
    order in which they are listed. *)
Definition grupos_listados (caminhos : list caminho) : list caminho :=
  flat_map (fun ps => if 1 <? length ps then ps else [])
           (map snd (ordem m (hashes_de m caminhos))).

(** The paths of the names with two paths or more. *)
Definition candidatos (arquivos : unordered_map) : list caminho :=
  flat_map (fun entrada => if 1 <? length (snd entrada) then snd entrada else [])
           (ordem m arquivos).

(** The paths of all the groups of the report. *)
Definition listagem (arquivos : unordered_map) : list caminho :=
  flat_map (fun entrada => if 1 <? length (snd entrada)
                           then grupos_listados (snd entrada) else [])
           (ordem m arquivos).

Lemma exibir_nome_conteudo (v v' : locais) (entrada : string * list caminho)
    (t : list evento) :
  exibir_nome m v entrada = (Ok v', t) ->
  abertos t = (if 1 <? length (snd entrada) then snd entrada else []) /\
  relatados t = (if 1 <? length (snd entrada)
                 then grupos_listados (snd entrada) else []).
Proof.
  destruct entrada as [nome caminhos]. unfold exibir_nome. cbn [snd].
  destruct (1 <? length caminhos).
  - pose proof (agrupar_por_hash_abertos caminhos) as [Ha Hr].
    pose proof (agrupar_por_hash_valor m caminhos) as Hv.
    destruct (agrupar_por_hash m caminhos) as [r t1].
    cbn [valor fst rastro snd] in *. subst r. cbn [bind].
    destruct (para_cada _ v (exibir_grupo m nome)) as [r t2] eqn:Hl.
    intros H. injection H as -> <-.
    rewrite abertos_app, relatados_app, Ha, Hr. cbn [app].
    split.
    + assert (Hg : abertos t2 = flat_map (fun _ : list caminho => []) 
                                          (map snd (ordem m (hashes_de m caminhos)))).
      { revert Hl.
        apply (para_cada_flat_map abertos (fun _ => []));
          [reflexivity | apply abertos_app |].
        intros s ps s' t' _ H. rewrite (exibir_grupo_listado nome s s' ps t' H).
        destruct (1 <? length ps); [|reflexivity].
        cbn [abertos]. apply itens_abertos. }
      rewrite Hg. generalize (map snd (ordem m (hashes_de m caminhos))).
      intros l. induction l as [|x l IH]; cbn [flat_map app];
        [apply app_nil_r | exact IH].
    + unfold grupos_listados.
      revert Hl.
      apply (para_cada_flat_map relatados
               (fun ps => if 1 <? length ps then ps else []));
        [reflexivity | apply relatados_app |].
      intros s ps s' t' _ H. rewrite (exibir_grupo_listado nome s s' ps t' H).
      destruct (1 <? length ps); [|reflexivity].
      cbn [relatados]. apply itens_relatados.
  - intros H. injection H as _ <-. split; reflexivity.
Qed.

Lemma exibir_duplicados_desdobrado (arquivos : unordered_map) (r : Z * Z)
    (t : list evento) :
  exibir_duplicados m arquivos = (Ok r, t) ->
  exists v t1,
    para_cada (ordem m arquivos) (mkLocais false 0 0) (exibir_nome m) = (Ok v, t1) /\
    r = (tamanhoTotalEmBytes v, size_t (totalDuplicatas v)) /\
    t = t1 ++ (if negb (encontrouDuplicados v)
               then [Cout "Nenhum arquivo duplicado encontrado."] else []).
Proof.
  unfold exibir_duplicados.
  destruct (para_cada (ordem m arquivos) _ (exibir_nome m)) as [[v|e] t1];
    cbn [bind]; [|discriminate].
  intros H. exists v, t1. split; [reflexivity|].
  destruct (negb (encontrouDuplicados v)); cbn in H; injection H as <- <-;
    rewrite ?app_nil_r; auto.
Qed.

(** X3. A report that runs to its end has opened exactly the paths of the
    names with two paths or more, each once and in order, and has listed
    exactly the paths of the groups by digest with two paths or more. *)
Theorem conteudo_do_relatorio (arquivos : unordered_map) (r : Z * Z)
    (t : list evento) :
  exibir_duplicados m arquivos = (Ok r, t) ->
  abertos t = candidatos arquivos /\ relatados t = listagem arquivos.
Proof.
  intros H. destruct (exibir_duplicados_desdobrado arquivos r t H)
    as (v & t1 & Hl & _ & ->).
  assert (Hfim : forall b : bool,
            abertos (if b then [Cout "Nenhum arquivo duplicado encontrado."] else []) = []
            /\ relatados (if b then [Cout "Nenhum arquivo duplicado encontrado."]
                          else []) = []).
  { intros []; split; reflexivity. }
  rewrite abertos_app, relatados_app.
  rewrite (proj1 (Hfim _)), (proj2 (Hfim _)), !app_nil_r.
  split.
  - revert Hl. apply (para_cada_flat_map abertos); [reflexivity | apply abertos_app|].
    intros s x s' t' _ Hx. apply (exibir_nome_conteudo s s' x t' Hx).
  - revert Hl. apply (para_cada_flat_map relatados);
      [reflexivity | apply relatados_app|].
    intros s x s' t' _ Hx. apply (exibir_nome_conteudo s s' x t' Hx).
Qed.

Lemma exibir_duplicados_unicos (arquivos : unordered_map) :
  (forall nome caminhos, In (nome, caminhos) arquivos -> length caminhos <= 1) ->
  exibir_duplicados m arquivos =
  (Ok (0%Z, 0%Z), [Cout "Nenhum arquivo duplicado encontrado."]).
Proof.
  intros Hu.
  assert (Hl : forall l v,
            (forall nome caminhos, In (nome, caminhos) l -> length caminhos <= 1) ->
            para_cada l v (exibir_nome m) = (Ok v, [])).
  { induction l as [|[nome caminhos] l IH]; intros v Hin; [reflexivity|].
    cbn [para_cada]. unfold exibir_nome at 1.
    replace (1 <? length caminhos) with false.
    - cbn [bind ret]. rewrite IH; [reflexivity|].
      intros ? ? H. apply (Hin _ _ (or_intror H)).
    - symmetry. apply Nat.ltb_ge. apply (Hin nome caminhos). left. reflexivity. }
  unfold exibir_duplicados. rewrite Hl; [reflexivity|].
  intros nome caminhos Hin. apply (Hu nome caminhos).
  exact (Permutation_in _ (ordem_permuta m arquivos) Hin).
Qed.

(** X4. When no name has two paths, and so for an empty index, the report
    opens no file, asks no size, says that nothing was found and returns
    two zeros. *)
Theorem nomes_unicos_nada_a_relatar (arquivos : unordered_map) :
  (forall nome caminhos, In (nome, caminhos) arquivos -> length caminhos <= 1) ->
  exibir_duplicados m arquivos =
  (Ok (0%Z, 0%Z), [Cout "Nenhum arquivo duplicado encontrado."]) /\
  abertos (rastro (exibir_duplicados m arquivos)) = [] /\
  relatados (rastro (exibir_duplicados m arquivos)) = [].
Proof.
  intros Hu. rewrite (exibir_duplicados_unicos arquivos Hu).
  split; [|split]; reflexivity.
Qed.

(** *** Every group is listed *)

Lemma dois_membros {A : Type} (a b : A) (l : list A) :
  In a l -> In b l -> a <> b -> 2 <= length l.
Proof.
  destruct l as [|x [|y l]]; cbn [In List.length]; intros Ha Hb Hab.
  - contradiction.
  - exfalso. apply Hab. destruct Ha as [<-|[]], Hb as [<-|[]]. reflexivity.
  - lia.
Qed.

Lemma listados_juntos_segmento (t antes depois : list evento) (nome : string)
    (ps : list caminho) (p1 p2 : caminho) :
  t = antes ++ (Cout (cabecalho nome) :: itens ps) ++ depois ->
  In p1 ps -> In p2 ps ->
  listados_juntos t p1 p2.
Proof.
  intros -> H1 H2. exists nome, antes, (itens ps), depois.
  split; [reflexivity|]. split; [apply itens_e_item|].
  split; apply relatados_In; rewrite itens_relatados; assumption.
Qed.

Lemma exibir_nome_segmento (v v' : locais) (nome : string)
    (caminhos : list caminho) (t : list evento) (h : string) (ps : list caminho) :
  exibir_nome m v (nome, caminhos) = (Ok v', t) ->
  2 <= length caminhos ->
  In (h, ps) (hashes_de m caminhos) -> 2 <= length ps ->
  exists antes depois, t = antes ++ (Cout (cabecalho nome) :: itens ps) ++ depois.
Proof.
  unfold exibir_nome. intros Hrun Hc Hin Hp.
  replace (1 <? length caminhos) with true in Hrun
    by (symmetry; apply Nat.ltb_lt; lia).
  pose proof (agrupar_por_hash_valor m caminhos) as Hv.
  destruct (agrupar_por_hash m caminhos) as [r t1].
  cbn [valor fst] in Hv. subst r. cbn [bind] in Hrun.
  destruct (para_cada _ v (exibir_grupo m nome)) as [r t2] eqn:Hl.
  injection Hrun as -> <-.
  assert (Hmem : In ps (map snd (ordem m (hashes_de m caminhos)))).
  { apply in_map_iff. exists (h, ps). split; [reflexivity|].
    apply (Permutation_in _ (Permutation_sym (ordem_permuta m _))), Hin. }
  destruct (para_cada_segmento _ _ ps Hmem _ _ _ Hl)
    as (s1 & s2 & tx & antes & depois & Hx & ->).
  apply exibir_grupo_listado in Hx.
  replace (1 <? length ps) with true in Hx by (symmetry; apply Nat.ltb_lt; lia).
  subst tx. exists (t1 ++ antes), depois. rewrite <- app_assoc. reflexivity.
Qed.

Lemma exibir_duplicados_segmento (arquivos : unordered_map) (r : Z * Z)
    (t : list evento) (nome : string) (caminhos : list caminho)
    (h : string) (ps : list caminho) :
  exibir_duplicados m arquivos = (Ok r, t) ->
  In (nome, caminhos) arquivos -> 2 <= length caminhos ->
  In (h, ps) (hashes_de m caminhos) -> 2 <= length ps ->
  exists antes depois, t = antes ++ (Cout (cabecalho nome) :: itens ps) ++ depois.
Proof.
  intros Hrun Hin Hc Hh Hp.
  destruct (exibir_duplicados_desdobrado arquivos r t Hrun)
    as (v & t1 & Hl & _ & ->).
  assert (Hmem : In (nome, caminhos) (ordem m arquivos)).
  { apply (Permutation_in _ (Permutation_sym (ordem_permuta m _))), Hin. }
  destruct (para_cada_segmento _ _ _ Hmem _ _ _ Hl)
    as (s1 & s2 & tx & antes & depois & Hx & ->).
  destruct (exibir_nome_segmento s1 s2 nome caminhos tx h ps Hx Hc Hh Hp)
    as (a & d & ->).
  exists (antes ++ a), (d ++ depois ++
    (if negb (encontrouDuplicados v)
     then [Cout "Nenhum arquivo duplicado encontrado."] else [])).
  rewrite <- !app_assoc. reflexivity.
Qed.

End Conteudo.

Lemma nao_vazia_In (p : caminho) (l : list caminho) :
  In p l -> nao_vazia l = Some l.
Proof. destruct l; [contradiction | reflexivity]. Qed.

(** A run in which [main] returns: the root is missing, or the walk and
    the report both ended. *)
Lemma main_retorna (m : Mundo) (pastaRaiz : caminho) (r : Z) :
  valor (main m pastaRaiz) = Ok r ->
  (status (arvore m) pastaRaiz = NaoAchou /\ r = (-1)%Z) \/
  (exists arquivos bytes total t,
     valor (obter_arquivos_duplicados m pastaRaiz) = Ok arquivos /\
     exibir_duplicados m arquivos = (Ok (bytes, total), t) /\
     rastro (main m pastaRaiz)
       = preambulo pastaRaiz ++ [EvIterar pastaRaiz] ++ t ++ linha_final bytes total /\
     r = 0%Z).
Proof.
  rewrite main_eq.
  destruct (status (arvore m) pastaRaiz) as [n| |motivo]; [| |discriminate].
  - pose proof (obter_arquivos_duplicados_rastro m pastaRaiz) as Ht1.
    destruct (obter_arquivos_duplicados m pastaRaiz) as [[arquivos|e] t1];
      [|discriminate].
    cbn [rastro snd] in Ht1. subst t1.
    destruct (exibir_duplicados m arquivos) as [[[bytes total]|e] t2] eqn:Hex;
      [|discriminate].
    cbn [valor fst rastro snd]. intros H. injection H as <-. right.
    exists arquivos, bytes, total, t2. auto.
  - cbn [valor fst]. intros H. injection H as <-. left. auto.
Qed.

(** X5. Two different regular files that the walk met, with the same base
    name, that open and deliver the same bytes, are listed together in the
    report of every run that [main] ends. *)
Theorem duplicatas_sao_relatadas (m : Mundo) (pastaRaiz : caminho)
    (iterador : iteracao) (r : Z) (p1 p2 : caminho)
    (conteudo : list byte) :
  valor (recursive_directory_iterator m pastaRaiz) = Ok iterador ->
  valor (main m pastaRaiz) = Ok r ->
  In p1 (regulares (entregues iterador)) ->
  In p2 (regulares (entregues iterador)) -> p1 <> p2 ->
  filename p1 = filename p2 ->
  abrir m p1 = Some conteudo -> abrir m p2 = Some conteudo ->
  listados_juntos (rastro (main m pastaRaiz)) p1 p2.
Proof.
  intros Hit Hmain H1 H2 Hdif Hnome Ha1 Ha2.
  destruct (main_retorna m pastaRaiz r Hmain)
    as [[Hr _]|(arquivos & bytes & total & t & Hv & Hex & Ht & _)].
  { unfold recursive_directory_iterator, resolver in Hit. rewrite Hr in Hit.
    discriminate Hit. }
  (* the name group *)
  set (entradas := entregues iterador) in *.
  set (nome := filename p1).
  set (caminhos := filter (fun p => String.eqb (filename p) nome) (regulares entradas)).
  assert (Hc1 : In p1 caminhos).
  { apply filter_In. split; [exact H1 | apply String.eqb_refl]. }
  assert (Hc2 : In p2 caminhos).
  { apply filter_In. split; [exact H2|]. rewrite <- Hnome. apply String.eqb_refl. }
  assert (Hin : In (nome, caminhos) arquivos).
  { rewrite (obter_arquivos_duplicados_arquivar m pastaRaiz iterador arquivos Hit Hv).
    apply consulta_In; [apply arquivar_NoDup; constructor|].
    rewrite (arquivar_consulta (fun p => Some (filename p))).
    apply (nao_vazia_In p1), Hc1. }
  (* the group by digest *)
  set (h := digest_de conteudo).
  assert (Hh1 : hash_de m p1 = h) by (unfold hash_de; rewrite Ha1; reflexivity).
  assert (Hh2 : hash_de m p2 = h) by (unfold hash_de; rewrite Ha2; reflexivity).
  set (ps := filter (fun p => String.eqb (hash_de m p) h) caminhos).
  assert (Hp1 : In p1 ps).
  { apply filter_In. split; [exact Hc1|]. rewrite Hh1. apply String.eqb_refl. }
  assert (Hp2 : In p2 ps).
  { apply filter_In. split; [exact Hc2|]. rewrite Hh2. apply String.eqb_refl. }
  assert (Hg : In (h, ps) (hashes_de m caminhos)).
  { apply consulta_In; [apply hashes_de_NoDup|].
    rewrite hashes_de_consulta.
    replace (String.eqb h EmptyString) with false
      by (symmetry; apply String.eqb_neq, digest_de_nao_vazio).
    apply (nao_vazia_In p1), Hp1. }
  destruct (exibir_duplicados_segmento m arquivos (bytes, total) t nome caminhos h ps
              Hex Hin (dois_membros p1 p2 _ Hc1 Hc2 Hdif)
              Hg (dois_membros p1 p2 _ Hp1 Hp2 Hdif))
    as (antes & depois & ->).
  apply (listados_juntos_segmento _
           (preambulo pastaRaiz ++ [EvIterar pastaRaiz] ++ antes)
           (depois ++ linha_final bytes total) nome ps); [|exact Hp1 | exact Hp2].
  rewrite Ht, <- !app_assoc. reflexivity.
Qed.

Lemma duplicatas_sao_relatadas_witness :
  listados_juntos (rastro (main (estavel cenarioA) raiz)) a_x b_x.
Proof.
  apply (duplicatas_sao_relatadas (estavel cenarioA) raiz
           (mkIteracao [mkEntrada ["."; "a"]%string directory; mkEntrada a_x regular;
                        mkEntrada ["."; "b"]%string directory; mkEntrada b_x regular]
                       None)
           0%Z a_x b_x hello).
  - reflexivity.
  - vm_compute. reflexivity.
  - left. reflexivity.
  - right. left. reflexivity.
  - discriminate.
  - reflexivity.
  - reflexivity.
  - reflexivity.
Defined.

Lemma conteudo_do_relatorio_witness :
  abertos [EvAbrir a_y; EvAbrir b_y;
           Cout "Arquivos duplicados encontrados para o nome: y.txt";
           Cout " - ./a/y.txt"; EvFileSize a_y;
           Cout " - ./b/y.txt"; EvFileSize b_y;
           EvAbrir a_x; EvAbrir b_x;
           Cout "Arquivos duplicados encontrados para o nome: x.txt";
           Cout " - ./a/x.txt"; EvFileSize a_x;
           Cout " - ./b/x.txt"; EvFileSize b_x]%string
    = candidatos mundo_ao_contrario
        [("x.txt", [a_x; b_x]); ("y.txt", [a_y; b_y])]%string /\
  relatados [EvAbrir a_y; EvAbrir b_y;
             Cout "Arquivos duplicados encontrados para o nome: y.txt";
             Cout " - ./a/y.txt"; EvFileSize a_y;
             Cout " - ./b/y.txt"; EvFileSize b_y;
             EvAbrir a_x; EvAbrir b_x;
             Cout "Arquivos duplicados encontrados para o nome: x.txt";
             Cout " - ./a/x.txt"; EvFileSize a_x;
             Cout " - ./b/x.txt"; EvFileSize b_x]%string
    = listagem mundo_ao_contrario
        [("x.txt", [a_x; b_x]); ("y.txt", [a_y; b_y])]%string.
Proof.
  apply (conteudo_do_relatorio mundo_ao_contrario _ (20%Z, 4%Z)).
  vm_compute. reflexivity.
Defined.

Lemma nomes_unicos_nada_a_relatar_witness :
  exibir_duplicados (estavel cenarioC)
    [("x.txt"%string, [a_x]); ("y.txt"%string, [b_y])] =
  (Ok (0%Z, 0%Z), [Cout "Nenhum arquivo duplicado encontrado."]).
Proof.
  refine (proj1 (nomes_unicos_nada_a_relatar (estavel cenarioC)
                   [("x.txt"%string, [a_x]); ("y.txt"%string, [b_y])] _)).
  intros nome caminhos [H|[H|[]]]; injection H as _ <-; cbn [List.length]; lia.
Defined.

(* ===================================================================== *)
(** ** Beyond soundness: how a report closes *)
(* ===================================================================== *)

Definition e_nenhum (ev : evento) : bool :=
  match ev with
  | Cout s => String.eqb s "Nenhum arquivo duplicado encontrado."
  | _ => false
  end.

Section Fecho.
Variable m : Mundo.

(** What a stretch of the report that returned did to the flag
    [encontrouDuplicados]: it is raised exactly when a header was printed;
    under headers at least two paths are listed, and none without; the
    closing line is not printed. *)
Definition achados (v : locais) (t : list evento) (v' : locais) : Prop :=
  encontrouDuplicados v' = (encontrouDuplicados v || existsb e_cabecalho t)%bool /\
  (existsb e_cabecalho t = false -> relatados t = []) /\
  (existsb e_cabecalho t = true -> 2 <= length (relatados t)) /\
  existsb e_nenhum t = false.

Lemma achados_nada (v : locais) : achados v [] v.
Proof.
  unfold achados. cbn. rewrite orb_false_r.
  split; [reflexivity|]. split; [reflexivity|]. split; [discriminate | reflexivity].
Qed.

Lemma achados_seguido (v1 : locais) (t1 : list evento) (v2 : locais)
    (t2 : list evento) (v3 : locais) :
  achados v1 t1 v2 -> achados v2 t2 v3 -> achados v1 (t1 ++ t2) v3.
Proof.
  intros (He1 & Hn1 & Hs1 & Hf1) (He2 & Hn2 & Hs2 & Hf2).
  unfold achados. rewrite !existsb_app, relatados_app, length_app, Hf1, Hf2.
  split; [rewrite He2, He1; symmetry; apply orb_assoc|].
  split; [|split; [|reflexivity]].
  - intros H. apply orb_false_iff in H as [Ha Hb].
    rewrite (Hn1 Ha), (Hn2 Hb). reflexivity.
  - intros H.
    destruct (existsb e_cabecalho t1); [specialize (Hs1 eq_refl); lia|].
    cbn [orb] in H. specialize (Hs2 H). lia.
Qed.

Lemma itens_sem_cabecalho (ps : list caminho) :
  existsb e_cabecalho (itens ps) = false /\ existsb e_nenhum (itens ps) = false.
Proof.
  unfold itens. induction ps as [|p ps [IH1 IH2]]; [split; reflexivity|].
  cbn [flat_map app existsb]. rewrite IH1, IH2. split; reflexivity.
Qed.

Lemma exibir_grupo_achados (nome : string) (v : locais) (ps : list caminho)
    (v' : locais) (t : list evento) :
  exibir_grupo m nome v ps = (Ok v', t) -> achados v t v'.
Proof.
  intros H. pose proof (exibir_grupo_listado m nome v v' ps t H) as Ht.
  revert H. unfold exibir_grupo. destruct (1 <? length ps) eqn:E.
  - cbn [cout emitir bind].
    destruct (para_cada ps v (exibir_caminho m)) as [[v1|e] t1];
      cbn [bind ret]; intros H; [|discriminate H].
    injection H as <- _. subst t. unfold achados.
    cbn [existsb relatados encontrouDuplicados].
    rewrite cabecalho_e_cabecalho, itens_relatados, orb_true_r.
    destruct (itens_sem_cabecalho ps) as [_ Hn]. rewrite Hn.
    apply Nat.ltb_lt in E.
    split; [reflexivity|]. split; [discriminate|]. split; [lia | reflexivity].
  - intros H. injection H as <- <-. apply achados_nada.
Qed.

Lemma exibir_nome_achados (v : locais) (entrada : string * list caminho)
    (v' : locais) (t : list evento) :
  exibir_nome m v entrada = (Ok v', t) -> achados v t v'.
Proof.
  destruct entrada as [nome caminhos]. unfold exibir_nome.
  destruct (1 <? length caminhos).
  - pose proof (agrupar_por_hash_rastro m caminhos) as Hr.
    pose proof (agrupar_por_hash_abertos m caminhos) as [_ Hrel].
    destruct (agrupar_por_hash m caminhos) as [[hashes|e] t1]; cbn [bind];
      [|discriminate].
    destruct (para_cada _ v (exibir_grupo m nome)) as [r t2] eqn:Hl.
    intros H. injection H as -> <-. cbn [rastro snd] in Hr, Hrel.
    apply (achados_seguido v t1 v t2 v').
    + assert (Hn : existsb e_cabecalho t1 = false /\ existsb e_nenhum t1 = false).
      { clear -Hr. induction Hr as [|ev t1 Hev _ [IH1 IH2]]; [split; reflexivity|].
        destruct ev; cbn in Hev; try contradiction; cbn [existsb e_cabecalho e_nenhum];
          rewrite ?IH1, ?IH2; split; reflexivity. }
      destruct Hn as [Hn1 Hn2]. unfold achados. rewrite Hn1, Hn2, Hrel, orb_false_r.
      split; [reflexivity|]. split; [reflexivity|].
      split; [discriminate | reflexivity].
    + revert Hl. apply para_cada_rel.
      * apply achados_nada.
      * apply achados_seguido.
      * intros s x s' t' _. apply exibir_grupo_achados.
  - intros H. injection H as <- <-. apply achados_nada.
Qed.

(** The closing line of [exibir_duplicados] is there exactly when no
    header is. *)
Lemma exibir_duplicados_achados (arquivos : unordered_map) (r : Z * Z)
    (t : list evento) :
  exibir_duplicados m arquivos = (Ok r, t) ->
  existsb e_nenhum t = negb (existsb e_cabecalho t) /\
  (existsb e_cabecalho t = false -> relatados t = []) /\
  (existsb e_cabecalho t = true -> 2 <= length (relatados t)).
Proof.
  intros H. destruct (exibir_duplicados_desdobrado m arquivos r t H)
    as (v & t1 & Hl & _ & ->).
  assert (Ha : achados (mkLocais false 0 0) t1 v).
  { revert Hl. apply para_cada_rel.
    - apply achados_nada.
    - apply achados_seguido.
    - intros s x s' t' _. apply exibir_nome_achados. }
  destruct Ha as (He & Hn & Hs & Hf). cbn [encontrouDuplicados orb] in He.
  rewrite !existsb_app, relatados_app, Hf, He.
  destruct (existsb e_cabecalho t1); cbn [negb existsb app orb]; rewrite ?app_nil_r;
    auto.
Qed.

End Fecho.





(** X7. The number of listed paths is never 1: when the report returns a
    count of at least 1 (below [2^31] listed paths) it is at least 2, and
    the estimate [bytes - bytes / total] that [main] prints lies between
    half of the listed bytes, rounded up, and all of them. *)
Theorem estimativa_limites (m : Mundo) (arquivos : unordered_map)
    (bytes total : Z) (t : list evento) :
  exibir_duplicados m arquivos = (Ok (bytes, total), t) ->
  (1 <= total)%Z ->
  (Z.of_nat (length (relatados t)) < 2 ^ 31)%Z ->
  (2 <= total /\
   bytes - bytes / 2 <= bytes - bytes / total <= bytes)%Z.
Proof.
  intros Hex H1 Hlim.
  destruct (exibir_duplicados_achados m arquivos _ t Hex) as (_ & Hvaz & Hdois).
  destruct (exibir_duplicados_totais m arquivos bytes total t Hex) as (Hb & Htot & _).
  assert (Hc : total = Z.of_nat (length (relatados t))).
  { rewrite Htot, int_pequeno, size_t_pequeno; [reflexivity | | lia].
    split; [lia|]. transitivity (2 ^ 31)%Z; [exact Hlim | reflexivity]. }
  assert (H2 : (2 <= total)%Z).
  { destruct (existsb e_cabecalho t) eqn:E.
    - specialize (Hdois eq_refl). lia.
    - rewrite (Hvaz eq_refl) in Hc. cbn in Hc. lia. }
  split; [exact H2|].
  assert (H0 : (0 <= bytes)%Z).
  { rewrite Hb. unfold size_t. apply Z.mod_pos_bound. reflexivity. }
  assert (Hq : (0 <= bytes / total <= bytes / 2)%Z).
  { split; [apply Z.div_pos; lia|].
    apply Z.div_le_compat_l; lia. }
  lia.
Qed.

Lemma estimativa_limites_witness :
  (2 <= 4 /\ 20 - 20 / 2 <= 20 - 20 / 4 <= 20)%Z.
Proof.
  apply (estimativa_limites mundo_ao_contrario
           [("x.txt", [a_x; b_x]); ("y.txt", [a_y; b_y])]%string
           20 4
           [EvAbrir a_y; EvAbrir b_y;
            Cout "Arquivos duplicados encontrados para o nome: y.txt";
            Cout " - ./a/y.txt"; EvFileSize a_y;
            Cout " - ./b/y.txt"; EvFileSize b_y;
            EvAbrir a_x; EvAbrir b_x;
            Cout "Arquivos duplicados encontrados para o nome: x.txt";
            Cout " - ./a/x.txt"; EvFileSize a_x;
            Cout " - ./b/x.txt"; EvFileSize b_x]%string).
  - vm_compute. reflexivity.
  - discriminate.
  - reflexivity.
Defined.

(* ===================================================================== *)
(** ** Beyond soundness: the loop over buffers *)
(* ===================================================================== *)

Lemma firstn_soma {A : Type} (n k : nat) (l : list A) :
  n <= length l ->
  firstn (n + k) l = firstn n l ++ firstn k (skipn n l).
Proof.
  intros Hn. rewrite <- (firstn_skipn n l) at 1.
  assert (Hl : length (firstn n l) = n) by (rewrite length_firstn; lia).
  rewrite <- Hl at 1. apply firstn_app_2.
Qed.

(** X8. The loop of [calcularHash] reads the stream to its end.  With
    [n] bytes to read it leaves nothing unread and the stream failed;
    [gcount] is [n mod bufferSize]; the hash object has absorbed the full
    buffers, that is the first [n - n mod bufferSize] bytes; and the rest
    of the bytes are at the start of the buffer, for the [Update] that
    follows the loop. *)
Theorem ler_blocos_esgota (hash : Sha256.SHA256) (arquivo : ifstream)
    (buffer : list byte) :
  let n := length (restante arquivo) in
  let cheios := n - n mod bufferSize in
  restante (snd (fst (ler_blocos hash arquivo buffer))) = [] /\
  good (snd (fst (ler_blocos hash arquivo buffer))) = false /\
  gcount (snd (fst (ler_blocos hash arquivo buffer))) = n mod bufferSize /\
  fst (fst (ler_blocos hash arquivo buffer))
    = Sha256.Update hash (firstn cheios (restante arquivo)) /\
  firstn (n mod bufferSize) (snd (ler_blocos hash arquivo buffer))
    = skipn cheios (restante arquivo).
Proof.
  cbv zeta. remember (length (restante arquivo)) as n eqn:Hn.
  revert hash arquivo buffer Hn.
  induction n as [n IH] using lt_wf_ind. intros hash arquivo buffer Hn.
  pose proof bufferSize_pos as Hpos.
  rewrite ler_blocos_eq. cbv zeta.
  pose proof (read_buffer arquivo buffer bufferSize) as Hr.
  pose proof (read_consome arquivo buffer bufferSize Hpos) as Hc.
  assert (Hg : good (fst (read arquivo buffer bufferSize))
               = (length (firstn bufferSize (restante arquivo)) =? bufferSize))
    by reflexivity.
  assert (Hgc : gcount (fst (read arquivo buffer bufferSize))
                = length (firstn bufferSize (restante arquivo)))
    by reflexivity.
  destruct (read arquivo buffer bufferSize) as [a b]. cbn [fst snd] in *.
  destruct Hr as [Hb Hs]. rewrite length_firstn in Hg, Hgc.
  destruct (good a) eqn:Ega.
  - (* a full buffer was read *)
    symmetry in Hg. apply Nat.eqb_eq in Hg.
    assert (Hge : bufferSize <= n) by lia.
    assert (Hn' : length (restante a) = n - bufferSize).
    { rewrite Hs, length_skipn. lia. }
    destruct (IH (n - bufferSize) ltac:(lia)
                 (Sha256.Update hash (firstn (gcount a) b)) a b (eq_sym Hn'))
      as (I1 & I2 & I3 & I4 & I5).
    assert (Hmod : (n - bufferSize) mod bufferSize = n mod bufferSize).
    { rewrite <- (Nat.Div0.mod_add (n - bufferSize) 1 bufferSize).
      f_equal. lia. }
    pose proof (Nat.Div0.mod_le (n - bufferSize) bufferSize) as Hle.
    rewrite Hmod in *.
    assert (Hcheios : n - n mod bufferSize
                      = bufferSize + (n - bufferSize - n mod bufferSize)) by lia.
    split; [exact I1|]. split; [exact I2|]. split; [exact I3|]. split.
    + rewrite I4, Hb, Hs, <- Sha256Fatos.Update_app, Hcheios.
      rewrite firstn_soma by lia. reflexivity.
    + rewrite I5, Hs, skipn_skipn, Hcheios. f_equal. lia.
  - (* the stream held less than a buffer *)
    symmetry in Hg. apply Nat.eqb_neq in Hg.
    assert (Hlt : n < bufferSize) by lia.
    rewrite (Nat.mod_small n bufferSize Hlt), Nat.sub_diag.
    cbn [firstn skipn fst snd]. split; [|split; [exact Ega|split; [|split]]].
    + rewrite Hs. apply skipn_all2. lia.
    + rewrite Hgc. lia.
    + reflexivity.
    + replace n with (gcount a) at 1 by lia. rewrite Hb.
      apply firstn_all2. lia.
Qed.

(* ===================================================================== *)
(** ** Beyond soundness: messages and the order of events *)
(* ===================================================================== *)

(** What was sent to [std::cerr], in order. *)
Fixpoint mensagens (t : list evento) : list string :=
  match t with
  | [] => []
  | Cerr s :: r => s :: mensagens r
  | _ :: r => mensagens r
  end.

Lemma mensagens_app (t1 t2 : list evento) :
  mensagens (t1 ++ t2) = mensagens t1 ++ mensagens t2.
Proof.
  induction t1 as [|ev t1 IH]; cbn [app mensagens]; [reflexivity|].
  destruct ev; rewrite IH; reflexivity.
Qed.

Definition nao_abre (m : Mundo) (p : caminho) : bool :=
  match abrir m p with
  | Some _ => false
  | None => true
  end.

Section Ordem.
Variable m : Mundo.

(** A property of sequences of events that holds of what is done for each
    name holds of the report. *)
Lemma exibir_duplicados_por_nome (T : list evento -> Prop) (arquivos : unordered_map) :
  fechado T ->
  (forall v nome caminhos,
     In (nome, caminhos) arquivos -> T (rastro (exibir_nome m v (nome, caminhos)))) ->
  T [Cout "Nenhum arquivo duplicado encontrado."] ->
  T (rastro (exibir_duplicados m arquivos)).
Proof.
  intros HT Hnome Hnenhum. unfold exibir_duplicados.
  apply fechado_bind; [exact HT | |].
  - apply fechado_para_cada; [exact HT|].
    intros v [nome caminhos] Hin. apply Hnome.
    exact (Permutation_in _ (ordem_permuta m arquivos) Hin).
  - intros v _. apply fechado_bind; [exact HT | | intros; apply HT].
    destruct (negb (encontrouDuplicados v)); [exact Hnenhum | apply HT].
Qed.

(** What is done for a name with two paths or more: hashing, then the
    groups. *)
Lemma exibir_nome_rastro (v : locais) (nome : string) (caminhos : list caminho) :
  rastro (exibir_nome m v (nome, caminhos)) = [] \/
  exists t2,
    rastro (exibir_nome m v (nome, caminhos))
      = rastro (agrupar_por_hash m caminhos) ++ t2 /\
    Forall (fun ev => exists h ps, grupo_de m caminhos h ps /\
                                   (ev = Cout (cabecalho nome) \/ item_de ps ev)) t2.
Proof.
  unfold exibir_nome. destruct (1 <? length caminhos); [right | left; reflexivity].
  rewrite rastro_bind, agrupar_por_hash_valor.
  eexists. split; [reflexivity|].
  apply fechado_para_cada; [apply fechado_Forall|].
  intros v' ps Hps. apply in_map_iff in Hps as [[h ps'] [Heq Hps]].
  cbn [snd] in Heq. subst ps'.
  apply (Permutation_in _ (ordem_permuta m _)) in Hps.
  pose proof (agrupar_por_hash_grupos m caminhos _
                (agrupar_por_hash_valor m caminhos) h ps Hps) as Hg.
  destruct (exibir_grupo_rastro m nome v' ps) as [->|[its [-> Hit]]];
    [constructor|].
  constructor; [exists h, ps; auto|].
  eapply Forall_impl; [|exact Hit]. intros ev Hev. exists h, ps. auto.
Qed.

Definition avisos_certos (t : list evento) : Prop :=
  mensagens t = map ao_abrir (filter (nao_abre m) (abertos t)).

Lemma avisos_certos_fechado : fechado avisos_certos.
Proof.
  split; [reflexivity|]. unfold avisos_certos. intros t1 t2 H1 H2.
  rewrite mensagens_app, abertos_app, filter_app, map_app, H1, H2. reflexivity.
Qed.

Lemma avisos_certos_silencio (t : list evento) :
  mensagens t = [] -> abertos t = [] -> avisos_certos t.
Proof. unfold avisos_certos. intros -> ->. reflexivity. Qed.

Lemma agrupar_por_hash_avisos (caminhos : list caminho) :
  avisos_certos (rastro (agrupar_por_hash m caminhos)).
Proof.
  unfold agrupar_por_hash.
  apply fechado_para_cada; [apply avisos_certos_fechado|].
  intros s p _. rewrite agrupar_turno. unfold avisos_certos.
  destruct (abrir m p) as [c|] eqn:Ha.
  - rewrite (calcularHash_aberto m p c Ha).
    cbn [rastro snd mensagens abertos filter]. unfold nao_abre. rewrite Ha.
    reflexivity.
  - rewrite (calcularHash_fechado m p Ha).
    cbn [rastro snd mensagens abertos filter]. unfold nao_abre. rewrite Ha.
    reflexivity.
Qed.

Lemma exibir_duplicados_avisos (arquivos : unordered_map) :
  avisos_certos (rastro (exibir_duplicados m arquivos)).
Proof.
  apply exibir_duplicados_por_nome;
    [apply avisos_certos_fechado | | reflexivity].
  intros v nome caminhos _.
  destruct (exibir_nome_rastro v nome caminhos) as [->|[t2 [-> Ht2]]];
    [reflexivity|].
  apply avisos_certos_fechado; [apply agrupar_por_hash_avisos|].
  apply avisos_certos_silencio.
  - induction Ht2 as [|ev t2 (h & ps & _ & Hev) _ IH]; [reflexivity|].
    destruct Hev as [->|Hev]; [exact IH|].
    destruct ev; cbn in Hev; try contradiction; exact IH.
  - induction Ht2 as [|ev t2 (h & ps & _ & Hev) _ IH]; [reflexivity|].
    destruct Hev as [->|Hev]; [exact IH|].
    destruct ev; cbn in Hev; try contradiction; exact IH.
Qed.

(** X9. In every run, ended or aborted, what goes to [std::cerr] is one
    message for each file that was opened and did not open, in the order
    of the attempts, each naming its path; nothing else is ever written
    there. *)
Theorem avisos_de_abertura (pastaRaiz : caminho) :
  mensagens (rastro (main m pastaRaiz))
  = map ao_abrir (filter (nao_abre m) (abertos (rastro (main m pastaRaiz)))).
Proof.
  change (avisos_certos (rastro (main m pastaRaiz))).
  apply main_forma; try reflexivity.
  - apply avisos_certos_fechado.
  - intros arquivos _. apply exibir_duplicados_avisos.
Qed.

(** Sizes are asked only of files opened before. *)
Definition aberto_antes (t : list evento) : Prop :=
  forall antes depois p,
    t = antes ++ EvFileSize p :: depois ->
    In (EvAbrir p) antes /\ abrir m p <> None.

Lemma aberto_antes_fechado : fechado aberto_antes.
Proof.
  split.
  - intros antes depois p H. destruct antes; discriminate H.
  - intros t1 t2 H1 H2 antes depois p Heq.
    apply app_eq_app in Heq. destruct Heq as [l [[-> Heq]|[-> ->]]].
    + destruct l as [|ev l].
      * cbn [app] in Heq. destruct (H2 [] depois p (eq_sym Heq)) as [[] _].
      * cbn [app] in Heq. injection Heq as <- ->.
        apply (H1 antes l p). reflexivity.
    + destruct (H2 l depois p eq_refl) as [Hin Ha]. split; [|exact Ha].
      apply in_or_app. right. exact Hin.
Qed.

Lemma aberto_antes_sem_tamanho (t : list evento) :
  relatados t = [] -> aberto_antes t.
Proof.
  intros Hr antes depois p ->. rewrite relatados_app in Hr.
  apply app_eq_nil in Hr as [_ Hr]. discriminate Hr.
Qed.

Lemma exibir_nome_aberto_antes (v : locais) (nome : string) (caminhos : list caminho) :
  aberto_antes (rastro (exibir_nome m v (nome, caminhos))).
Proof.
  destruct (exibir_nome_rastro v nome caminhos) as [->|[t2 [-> Ht2]]];
    [apply aberto_antes_fechado|].
  destruct (agrupar_por_hash_abertos m caminhos) as [Hab Hrel].
  set (t1 := rastro (agrupar_por_hash m caminhos)) in *.
  assert (Hdentro : forall p, In (EvFileSize p) t2 ->
            In (EvAbrir p) t1 /\ abrir m p <> None).
  { intros p Hin. rewrite Forall_forall in Ht2.
    destruct (Ht2 _ Hin) as (h & ps & [Hne Hps] & [H|H]); [discriminate H|].
    cbn in H. destruct (Hps p H) as [Hc Hh]. split.
    - apply abertos_In. rewrite Hab. exact Hc.
    - intros Hnone. apply Hne. rewrite <- Hh. unfold hash_de. rewrite Hnone.
      reflexivity. }
  intros antes depois p Heq.
  apply app_eq_app in Heq. destruct Heq as [l [[Ht1 Heq]|[-> ->]]].
  - destruct l as [|ev l].
    + cbn [app] in Heq. rewrite app_nil_r in Ht1. subst antes.
      apply Hdentro. rewrite <- Heq. left. reflexivity.
    + exfalso. cbn [app] in Heq. injection Heq as <- _.
      assert (Hin : In p (relatados t1)).
      { apply relatados_In. rewrite Ht1. apply in_or_app. right. left. reflexivity. }
      rewrite Hrel in Hin. exact Hin.
  - destruct (Hdentro p) as [Hin Ha].
    + apply in_or_app. right. left. reflexivity.
    + split; [|exact Ha]. apply in_or_app. left. exact Hin.
Qed.

(** X10. In every run, ended or aborted, the size of a path is asked only
    after that path was opened for hashing earlier in the run, and only if
    it did open. *)
Theorem tamanho_so_depois_do_hash (pastaRaiz : caminho)
    (antes depois : list evento) (p : caminho) :
  rastro (main m pastaRaiz) = antes ++ EvFileSize p :: depois ->
  In (EvAbrir p) antes /\ abrir m p <> None.
Proof.
  revert antes depois p. change (aberto_antes (rastro (main m pastaRaiz))).
  apply main_forma.
  - apply aberto_antes_fechado.
  - apply aberto_antes_sem_tamanho. reflexivity.
  - apply aberto_antes_sem_tamanho. reflexivity.
  - apply aberto_antes_sem_tamanho. reflexivity.
  - intros arquivos _. apply exibir_duplicados_por_nome.
    + apply aberto_antes_fechado.
    + intros v nome caminhos _. apply exibir_nome_aberto_antes.
    + apply aberto_antes_sem_tamanho. reflexivity.
  - intros bytes. apply aberto_antes_sem_tamanho. reflexivity.
Qed.

End Ordem.

Lemma tamanho_so_depois_do_hash_witness :
  In (EvAbrir b_x)
     [Cout "Localizar duplicatas!"; Cout "Informe pasta raiz: ";
      EvExists raiz; EvIterar raiz; EvAbrir a_x; EvAbrir b_x;
      Cout "Arquivos duplicados encontrados para o nome: x.txt";
      Cout " - ./a/x.txt"; EvFileSize a_x; Cout " - ./b/x.txt"] /\
  abrir some_depois b_x <> None.
Proof.
  apply (tamanho_so_depois_do_hash some_depois raiz _ []).
  vm_compute. reflexivity.
Defined.

(* ===================================================================== *)
(** ** Beyond soundness: the digest as a string *)
(* ===================================================================== *)

(** The value of a digit of [HexEncoder]. *)
Definition valor_hex (c : ascii) : Z :=
  let n := Z.of_nat (nat_of_ascii c) in
  if (n <? 58)%Z then (n - 48)%Z else (n - 55)%Z.

(** Back from the digits to the bytes. *)
Fixpoint HexDecoder (s : string) : list byte :=
  match s with
  | String a (String b r) =>
      Sha256.Zbyte (16 * valor_hex a + valor_hex b) :: HexDecoder r
  | _ => []
  end.

Lemma HexDecoder_byte (b : byte) :
  Sha256.Zbyte
    (16 * valor_hex (Sha256.digito_hex (Sha256.byteZ b / 16))
     + valor_hex (Sha256.digito_hex (Sha256.byteZ b mod 16))) = b.
Proof. destruct b; vm_compute; reflexivity. Qed.

Lemma HexDecoder_HexEncoder (bs : list byte) :
  HexDecoder (Sha256.HexEncoder bs) = bs.
Proof.
  induction bs as [|b bs IH]; [reflexivity|].
  cbn [Sha256.HexEncoder HexDecoder]. rewrite HexDecoder_byte, IH. reflexivity.
Qed.

(** X11. The string [calcularHash] returns loses nothing of the digest:
    two files that open get the same string exactly when the SHA-256
    digests of their contents are the same 32 bytes. *)
Theorem mesma_string_mesmo_digest (m1 m2 : Mundo) (p1 p2 : caminho)
    (c1 c2 : list byte) :
  abrir m1 p1 = Some c1 -> abrir m2 p2 = Some c2 ->
  (valor (calcularHash m1 p1) = valor (calcularHash m2 p2)
   <-> Sha256.sha256 c1 = Sha256.sha256 c2).
Proof.
  intros H1 H2.
  rewrite (calcularHash_aberto m1 p1 c1 H1), (calcularHash_aberto m2 p2 c2 H2).
  unfold digest_de. rewrite !Sha256Fatos.Final_Update_sha256. cbn [valor fst].
  split.
  - intros H.
    assert (He : Sha256.HexEncoder (Sha256.sha256 c1)
                 = Sha256.HexEncoder (Sha256.sha256 c2)).
    { exact (f_equal (fun r => match r with Ok s => s | Excecao _ => EmptyString end)
                     H). }
    apply (f_equal HexDecoder) in He.
    rewrite !HexDecoder_HexEncoder in He. exact He.
  - intros ->. reflexivity.
Qed.

Lemma mesma_string_mesmo_digest_witness :
  valor (calcularHash (estavel cenarioA) a_x)
    = valor (calcularHash (estavel cenarioC) b_y)
  <-> Sha256.sha256 hello = Sha256.sha256 hello.
Proof.
  apply (mesma_string_mesmo_digest (estavel cenarioA) (estavel cenarioC) a_x b_y);
    reflexivity.
Defined.

(* ===================================================================== *)
(** ** Beyond soundness: the walk *)
(* ===================================================================== *)

(** X12. A root that is a directory, below which the walk meets no regular
    file, as an empty directory or one that may not be listed, when no
    directory fails to open and the status of every entry can be had: the
    run says that nothing was found and [main] returns 0, without opening
    any file. *)
Theorem raiz_sem_arquivos (m : Mundo) (pastaRaiz : caminho)
    (permitido : bool) (filhos : list (string * no)) :
  resolver (arvore m) pastaRaiz = Some (Diretorio permitido filhos) ->
  (forall p, falha_ao_listar m p = false) ->
  com_status (descendentes pastaRaiz (Diretorio permitido filhos)) ->
  regulares (descendentes pastaRaiz (Diretorio permitido filhos)) = [] ->
  executar m pastaRaiz =
  (Saida 0,
   preambulo pastaRaiz
     ++ [EvIterar pastaRaiz; Cout "Nenhum arquivo duplicado encontrado."]).
Proof.
  intros Hr Hf Hs Hvazio. unfold executar. rewrite main_eq.
  rewrite (proj1 (resolver_status _ _ _) Hr).
  pose proof (obter_arquivos_duplicados_rastro m pastaRaiz) as Ht.
  assert (Hv : valor (obter_arquivos_duplicados m pastaRaiz) = Ok []).
  { pose proof (recursive_directory_iterator_diretorio m pastaRaiz permitido filhos
                  Hr (Hf pastaRaiz)) as Hit.
    rewrite (interromper_sem_falha m _ Hf) in Hit.
    apply (obter_arquivos_duplicados_completa m pastaRaiz _ Hit).
    split; [split; [reflexivity | exact Hs]|].
    cbn [entregues]. rewrite (registrar_arquivar _ _ Hs), Hvazio. reflexivity. }
  destruct (obter_arquivos_duplicados m pastaRaiz) as [r t1].
  cbn [valor fst rastro snd] in *. subst r t1.
  rewrite (exibir_duplicados_unicos m []); [reflexivity|].
  intros ? ? [].
Qed.

Lemma raiz_sem_arquivos_witness :
  executar (estavel fechada) ["fechada"%string] =
  (Saida 0,
   preambulo ["fechada"%string]
     ++ [EvIterar ["fechada"%string]; Cout "Nenhum arquivo duplicado encontrado."]).
Proof.
  apply (raiz_sem_arquivos (estavel fechada) ["fechada"%string]
           false [("x.txt"%string, arquivo_com hello)]).
  - reflexivity.
  - intros p. reflexivity.
  - constructor.
  - reflexivity.
Defined.

(** [n] is found at [rel] below a directory, going only through
    directories that may be listed. *)
Inductive alcanca : no -> caminho -> no -> Prop :=
| alcanca_filho (filhos : list (string * no)) (nome : string) (f : no) :
    In (nome, f) filhos ->
    alcanca (Diretorio true filhos) [nome] f
| alcanca_abaixo (filhos : list (string * no)) (nome : string) (f : no)
    (rel : caminho) (n : no) :
    In (nome, f) filhos ->
    alcanca f rel n ->
    alcanca (Diretorio true filhos) (nome :: rel) n.

Lemma descendentes_eq (base : caminho) (filhos : list (string * no)) :
  descendentes base (Diretorio true filhos) =
  flat_map (fun nf => mkEntrada (base ++ [fst nf]) (tipo_de (snd nf))
                        :: descendentes (base ++ [fst nf]) (snd nf)) filhos.
Proof.
  cbn [descendentes].
  induction filhos as [|[nome f] r IH]; [reflexivity|].
  cbn [flat_map fst snd]. rewrite <- IH. reflexivity.
Qed.

Lemma no_ind_forte (P : no -> Prop) :
  (forall legivel conteudo, P (Regular legivel conteudo)) ->
  (forall permitido filhos,
     (forall nome f, In (nome, f) filhos -> P f) -> P (Diretorio permitido filhos)) ->
  P Outro ->
  P Laco ->
  forall n, P n.
Proof.
  intros Hreg Hdir Hout Hlaco. fix IH 1. intros [legivel conteudo|permitido filhos| |].
  - apply Hreg.
  - apply Hdir. induction filhos as [|[nm g] r IHr]; intros nome f Hin.
    + destruct Hin.
    + destruct Hin as [Heq|Hin].
      * injection Heq as _ <-. apply IH.
      * exact (IHr nome f Hin).
  - exact Hout.
  - exact Hlaco.
Qed.

(** The entries of the walk are what can be reached. *)
Lemma descendentes_alcanca (t : no) :
  forall base e,
    In e (descendentes base t) <->
    exists rel n, alcanca t rel n /\ e = mkEntrada (base ++ rel) (tipo_de n).
Proof.
  induction t as [legivel conteudo|permitido filhos IH| |] using no_ind_forte;
    intros base e.
  - split; [intros [] | intros (rel & n & H & _); inversion H].
  - destruct permitido.
    2: { split; [intros [] | intros (rel & n & H & _); inversion H]. }
    rewrite descendentes_eq, in_flat_map. split.
    + intros ([nome f] & Hin & He). cbn [fst snd] in He.
      destruct He as [<-|He].
      * exists [nome], f. split; [constructor; exact Hin | reflexivity].
      * apply (IH nome f Hin) in He. destruct He as (rel & n & Hal & ->).
        exists (nome :: rel), n. split.
        -- apply (alcanca_abaixo filhos nome f); assumption.
        -- rewrite <- app_assoc. reflexivity.
    + intros (rel & n & Hal & ->). inversion Hal; subst.
      * match goal with
        | Hin : In (?nome, ?f) filhos |- _ =>
            exists (nome, f); split; [exact Hin|]; left; reflexivity
        end.
      * match goal with
        | Hin : In (?nome, ?f) filhos, Hsub : alcanca ?f ?rel' n |- _ =>
            exists (nome, f); split; [exact Hin|]; right; cbn [fst snd];
            apply (IH nome f Hin); exists rel', n; split; [exact Hsub|];
            rewrite <- app_assoc; reflexivity
        end.
  - split; [intros [] | intros (rel & n & H & _); inversion H].
  - split; [intros [] | intros (rel & n & H & _); inversion H].
Qed.

(** X13. The paths in the index [obter_arquivos_duplicados] returns are
    exactly the regular files found below the root going only through
    directories that may be listed: what lies below a directory that may
    not be listed, and what is not a regular file, is left out. *)
Theorem indice_da_arvore (m : Mundo) (pastaRaiz : caminho) (t : no)
    (arquivos : unordered_map) :
  resolver (arvore m) pastaRaiz = Some t ->
  valor (obter_arquivos_duplicados m pastaRaiz) = Ok arquivos ->
  forall p,
    (exists nome caminhos, In (nome, caminhos) arquivos /\ In p caminhos) <->
    (exists rel legivel conteudo,
       alcanca t rel (Regular legivel conteudo) /\ p = pastaRaiz ++ rel).
Proof.
  intros Hr Hv p.
  destruct (valor (recursive_directory_iterator m pastaRaiz)) as [iterador|e] eqn:Hit.
  2: { rewrite obter_arquivos_duplicados_eq, valor_bind, Hit in Hv. discriminate Hv. }
  rewrite (obter_arquivos_duplicados_arquivar m pastaRaiz iterador arquivos Hit Hv).
  apply (obter_arquivos_duplicados_completa m pastaRaiz iterador Hit) in Hv.
  destruct Hv as [[Hf _] _].
  destruct (recursive_directory_iterator_retorna m pastaRaiz iterador Hit)
    as (permitido & filhos & Hr' & _ & ->).
  rewrite Hr in Hr'. injection Hr' as ->.
  rewrite (interromper_inteira m _ Hf).
  set (entradas := descendentes pastaRaiz (Diretorio permitido filhos)).
  assert (Hnd : NoDup (chaves (fold_left (arquivar (fun q => Some (filename q)))
                                         (regulares entradas) [])))
    by (apply arquivar_NoDup; constructor).
  assert (Hind : (exists nome caminhos,
                    In (nome, caminhos)
                       (fold_left (arquivar (fun q => Some (filename q)))
                                  (regulares entradas) []) /\ In p caminhos)
                 <-> In p (regulares entradas)).
  { split.
    - intros (nome & caminhos & Hin & Hp).
      apply (consulta_In _ _ _ Hnd) in Hin.
      rewrite (arquivar_consulta (fun q => Some (filename q))) in Hin.
      destruct (filter _ (regulares entradas)) as [|x l] eqn:Hfl; [discriminate Hin|].
      cbn [nao_vazia] in Hin. injection Hin as <-. rewrite <- Hfl in Hp.
      apply filter_In in Hp. exact (proj1 Hp).
    - intros Hp.
      exists (filename p),
             (filter (fun q => String.eqb (filename q) (filename p)) (regulares entradas)).
      assert (Hfl : In p (filter (fun q => String.eqb (filename q) (filename p))
                                 (regulares entradas))).
      { apply filter_In. split; [exact Hp | apply String.eqb_refl]. }
      split; [|exact Hfl].
      apply (consulta_In _ _ _ Hnd).
      rewrite (arquivar_consulta (fun q => Some (filename q))).
      apply (nao_vazia_In p), Hfl. }
  apply (iff_trans Hind). clear Hind Hnd.
  unfold regulares. rewrite in_map_iff. split.
  - intros (e & <- & He). apply filter_In in He as [He Hreg].
    apply descendentes_alcanca in He. destruct He as (rel & n & Hal & ->).
    cbn [arquivo_regular tipo path] in *.
    destruct n as [legivel conteudo| | |]; try discriminate Hreg.
    exists rel, legivel, conteudo. auto.
  - intros (rel & legivel & conteudo & Hal & ->).
    exists (mkEntrada (pastaRaiz ++ rel) regular). split; [reflexivity|].
    apply filter_In. split; [|reflexivity].
    apply descendentes_alcanca. exists rel, (Regular legivel conteudo). auto.
Qed.

Lemma indice_da_arvore_witness :
  (exists nome caminhos,
     In (nome, caminhos) [("x.txt"%string, [a_x]); ("y.txt"%string, [b_y])] /\
     In b_y caminhos) <->
  (exists rel legivel conteudo,
     alcanca cenarioC rel (Regular legivel conteudo) /\ b_y = raiz ++ rel).
Proof.
  apply (indice_da_arvore (estavel cenarioC) raiz cenarioC
           [("x.txt"%string, [a_x]); ("y.txt"%string, [b_y])]); reflexivity.
Defined.

(* ===================================================================== *)
(** ** Beyond soundness: the runs that are aborted *)
(* ===================================================================== *)

(** A loop left by an exception was left by one of its turns. *)
Lemma para_cada_excecao {A S : Type} (l : list A) (corpo : S -> A -> M S) :
  forall s e t, para_cada l s corpo = (Excecao e, t) ->
  exists x s1 tx antes,
    In x l /\ corpo s1 x = (Excecao e, tx) /\ t = antes ++ tx.
Proof.
  induction l as [|x l IH]; intros s e t Hrun; [discriminate Hrun|].
  cbn [para_cada] in Hrun. unfold bind in Hrun.
  destruct (corpo s x) as [[s1|e1] t1] eqn:Hx.
  - destruct (para_cada l s1 corpo) as [r t2] eqn:Hl.
    injection Hrun as -> <-.
    destruct (IH s1 e t2 Hl) as (y & sy & ty & antes & Hin & Hy & ->).
    exists y, sy, ty, (t1 ++ antes). split; [right; exact Hin|].
    split; [exact Hy|]. apply app_assoc.
  - injection Hrun as <- <-. exists x, s, t1, [].
    split; [left; reflexivity|]. split; [exact Hx | reflexivity].
Qed.

Section Abortos.
Variable m : Mundo.

(** The end of a report that a size that cannot be had has aborted. *)
Definition parou_no_tamanho (e : excecao) (t : list evento) : Prop :=
  exists p antes,
    e = filesystem_error "cannot get file size" p /\
    t = antes ++ [EvFileSize p] /\
    tamanho m p = None.

Lemma parou_no_tamanho_depois (e : excecao) (t antes : list evento) :
  parou_no_tamanho e t -> parou_no_tamanho e (antes ++ t).
Proof.
  intros (p & a & He & -> & Hp). exists p, (antes ++ a).
  split; [exact He|]. split; [apply app_assoc | exact Hp].
Qed.

Lemma exibir_grupo_excecao (nome : string) (v : locais) (ps : list caminho)
    (e : excecao) (t : list evento) :
  exibir_grupo m nome v ps = (Excecao e, t) -> parou_no_tamanho e t.
Proof.
  unfold exibir_grupo. destruct (1 <? length ps); [|discriminate].
  cbn [cout emitir bind].
  destruct (para_cada ps v (exibir_caminho m)) as [[v1|e1] t1] eqn:Hl;
    cbn [bind ret]; intros H; [discriminate H|].
  injection H as <- <-.
  destruct (para_cada_excecao _ _ _ _ _ Hl) as (p & s1 & tx & antes & _ & Hx & ->).
  rewrite exibir_caminho_eq in Hx.
  destruct (tamanho m p) eqn:Hp; [discriminate Hx|].
  injection Hx as <- <-.
  exists p, ([Cout (cabecalho nome)] ++ antes ++ [Cout (item p)]).
  split; [reflexivity|]. split; [|exact Hp].
  rewrite <- !app_assoc. reflexivity.
Qed.

Lemma exibir_duplicados_excecao (arquivos : unordered_map) (e : excecao)
    (t : list evento) :
  exibir_duplicados m arquivos = (Excecao e, t) -> parou_no_tamanho e t.
Proof.
  unfold exibir_duplicados.
  destruct (para_cada (ordem m arquivos) _ (exibir_nome m)) as [[v|e1] t1] eqn:Hl;
    cbn [bind].
  - destruct (negb (encontrouDuplicados v)); cbn; discriminate.
  - intros H. injection H as <- <-.
    destruct (para_cada_excecao _ _ _ _ _ Hl)
      as ([nome caminhos] & s1 & tx & antes & _ & Hx & ->).
    apply parou_no_tamanho_depois.
    unfold exibir_nome in Hx. destruct (1 <? length caminhos); [|discriminate Hx].
    pose proof (agrupar_por_hash_valor m caminhos) as Hv.
    destruct (agrupar_por_hash m caminhos) as [r th].
    cbn [valor fst] in Hv. subst r. cbn [bind] in Hx.
    destruct (para_cada _ s1 (exibir_grupo m nome)) as [r tg] eqn:Hg.
    injection Hx as -> <-.
    apply parou_no_tamanho_depois.
    destruct (para_cada_excecao _ _ _ _ _ Hg) as (ps & s2 & ty & a & _ & Hy & ->).
    apply parou_no_tamanho_depois.
    exact (exibir_grupo_excecao nome s2 ps _ ty Hy).
Qed.

(** What is delivered of a walk was in it. *)
Lemma interromper_entregues (l : list directory_entry) (x : directory_entry) :
  In x (entregues (interromper m l)) -> In x l.
Proof.
  induction l as [|y l IH]; cbn [interromper]; [intros []|].
  destruct (ao_incrementar m y); cbn [entregues In]; intros [H|H]; auto.
  destruct H.
Qed.

(** A walk ends before its time at a directory that fails to open. *)
Lemma interromper_falha (l : list directory_entry) (e : excecao) :
  falha (interromper m l) = Some e ->
  exists entrada,
    In entrada l /\ tipo entrada = directory /\
    falha_ao_listar m (path entrada) = true /\
    e = filesystem_error "cannot increment recursive directory iterator"
                         (path entrada).
Proof.
  induction l as [|y l IH]; cbn [interromper]; [discriminate|].
  destruct (ao_incrementar m y) as [ey|] eqn:Hy; cbn [falha].
  - intros H. injection H as <-. exists y. unfold ao_incrementar in Hy.
    destruct (tipo y); try discriminate Hy.
    destruct (falha_ao_listar m (path y)); [|discriminate Hy].
    injection Hy as <-. split; [left; reflexivity | auto].
  - intros H. destruct (IH H) as (x & Hin & Hx). exists x.
    split; [right; exact Hin | exact Hx].
Qed.

(** The loop over the entries is left by an exception at an entry of
    which the status cannot be had. *)
Lemma registrar_excecao (entradas : list directory_entry) (arquivos : unordered_map)
    (e : excecao) :
  valor (para_cada entradas arquivos registrar) = Excecao e ->
  exists entrada,
    In entrada entradas /\ tipo entrada = none /\
    e = filesystem_error "status" (path entrada).
Proof.
  destruct (para_cada entradas arquivos registrar) as [r t] eqn:Hl.
  cbn [valor fst]. intros ->.
  destruct (para_cada_excecao _ _ _ _ _ Hl) as (x & s1 & tx & antes & Hin & Hx & _).
  exists x. split; [exact Hin|]. rewrite registrar_eq in Hx.
  destruct (tipo x); try discriminate Hx. injection Hx as <- _. auto.
Qed.

(** The ways in which the walk throws. *)
Lemma obter_arquivos_duplicados_excecao (pastaRaiz : caminho) (e : excecao) :
  valor (obter_arquivos_duplicados m pastaRaiz) = Excecao e ->
  (e = filesystem_error "recursive directory iterator cannot open directory"
                        pastaRaiz /\
   ((forall permitido filhos,
       resolver (arvore m) pastaRaiz <> Some (Diretorio permitido filhos)) \/
    falha_ao_listar m pastaRaiz = true)) \/
  (exists permitido filhos entrada,
     resolver (arvore m) pastaRaiz = Some (Diretorio permitido filhos) /\
     In entrada (descendentes pastaRaiz (Diretorio permitido filhos)) /\
     ((tipo entrada = none /\ e = filesystem_error "status" (path entrada)) \/
      (tipo entrada = directory /\ falha_ao_listar m (path entrada) = true /\
       e = filesystem_error "cannot increment recursive directory iterator"
                            (path entrada)))).
Proof.
  rewrite obter_arquivos_duplicados_eq, valor_bind.
  unfold recursive_directory_iterator.
  destruct (resolver (arvore m) pastaRaiz) as [[| permitido filhos | |]|] eqn:Hr;
    cbn [emitir bind ret throw valor fst];
    try (intros H; injection H as <-; left; split; [reflexivity|];
         left; intros ? ?; discriminate).
  destruct (falha_ao_listar m pastaRaiz) eqn:Hf; cbn [emitir bind ret throw valor fst].
  { intros H. injection H as <-. left. split; [reflexivity | right; reflexivity]. }
  set (l := descendentes pastaRaiz (Diretorio permitido filhos)).
  rewrite valor_bind.
  destruct (valor (para_cada (entregues (interromper m l)) [] registrar))
    as [arquivos|e1] eqn:Hl.
  - unfold encerrar. destruct (falha (interromper m l)) as [e2|] eqn:Hfim;
      cbn [throw ret valor fst]; [|discriminate].
    intros H. injection H as <-. right.
    destruct (interromper_falha l e2 Hfim) as (x & Hin & Hx).
    exists permitido, filhos, x. split; [reflexivity|]. split; [exact Hin|].
    right. exact Hx.
  - intros H. injection H as <-. right.
    destruct (registrar_excecao _ _ _ Hl) as (x & Hin & Hx).
    exists permitido, filhos, x. split; [reflexivity|].
    split; [exact (interromper_entregues l x Hin)|]. left. exact Hx.
Qed.

(** X14. A run is aborted in four ways only.  The existence test throws:
    [stat] cannot tell whether the root exists, and nothing was done but
    that test.  The iterator cannot be had: the root exists and is not a
    directory, or fails to open.  The walk is cut short: the status of an
    entry cannot be had, or a directory fails to open; no file was opened
    yet.  Or [file_size] could not give the size of a path it was asked:
    that question is the last thing the run did.  Nothing else aborts a
    run; a file that does not open never does. *)
Theorem formas_de_abortar (pastaRaiz : caminho) (e : excecao)
    (t : list evento) :
  executar m pastaRaiz = (Abortado e, t) ->
  (e = filesystem_error "status" pastaRaiz /\
   t = preambulo pastaRaiz /\
   exists motivo, status (arvore m) pastaRaiz = Erro motivo) \/
  (e = filesystem_error "recursive directory iterator cannot open directory"
                        pastaRaiz /\
   t = preambulo pastaRaiz ++ [EvIterar pastaRaiz] /\
   exists n, resolver (arvore m) pastaRaiz = Some n /\
             ((forall permitido filhos, n <> Diretorio permitido filhos) \/
              falha_ao_listar m pastaRaiz = true)) \/
  (t = preambulo pastaRaiz ++ [EvIterar pastaRaiz] /\
   exists permitido filhos entrada,
     resolver (arvore m) pastaRaiz = Some (Diretorio permitido filhos) /\
     In entrada (descendentes pastaRaiz (Diretorio permitido filhos)) /\
     ((tipo entrada = none /\ e = filesystem_error "status" (path entrada)) \/
      (tipo entrada = directory /\ falha_ao_listar m (path entrada) = true /\
       e = filesystem_error "cannot increment recursive directory iterator"
                            (path entrada)))) \/
  (exists p antes,
     e = filesystem_error "cannot get file size" p /\
     t = antes ++ [EvFileSize p] /\
     tamanho m p = None).
Proof.
  unfold executar. rewrite main_eq.
  destruct (status (arvore m) pastaRaiz) as [n| |motivo] eqn:Hs; [|discriminate|].
  2: { intros H. injection H as <- <-. left. split; [reflexivity|].
       split; [reflexivity | exists motivo; reflexivity]. }
  apply resolver_status in Hs.
  pose proof (obter_arquivos_duplicados_rastro m pastaRaiz) as Ht1.
  pose proof (obter_arquivos_duplicados_excecao pastaRaiz) as Hexc.
  destruct (obter_arquivos_duplicados m pastaRaiz) as [[arquivos|e1] t1];
    cbn [rastro snd valor fst] in *; subst t1.
  - destruct (exibir_duplicados m arquivos) as [[[bytes total]|e2] t2] eqn:Hex;
      [discriminate|].
    intros H. injection H as <- <-. right. right. right.
    change (parou_no_tamanho e2 (preambulo pastaRaiz ++ [EvIterar pastaRaiz] ++ t2)).
    apply parou_no_tamanho_depois, parou_no_tamanho_depois.
    exact (exibir_duplicados_excecao arquivos e2 t2 Hex).
  - intros H. injection H as <- <-. right.
    destruct (Hexc e1 eq_refl) as [[He Hporque]|Hcorte].
    + left. split; [exact He|]. split; [reflexivity|]. exists n.
      split; [exact Hs|]. destruct Hporque as [Hn|Hf]; [left | right; exact Hf].
      intros permitido filhos ->. exact (Hn permitido filhos Hs).
    + right. left. split; [reflexivity | exact Hcorte].
Qed.

End Abortos.

Lemma formas_de_abortar_witness :
  exists p antes,
    filesystem_error "cannot get file size" b_x
      = filesystem_error "cannot get file size" p /\
    [Cout "Localizar duplicatas!"; Cout "Informe pasta raiz: ";
     EvExists raiz; EvIterar raiz; EvAbrir a_x; EvAbrir b_x;
     Cout "Arquivos duplicados encontrados para o nome: x.txt";
     Cout " - ./a/x.txt"; EvFileSize a_x;
     Cout " - ./b/x.txt"; EvFileSize b_x] = antes ++ [EvFileSize p] /\
    tamanho some_depois p = None.
Proof.
  destruct (formas_de_abortar some_depois raiz
              (filesystem_error "cannot get file size" b_x)
              [Cout "Localizar duplicatas!"; Cout "Informe pasta raiz: ";
               EvExists raiz; EvIterar raiz; EvAbrir a_x; EvAbrir b_x;
               Cout "Arquivos duplicados encontrados para o nome: x.txt";
               Cout " - ./a/x.txt"; EvFileSize a_x;
               Cout " - ./b/x.txt"; EvFileSize b_x])
    as [(H & _)|[(H & _)|[(H & _)|H]]].
  - vm_compute. reflexivity.
  - discriminate H.
  - discriminate H.
  - discriminate H.
  - exact H.
Defined.

(* ===================================================================== *)
(** ** Beyond soundness: the estimate as it is printed *)
(* ===================================================================== *)









(* ===================================================================== *)
(** ** Beyond soundness: the exit status *)
(* ===================================================================== *)

(** The paths of an index are the paths that were filed. *)
Lemma arquivar_membros (l : list caminho) (p : caminho) :
  (exists nome caminhos,
     In (nome, caminhos) (fold_left (arquivar (fun q => Some (filename q))) l []) /\
     In p caminhos) -> In p l.
Proof.
  intros (nome & caminhos & Hin & Hp).
  apply consulta_In in Hin; [|apply arquivar_NoDup; constructor].
  rewrite (arquivar_consulta (fun q => Some (filename q))) in Hin.
  destruct (filter _ l) as [|x r] eqn:Hf; [discriminate Hin|].
  cbn [nao_vazia] in Hin. injection Hin as <-. rewrite <- Hf in Hp.
  apply filter_In in Hp. exact (proj1 Hp).
Qed.

(** X16. A root of which [stat] says that there is no such file, as the
    empty line: the output is the banner, the prompt and the one line that
    says so, [main] returns -1 (a status other than 0) and no iterator is
    asked for.  A root that [stat] finds: whenever [main] returns, it
    returns 0; and it does return when the root is a directory, no
    directory fails to open, the status of every entry can be had and the
    size of every regular file of the walk is at hand, with duplicates or
    without. *)
Theorem status_de_saida (m : Mundo) (pastaRaiz : caminho) :
  (status (arvore m) pastaRaiz = NaoAchou ->
   executar m pastaRaiz
     = (Saida (-1),
        [Cout "Localizar duplicatas!"; Cout "Informe pasta raiz: ";
         EvExists pastaRaiz; Cout "Pasta raiz não existe."]) /\
   ((-1) mod 256 <> 0)%Z) /\
  status (arvore m) [] = NaoAchou /\
  (resolver (arvore m) pastaRaiz <> None ->
   forall codigo t, executar m pastaRaiz = (Saida codigo, t) -> codigo = 0%Z) /\
  (forall permitido filhos,
     resolver (arvore m) pastaRaiz = Some (Diretorio permitido filhos) ->
     (forall p, falha_ao_listar m p = false) ->
     com_status (descendentes pastaRaiz (Diretorio permitido filhos)) ->
     (forall p, In p (regulares (descendentes pastaRaiz (Diretorio permitido filhos))) ->
                tamanho m p <> None) ->
     exists t, executar m pastaRaiz = (Saida 0, t)).
Proof.
  unfold executar. rewrite main_eq. split; [|split; [reflexivity|split]].
  - intros ->. split; [reflexivity | discriminate].
  - intros Hr codigo t. unfold resolver in Hr.
    destruct (status (arvore m) pastaRaiz) as [n| |motivo];
      [|contradiction|discriminate].
    destruct (obter_arquivos_duplicados m pastaRaiz) as [[arquivos|e] t1];
      [|discriminate].
    destruct (exibir_duplicados m arquivos) as [[[bytes total]|e] t2];
      [|discriminate].
    intros H. injection H as <- _. reflexivity.
  - intros permitido filhos Hr Hf Hs Ht.
    rewrite (proj1 (resolver_status _ _ _) Hr).
    pose proof (recursive_directory_iterator_diretorio m pastaRaiz permitido filhos
                  Hr (Hf pastaRaiz)) as Hit.
    rewrite (interromper_sem_falha m _ Hf) in Hit.
    destruct (obter_arquivos_duplicados_diretorio m pastaRaiz permitido filhos
                Hr Hf Hs) as [arquivos Hv].
    pose proof (obter_arquivos_duplicados_arquivar m pastaRaiz _ arquivos Hit Hv)
      as Ha.
    cbn [entregues] in Ha.
    destruct (obter_arquivos_duplicados m pastaRaiz) as [r t1].
    cbn [valor fst] in Hv. subst r.
    assert (Hsz : forall nome caminhos p,
              In (nome, caminhos) arquivos -> In p caminhos -> tamanho m p <> None).
    { intros nome caminhos p Hin Hp. apply Ht. apply arquivar_membros.
      exists nome, caminhos. rewrite <- Ha. auto. }
    destruct (exibir_duplicados_retorna m arquivos Hsz) as [[bytes total] He].
    destruct (exibir_duplicados m arquivos) as [r t2].
    cbn [valor fst] in He. subst r.
    eexists. reflexivity.
Qed.

Lemma status_de_saida_witness :
  (executar (estavel cenarioA) ["nada"%string]
     = (Saida (-1),
        [Cout "Localizar duplicatas!"; Cout "Informe pasta raiz: ";
         EvExists ["nada"%string]; Cout "Pasta raiz não existe."]) /\
   ((-1) mod 256 <> 0)%Z) /\
  (forall codigo t,
     executar (estavel cenarioB) raiz = (Saida codigo, t) -> codigo = 0%Z) /\
  (exists t, executar (estavel cenarioA) raiz = (Saida 0, t)).
Proof.
  split; [|split].
  - apply (proj1 (status_de_saida (estavel cenarioA) ["nada"%string])).
    reflexivity.
  - apply (proj1 (proj2 (proj2 (status_de_saida (estavel cenarioB) raiz)))).
    discriminate.
  - apply (proj2 (proj2 (proj2 (status_de_saida (estavel cenarioA) raiz)))
             true [("a", pasta [("x.txt", arquivo_com hello)]);
                   ("b", pasta [("x.txt", arquivo_com hello)])]%string).
    + reflexivity.
    + intros p. reflexivity.
    + repeat constructor; discriminate.
    + intros p [<-|[<-|[]]]; discriminate.
Defined.

(** The first entry of which the status cannot be had ends the loop. *)
Lemma registrar_sem_status (entradas : list directory_entry) :
  Exists (fun entrada => tipo entrada = none) entradas ->
  exists entrada,
    In entrada entradas /\ tipo entrada = none /\
    forall arquivos,
      para_cada entradas arquivos registrar
      = (Excecao (filesystem_error "status" (path entrada)), []).
Proof.
  induction entradas as [|x l IH]; intros Hex; [inversion Hex|].
  destruct (tipo x) eqn:Hx.
  4: { exists x. split; [left; reflexivity|]. split; [exact Hx|].
       intros arquivos. cbn [para_cada]. rewrite registrar_eq, Hx. reflexivity. }
  all: inversion Hex as [? ? Hn|? ? Hl]; subst; [congruence|];
    destruct (IH Hl) as (y & Hin & Hy & Hrun);
    exists y; split; [right; exact Hin|]; split; [exact Hy|];
    intros arquivos; cbn [para_cada]; rewrite registrar_eq, Hx;
    cbn [bind]; rewrite Hrun; reflexivity.
Qed.

(** X17. One entry below the root of which the status cannot be had, as a
    symbolic link that leads to itself, aborts the run: in a root directory
    where no directory fails to open, [is_regular_file] throws at the first
    such entry, nothing catches the exception, and the run ends after the
    iterator was asked for, with no file opened and nothing reported. *)
Theorem entrada_sem_status_aborta (m : Mundo) (pastaRaiz : caminho)
    (permitido : bool) (filhos : list (string * no)) :
  resolver (arvore m) pastaRaiz = Some (Diretorio permitido filhos) ->
  (forall p, falha_ao_listar m p = false) ->
  Exists (fun entrada => tipo entrada = none)
         (descendentes pastaRaiz (Diretorio permitido filhos)) ->
  exists entrada,
    In entrada (descendentes pastaRaiz (Diretorio permitido filhos)) /\
    tipo entrada = none /\
    executar m pastaRaiz =
    (Abortado (filesystem_error "status" (path entrada)),
     [Cout "Localizar duplicatas!"; Cout "Informe pasta raiz: ";
      EvExists pastaRaiz; EvIterar pastaRaiz]).
Proof.
  intros Hr Hf Hex.
  destruct (registrar_sem_status _ Hex) as (x & Hin & Hx & Hrun).
  exists x. split; [exact Hin|]. split; [exact Hx|].
  unfold executar. rewrite main_eq, (proj1 (resolver_status _ _ _) Hr).
  rewrite obter_arquivos_duplicados_eq. unfold recursive_directory_iterator.
  rewrite Hr, (Hf pastaRaiz), (interromper_sem_falha m _ Hf).
  cbn [emitir bind ret entregues]. rewrite Hrun. reflexivity.
Qed.

Lemma entrada_sem_status_aborta_witness :
  exists entrada,
    In entrada (descendentes raiz com_laco) /\
    tipo entrada = none /\
    executar (estavel com_laco) raiz =
    (Abortado (filesystem_error "status" (path entrada)),
     [Cout "Localizar duplicatas!"; Cout "Informe pasta raiz: ";
      EvExists raiz; EvIterar raiz]).
Proof.
  apply (entrada_sem_status_aborta (estavel com_laco) raiz true
           [("a", pasta [("x.txt", arquivo_com hello)]);
            ("b", pasta [("x.txt", arquivo_com hello)]);
            ("laco", Laco)]%string).
  - reflexivity.
  - intros p. reflexivity.
  - apply Exists_exists. exists (mkEntrada ["."; "laco"]%string none).
    split; [cbn; tauto | reflexivity].
Defined.
